(** * icloud-photos-sync: the differ, the library loader and the sync retry loop

    A shallow embedding of
    - [PhotosLibrary]
      (rootfs/opt/icloud-photos-sync/src/lib/photos-library/photos-library.ts):
      the loader of the local library ([loadAlbums], [loadAlbum],
      [readAlbumTypeFromPath], [loadAssets]) and the differ
      ([getProcessingQueues]);
    - [SyncEngine] (app/src/lib/sync-engine/sync-engine.ts): [sync],
      [checkFatalError], [prepareRetry] and the three phases of an attempt;
    - [iCloudPhotos]: the indexing check ([checkingIndexingStatus],
      [performQuery]);
    together with the properties of the specification that concern them.

    Conventions.
    - A JavaScript object used as a dictionary is a [gmap string _]; its keys
      are taken not to be names of members of [Object.prototype].
    - A method that changes an object it was handed returns the object's new
      value next to its result.
    - [this.logger] and [this.emit] append to a log or a trace; loggers and
      event listeners are taken not to throw, except in [ICloudPhotos],
      where what a listener throws is part of the model.
    - A thrown value, or the rejection of an awaited promise, is the [Throw]
      outcome of the effect monad [Eff.M]; [await] is sequencing.
    - Numbers are integers ([Z], or [nat] for a length); a number inside a
      response is a double. *)

From Stdlib Require Import ZArith Lia Ascii String PrimFloat.
From Equations Require Import Equations.
From stdpp Require Import base option list strings gmap fin_maps pretty.

(** ** Effects: state, exceptions, and fuel for unbounded recursion *)

Module Eff.

(** How a call ends: it returns, it throws (for an async function: its
    promise rejects), or the model ran out of fuel before the call ended. *)
Inductive Res (E A : Type) : Type :=
| Ok (a : A)
| Throw (e : E)
| OutOfFuel.
Arguments Ok {E A} a.
Arguments Throw {E A} e.
Arguments OutOfFuel {E A}.

Definition M (S E A : Type) : Type := S → Res E A * S.

Definition ret {S E A} (a : A) : M S E A := λ s, (Ok a, s).
Definition throw {S E A} (e : E) : M S E A := λ s, (Throw e, s).
Definition outOfFuel {S E A} : M S E A := λ s, (OutOfFuel, s).
Definition bind {S E A B} (m : M S E A) (k : A → M S E B) : M S E B :=
  λ s, match m s with
       | (Ok a, s') => k a s'
       | (Throw e, s') => (Throw e, s')
       | (OutOfFuel, s') => (OutOfFuel, s')
       end.
Definition modify {S E} (f : S → S) : M S E unit := λ s, (Ok tt, f s).
Definition gets {S E A} (f : S → A) : M S E A := λ s, (Ok (f s), s).

(** [for (const x of xs) { acc = body(acc, x) }] with a body that may throw. *)
Fixpoint forOf {S E A B} (body : B → A → M S E B) (xs : list A) (acc : B) : M S E B :=
  match xs with
  | [] => ret acc
  | x :: xs' => bind (body acc x) (forOf body xs')
  end.

End Eff.

(** The monad notations of stdpp ([x ← m; k], [m;; k]) at [Eff.M]. *)
#[export] Instance M_ret {S E} : MRet (Eff.M S E) := λ _, Eff.ret.
#[export] Instance M_bind {S E} : MBind (Eff.M S E) := λ _ _ k m, Eff.bind m k.

(** Unfolds the operations of the effect monad, leaving the calls they
    sequence. *)
Ltac eff_unfold :=
  cbv [mbind M_bind Eff.bind mret M_ret Eff.ret Eff.throw Eff.outOfFuel Eff.modify Eff.gets].
Tactic Notation "eff_unfold" "in" hyp(H) :=
  cbv [mbind M_bind Eff.bind mret M_ret Eff.ret Eff.throw Eff.outOfFuel Eff.modify Eff.gets] in H.

(** Levels of the loglevel logger. *)
Inductive Level := Debug | Info | Warn | Error.

(** ** Node's [path] module (POSIX) and [String.prototype.substring]

    The library functions the loader calls, after Node's lib/path.js. *)

Module Path.

Definition isSlash (c : ascii) : bool := bool_decide (c = "/"%char).
Definition isDot (c : ascii) : bool := bool_decide (c = "."%char).

Fixpoint dropWhile (p : ascii → bool) (s : string) : string :=
  match s with
  | EmptyString => EmptyString
  | String c s' => if p c then dropWhile p s' else s
  end.

Fixpoint takeWhile (p : ascii → bool) (s : string) : string :=
  match s with
  | EmptyString => EmptyString
  | String c s' => if p c then String c (takeWhile p s') else EmptyString
  end.

Fixpoint contains (p : ascii → bool) (s : string) : bool :=
  match s with
  | EmptyString => false
  | String c s' => p c || contains p s'
  end.

(** [s.substring(1)]: [s] without its first character. *)
Definition substring1 (s : string) : string :=
  match s with
  | EmptyString => EmptyString
  | String _ s' => s'
  end.

(** [path.basename(p)]: the last portion of [p]; trailing separators are
    ignored. *)
Definition basename (p : string) : string :=
  String.rev (takeWhile (λ c, negb (isSlash c)) (dropWhile isSlash (String.rev p))).

(** [path.parse(p).name]: the base name without its extension.  The
    extension starts at the last dot of the base name, unless that dot is
    its first character or the base name is [".."]. *)
Definition parse_name (p : string) : string :=
  let base := basename p in
  let rbase := String.rev base in
  if negb (contains isDot rbase) then base
  else
    let stem := String.rev (substring1 (dropWhile (λ c, negb (isDot c)) rbase)) in
    if bool_decide (stem = "") || bool_decide (base = "..") then base else stem.

(** The segments of a path between separators (empty segments included). *)
Fixpoint split_go (cur : string) (s : string) : list string :=
  match s with
  | EmptyString => [String.rev cur]
  | String c s' =>
      if isSlash c then String.rev cur :: split_go "" s'
      else split_go (String c cur) s'
  end.
Definition split (s : string) : list string := split_go "" s.

(** [normalizeString]: resolves ["."] and [".."] segments, left to right;
    [res] holds the segments kept so far, last one first. *)
Fixpoint normalizeSegments (allowAboveRoot : bool) (res : list string) (segs : list string) : list string :=
  match segs with
  | [] => reverse res
  | seg :: segs' =>
      if bool_decide (seg = "") || bool_decide (seg = ".") then
        normalizeSegments allowAboveRoot res segs'
      else if bool_decide (seg = "..") then
        match res with
        | last :: res' =>
            if bool_decide (last = "..") then normalizeSegments allowAboveRoot (seg :: res) segs'
            else normalizeSegments allowAboveRoot res' segs'
        | [] =>
            if allowAboveRoot then normalizeSegments allowAboveRoot [seg] segs'
            else normalizeSegments allowAboveRoot [] segs'
        end
      else normalizeSegments allowAboveRoot (seg :: res) segs'
  end.

Fixpoint joinSegments (segs : list string) : string :=
  match segs with
  | [] => ""
  | [seg] => seg
  | seg :: segs' => seg +:+ "/" +:+ joinSegments segs'
  end.

Definition startsWithSlash (p : string) : bool :=
  match p with
  | String c _ => isSlash c
  | EmptyString => false
  end.

(** [path.normalize(p)]. *)
Definition normalize (p : string) : string :=
  if bool_decide (p = "") then "."
  else
    let isAbsolute := startsWithSlash p in
    let trailingSeparator := startsWithSlash (String.rev p) in
    let body := joinSegments (normalizeSegments (negb isAbsolute) [] (split p)) in
    if bool_decide (body = "") then
      if isAbsolute then "/" else if trailingSeparator then "./" else "."
    else
      let body := if trailingSeparator then body +:+ "/" else body in
      if isAbsolute then "/" +:+ body else body.

(** [path.join(a, b)]: the non-empty arguments joined by a separator, then
    normalized. *)
Definition join (a b : string) : string :=
  if bool_decide (a = "") then
    if bool_decide (b = "") then "." else normalize b
  else if bool_decide (b = "") then normalize a
  else normalize (a +:+ "/" +:+ b).

End Path.

(** ** lib/photos-library/photos-library.ts *)

Module PhotosLibrary.

(** *** Entities *)

(** The interface [PEntity<T>] of model/photos-entity.ts, by the four
    methods the library calls on a remote entity.  [E] is the implementing
    type, [T] the type stored in the local library ([PLibraryEntity<T>],
    a dictionary from UUID to [T]). *)
Class PEntity (E T : Type) := {
  getUUID : E → string;
  getDisplayName : E → string;
  equal : E → T → bool;
  unpack : E → T;
}.

Inductive AlbumType := FOLDER | ALBUM | ARCHIVED.

#[export] Instance AlbumType_eq_dec : EqDecision AlbumType.
Proof. solve_decision. Defined.

(** [Album], as [loadAlbum] builds and reads it:
    [new Album(uuid, albumType, albumName, parentAlbumUUID, albumPath)],
    the fields [albumType], [albumPath] and the dictionary [assets]
    (asset UUID to file name). *)
Record Album := mkAlbum {
  uuid : string;
  albumType : AlbumType;
  albumName : string;
  parentAlbumUUID : string;
  albumPath : string;
  assets : gmap string string;
}.

Definition newAlbum (uuid : string) (albumType : AlbumType) (albumName parentAlbumUUID albumPath : string) : Album :=
  mkAlbum uuid albumType albumName parentAlbumUUID albumPath ∅.

(** Modelled from the spec: [Album.equal] (model/album.ts is not part of
    the sources).  "For albums, the tuple (kind, display name, parent UUID)
    must match." *)
Definition Album_equal (a b : Album) : bool :=
  bool_decide (albumType a = albumType b)
  && bool_decide (albumName a = albumName b)
  && bool_decide (parentAlbumUUID a = parentAlbumUUID b).

(** Modelled from the spec: [Album.getRootAlbum] (model/album.ts is not part
    of the sources).  "Root album has empty UUID"; it is the directory that
    holds the album tree, of kind FOLDER.  Its display name is not fixed by
    the spec and is left empty. *)
Definition getRootAlbum (photoDataDir : string) : Album :=
  newAlbum "" FOLDER "" "" photoDataDir.

(** Modelled from the spec: [Album] as a [PEntity<Album>] (model/album.ts
    is not part of the sources).  The differ is handed remote albums and
    appends them to toAdd as they are: an album unpacks to itself. *)
#[export] Instance Album_PEntity : PEntity Album Album := {|
  getUUID := uuid;
  getDisplayName := albumName;
  equal := Album_equal;
  unpack := id;
|}.

(** *** Logging *)

Inductive LogMsg :=
| MsgLoadingAlbum (displayName : string)
| MsgFoundLinks (n : nat) (displayName : string)
| MsgTreatingAsArchived (t : AlbumType)
| MsgExtraneousFile (path : string)
| MsgGettingQueues
| MsgAddingEntity (displayName : string)
| MsgKeepingEntity (displayName : string)
| MsgQueueSizes (adding removing : nat).

Definition Log := list (Level * LogMsg).

(** *** The differ: [getProcessingQueues] *)

Section Differ.
Context {E T : Type} `{PEntity E T}.

(** The variables the [forEach] callback reads and writes: the dictionary
    behind the parameter [localEntities] (the caller's object, not a
    copy), the array [toBeAdded], and the logger. *)
Record DiffState := mkDiffState {
  localEntities : gmap string T;
  toBeAdded : list T;
  logger : Log;
}.

(** The callback of [remoteEnties.forEach].  An entity is an object, so
    [!localEntity] holds exactly when there is no entry under the UUID. *)
Definition forEachRemote (st : DiffState) (remoteEntity : E) : DiffState :=
  let localEntity := localEntities st !! getUUID remoteEntity in
  if match localEntity with
     | None => true
     | Some l => negb (equal remoteEntity l)
     end
  then
    {| localEntities := localEntities st;
       toBeAdded := toBeAdded st ++ [unpack remoteEntity];
       logger := logger st ++ [(Debug, MsgAddingEntity (getDisplayName remoteEntity))] |}
  else
    {| localEntities := delete (getUUID remoteEntity) (localEntities st);
       toBeAdded := toBeAdded st;
       logger := logger st ++ [(Debug, MsgKeepingEntity (getDisplayName remoteEntity))] |}.

(** [Object.values]: the values of the own properties.  The model
    enumerates in [gmap]'s order; no statement below depends on it. *)
Definition Object_values (o : gmap string T) : list T := (map_to_list o).*2.

(** What a call leaves behind: the returned pair
    [[toBeDeleted, toBeAdded]], the argument dictionary as the call left
    it, and the log. *)
Record DiffResult := mkDiffResult {
  queues : list T * list T;
  localAfter : gmap string T;
  logAfter : Log;
}.

Definition getProcessingQueues (remoteEnties : list E) (localEntities0 : gmap string T) (lg : Log) : DiffResult :=
  let st0 := mkDiffState localEntities0 [] (lg ++ [(Debug, MsgGettingQueues)]) in
  let st := foldl forEachRemote st0 remoteEnties in
  let toBeDeleted := Object_values (localEntities st) in
  {| queues := (toBeDeleted, toBeAdded st);
     localAfter := localEntities st;
     logAfter := logger st ++ [(Debug, MsgQueueSizes (length (toBeAdded st)) (length toBeDeleted))] |}.

Definition toDelete (r : DiffResult) : list T := (queues r).1.
Definition toAdd (r : DiffResult) : list T := (queues r).2.

(** The remote entity [r] matches the local entry [l] stored under [k]. *)
Definition matches (k : string) (l : T) (r : E) : bool :=
  bool_decide (getUUID r = k) && equal r l.

(** Some remote entity of [R] matches the local entry [l] stored under [k]. *)
Definition matched (R : list E) (k : string) (l : T) : bool :=
  existsb (matches k l) R.

(** [r] finds no equal entry under its UUID in [L]. *)
Definition unmatchedIn (L : gmap string T) (r : E) : bool :=
  match L !! getUUID r with
  | None => true
  | Some l => negb (equal r l)
  end.

(** The differ as the specification words it, for the queue of additions:
    "if [l] is absent, or [r.equals(l)] is false, append [r] to toAdd",
    with [l] read from the map the differ was given. *)
Definition spec_toAdd (R : list E) (L : gmap string T) : list T :=
  unpack <$> filter (λ r, unmatchedIn L r = true) R.

End Differ.
Arguments DiffState : clear implicits.
Arguments DiffResult : clear implicits.

(** *** The file system, as the loader reads it *)

(** [fs.Dirent]: an entry of a directory listing read with
    [withFileTypes]. A symbolic link is reported as a link, whatever it
    points to. *)
Inductive DirentType := DtFile | DtDirectory | DtSymbolicLink | DtOther.

#[export] Instance DirentType_eq_dec : EqDecision DirentType.
Proof. solve_decision. Defined.

Record Dirent := mkDirent {
  name : string;
  dtype : DirentType;
}.

Definition isFile (d : Dirent) : bool := bool_decide (dtype d = DtFile).
Definition isDirectory (d : Dirent) : bool := bool_decide (dtype d = DtDirectory).
Definition isSymbolicLink (d : Dirent) : bool := bool_decide (dtype d = DtSymbolicLink).

(** The two calls of fs/promises the loader makes; [None] is a rejected
    call (no such directory, not a link, ...).  The loader never writes, so
    the file system is the same at every call of one load. *)
Record FileSystem := mkFileSystem {
  readdir : string → option (list Dirent);
  readlink : string → option string;
}.

(** What the loader can throw: a rejected file-system call, or the
    [TypeError] of reading a property of [undefined]. *)
Inductive Exn :=
| FsError (syscall path : string)
| TypeError.

(** The loader's effects: the logger, exceptions, fuel. *)
Abbreviation LM := (Eff.M Log Exn).

Definition log (lvl : Level) (msg : LogMsg) : LM unit :=
  Eff.modify (λ lg, lg ++ [(lvl, msg)]).

Definition fs_readdir (fs : FileSystem) (path : string) : LM (list Dirent) :=
  match readdir fs path with
  | Some entries => mret entries
  | None => Eff.throw (FsError "scandir" path)
  end.

Definition fs_readlink (fs : FileSystem) (path : string) : LM string :=
  match readlink fs path with
  | Some target => mret target
  | None => Eff.throw (FsError "readlink" path)
  end.

(** *** [readAlbumTypeFromPath] *)

Definition readAlbumTypeFromPath (fs : FileSystem) (path : string) : LM AlbumType :=
  entries ← fs_readdir fs path;
  let directoryPresent := existsb isDirectory entries in
  entries' ← fs_readdir fs path;
  let filePresent := existsb isFile entries' in
  if directoryPresent then
    (if filePresent then log Warn (MsgExtraneousFile path) else mret tt);;
    mret FOLDER
  else if filePresent then mret ARCHIVED
  else mret ALBUM.

(** *** [loadAlbum] and [loadAlbums] *)

(** [album.assets[uuid] = fileName]. *)
Definition setAsset (album : Album) (assetUUID fileName : string) : Album :=
  mkAlbum (uuid album) (albumType album) (albumName album) (parentAlbumUUID album)
          (albumPath album) (<[assetUUID := fileName]> (assets album)).

(** The body of [for (const link of symbolicLinks)] in [loadAlbum]; [albums]
    is the array built so far, [recurse] the recursive call of [loadAlbum].
    [albums[0]] is the album being loaded if it was pushed, and [undefined]
    if it was not. *)
Definition loadLink (fs : FileSystem) (recurse : Album → LM (list Album)) (album : Album)
    (albums : list Album) (link : Dirent) : LM (list Album) :=
  target ← fs_readlink fs (Path.join (albumPath album) (name link));
  match albumType album with
  | FOLDER =>
      let uuid' := Path.substring1 (Path.basename target) in
      let fullPath := Path.join (albumPath album) target in
      folderType ← readAlbumTypeFromPath fs fullPath;
      let loadedAlbum := newAlbum uuid' folderType (name link) (uuid album) fullPath in
      loaded ← recurse loadedAlbum;
      mret (albums ++ loaded)
  | ALBUM =>
      let uuid' := Path.parse_name target in
      match albums with
      | [] => Eff.throw TypeError
      | first :: others => mret (setAsset first uuid' (name link) :: others)
      end
  | ARCHIVED =>
      log Info (MsgTreatingAsArchived (albumType album));;
      mret albums
  end.

(** [loadAlbum]; the recursion follows the links of the file system, which
    may lead back to a directory already visited, hence the fuel. *)
Fixpoint loadAlbum (fuel : nat) (fs : FileSystem) (album : Album) : LM (list Album) :=
  match fuel with
  | O => Eff.outOfFuel
  | S fuel' =>
      let albums := if 0 <? String.length (uuid album) then [album] else [] in
      log Info (MsgLoadingAlbum (albumName album));;
      entries ← fs_readdir fs (albumPath album);
      let symbolicLinks := filter (λ file, isSymbolicLink file = true) entries in
      log Debug (MsgFoundLinks (length symbolicLinks) (albumName album));;
      Eff.forOf (loadLink fs (loadAlbum fuel' fs) album) symbolicLinks albums
  end.

Definition loadAlbums (fuel : nat) (fs : FileSystem) (photoDataDir : string) : LM (gmap string Album) :=
  albums ← loadAlbum fuel fs (getRootAlbum photoDataDir);
  mret (foldl (λ libAlbums album, <[uuid album := album]> libAlbums) ∅ albums).

(** *** Predicates used to state what the loader does *)

(** A listing holds a subdirectory; a listing holds a regular file. *)
Definition hasDirectory (entries : list Dirent) : Prop := ∃ d, d ∈ entries ∧ dtype d = DtDirectory.
Definition hasFile (entries : list Dirent) : Prop := ∃ d, d ∈ entries ∧ dtype d = DtFile.

(** The album a directory was loaded as, but for its photos. *)
Definition sameAlbum (a b : Album) : Prop :=
  uuid a = uuid b ∧ albumType a = albumType b ∧ albumName a = albumName b
  ∧ parentAlbumUUID a = parentAlbumUUID b ∧ albumPath a = albumPath b.

(** The album's UUID is not the empty string. *)
Definition hasUUID (a : Album) : Prop := uuid a ≠ "".

(** [child] is an album as [loadAlbum] builds it for a symbolic link in the
    directory of the folder [parent]: its UUID and path come from the
    link's target, its display name is the link's name, its parent UUID is
    the UUID of [parent], and its kind is the one read from its path. *)
Definition foundIn (fs : FileSystem) (parent child : Album) : Prop :=
  albumType parent = FOLDER
  ∧ ∃ entries link target lg lg',
      readdir fs (albumPath parent) = Some entries
      ∧ link ∈ entries ∧ isSymbolicLink link = true
      ∧ readlink fs (Path.join (albumPath parent) (name link)) = Some target
      ∧ uuid child = Path.substring1 (Path.basename target)
      ∧ albumName child = name link
      ∧ parentAlbumUUID child = uuid parent
      ∧ albumPath child = Path.join (albumPath parent) target
      ∧ readAlbumTypeFromPath fs (albumPath child) lg = (Eff.Ok (albumType child), lg').

(** The albums [loadAlbum] comes through from [album]: [album] itself, and
    every album found in a folder it comes through. *)
Inductive reached (fs : FileSystem) (album : Album) : Album → Prop :=
| reached_start : reached fs album album
| reached_step parent child :
    reached fs album parent → foundIn fs parent child → reached fs album child.

(** UUID recovery as the specification words it: "strips the leading [.]
    and reads up to the first [-]" of the directory name. *)
Definition spec_uuidOfDirName (dirName : string) : string :=
  Path.takeWhile (λ c, negb (bool_decide (c = "-"%char))) (Path.substring1 dirName).

End PhotosLibrary.

(** ** lib/sync-engine/sync-engine.ts *)

Module SyncEngine.

(** [SYNC_ENGINE.EVENTS], with the arguments they are emitted with. *)
Inductive Event :=
| START
| FETCH_N_LOAD
| FETCH_N_LOAD_COMPLETED (remoteAssets remoteAlbums localAssets localAlbums : nat)
| DIFF
| DIFF_COMPLETED
| WRITE
| WRITE_ASSETS (n0 n1 n2 : nat)
| WRITE_ASSETS_COMPLETED
| WRITE_ALBUMS (n0 n1 n2 : nat)
| WRITE_ALBUMS_COMPLETED
| WRITE_COMPLETED
| DONE
| RETRY (retryCount : Z).

(** A value thrown by a collaborator, by the properties the engine reads:
    [err.code], [err.message] and [err.response?.status]. *)
Record JSError := mkJSError {
  code : option string;
  message : string;
  status : option Z;
}.

#[export] Instance JSError_eq_dec : EqDecision JSError.
Proof. solve_decision. Defined.

(** The members of [SYNC_ERR] the engine raises, and an [iCPSError] built
    from one of them with [addMessage] and [addCause]. *)
Inductive SYNC_ERR := MAX_RETRY | UNKNOWN_SYNC.

Record iCPSError := mkICPSError {
  err : SYNC_ERR;
  messages : list string;
  cause : option JSError;
}.

(** What [sync] can throw: a collaborator's error passing through, or an
    error the engine raised itself. *)
Inductive Thrown :=
| Foreign (e : JSError)
| Raised (e : iCPSError).

Inductive LogMsg :=
| MsgStartingSync
| MsgPerformingSync (retryCount : Z)
| MsgCompletedSync
| MsgRecoverableError (message : string)
| MsgBadResponse (status : option Z)
| MsgBadRequest (status : option Z)
| MsgDnsExpired
| MsgPreparingRetry
| MsgClearingQueue (size : Z)
| MsgWaitingForQueue (pending : Z)
| MsgQueueSettled
| MsgRefreshingConnection
| MsgDiffingState
| MsgWritingState.

(** What an observer of the engine sees, in order. *)
Inductive Obs :=
| Emitted (e : Event)
| Logged (lvl : Level) (msg : LogMsg).

(** The counters of the p-queue download queue: jobs waiting, jobs running. *)
Record PQueue := mkPQueue {
  size : Z;
  pending : Z;
}.

(** [PLibraryProcessingQueues<T>]: three arrays, read by index. *)
Definition Queues (T : Type) : Type := list T * list T * list T.

(** The exit of one pass through the body of [while]: [return v], or
    falling through to the next test of the loop condition. *)
Inductive LoopExit (A : Type) :=
| Return (v : A)
| Continue.
Arguments Return {A} v.
Arguments Continue {A}.

Section Engine.
(** [W]: everything outside the engine object that its collaborators read
    and write (the remote library and session, the disk, the download
    queue). *)
Context {W Asset Album CPLAsset CPLMaster CPLAlbum : Type}.

Record State := mkState {
  world : W;
  trace : list Obs;
}.

(** Code that throws what its collaborators throw. *)
Abbreviation CM := (Eff.M State JSError).
(** Code of the engine. *)
Abbreviation EM := (Eff.M State Thrown).

(** The helpers and objects the engine is assembled from; none of them is
    part of the sources.  Each may read and change the world, emit and
    log, and throw.  The [getProcessingQueues] of the engine is the helper
    of ./helpers/diff-helpers, which returns three queues; it is not the
    method of [PhotosLibrary] above. *)
Record Collaborators := mkCollaborators {
  (* this.icloud.photos, this.photosLibrary *)
  fetchAllCPLAssetsMasters : CM (list CPLAsset * list CPLMaster);
  fetchAllCPLAlbums : CM (list CPLAlbum);
  loadAssets : CM (gmap string Asset);
  loadAlbums : CM (gmap string Album);
  (* ./helpers/fetchAndLoad-helpers *)
  convertCPLAssets : list CPLAsset → list CPLMaster → CM (list Asset);
  convertCPLAlbums : list CPLAlbum → CM (list Album);
  (* ./helpers/diff-helpers *)
  getProcessingQueues_assets : list Asset → gmap string Asset → CM (Queues Asset);
  getProcessingQueues_albums : list Album → gmap string Album → CM (Queues Album);
  resolveHierarchicalDependencies : Queues Album → gmap string Album → CM (Queues Album);
  (* ./helpers/write-assets-helpers, ./helpers/write-albums-helper *)
  writeAssets : Queues Asset → CM unit;
  writeAlbums : Queues Album → CM unit;
  (* this.downloadQueue: undefined until writeAssets creates it *)
  downloadQueue : W → option PQueue;
  downloadQueue_clear : W → W;
  downloadQueue_onIdle : W → W;
  (* this.icloud: setupAccount() starts the refresh, the promise of
     getReady() settles when it ends *)
  icloud_setupAccount : W → W;
  icloud_ready : CM unit;
}.

Context (C : Collaborators).

(** The state once [os] has been observed. *)
Definition observed (os : list Obs) (s : State) : State :=
  mkState (world s) (trace s ++ os).

Definition emit {E} (e : Event) : Eff.M State E unit :=
  Eff.modify (observed [Emitted e]).

Definition log {E} (lvl : Level) (msg : LogMsg) : Eff.M State E unit :=
  Eff.modify (observed [Logged lvl msg]).

Definition onWorld {E} (f : W → W) : Eff.M State E unit :=
  Eff.modify (λ s, mkState (f (world s)) (trace s)).

(** An error of a collaborator, leaving engine code uncaught. *)
Definition lift {A} (m : CM A) : EM A :=
  λ s, match m s with
       | (Eff.Ok a, s') => (Eff.Ok a, s')
       | (Eff.Throw e, s') => (Eff.Throw (Foreign e), s')
       | (Eff.OutOfFuel, s') => (Eff.OutOfFuel, s')
       end.

(** [try { body } catch (err) { handler }]. *)
Definition tryCatch {A} (body : CM A) (handler : JSError → EM A) : EM A :=
  λ s, match body s with
       | (Eff.Ok a, s') => (Eff.Ok a, s')
       | (Eff.Throw e, s') => handler e s'
       | (Eff.OutOfFuel, s') => (Eff.OutOfFuel, s')
       end.

Definition fetchAndLoadState : CM (list Asset * list Album * gmap string Asset * gmap string Album) :=
  emit FETCH_N_LOAD;;
  remoteAssets ← ('(cplAssets, cplMasters) ← fetchAllCPLAssetsMasters C;
                  convertCPLAssets C cplAssets cplMasters);
  localAssets ← loadAssets C;
  (* doAlbums = true *)
  remoteAlbums ← (cplAlbums ← fetchAllCPLAlbums C; convertCPLAlbums C cplAlbums);
  localAlbums ← loadAlbums C;
  emit (FETCH_N_LOAD_COMPLETED (length remoteAssets) (length remoteAlbums)
                               (base.size localAssets) (base.size localAlbums));;
  mret (remoteAssets, remoteAlbums, localAssets, localAlbums).

Definition diffState (remoteAssets : list Asset) (remoteAlbums : list Album)
    (localAssets : gmap string Asset) (localAlbums : gmap string Album)
    : CM (Queues Asset * Queues Album) :=
  emit DIFF;;
  log Info MsgDiffingState;;
  assetQueue ← getProcessingQueues_assets C remoteAssets localAssets;
  albumQueue ← getProcessingQueues_albums C remoteAlbums localAlbums;
  resolvedAlbumQueue ← resolveHierarchicalDependencies C albumQueue localAlbums;
  emit DIFF_COMPLETED;;
  mret (assetQueue, resolvedAlbumQueue).

Definition writeState (assetQueue : Queues Asset) (albumQueue : Queues Album) : CM unit :=
  emit WRITE;;
  log Info MsgWritingState;;
  emit (WRITE_ASSETS (length assetQueue.1.1) (length assetQueue.1.2) (length assetQueue.2));;
  writeAssets C assetQueue;;
  emit WRITE_ASSETS_COMPLETED;;
  emit (WRITE_ALBUMS (length albumQueue.1.1) (length albumQueue.1.2) (length albumQueue.2));;
  writeAlbums C albumQueue;;
  emit WRITE_ALBUMS_COMPLETED;;
  emit WRITE_COMPLETED.

Definition checkFatalError (e : JSError) : EM bool :=
  if bool_decide (code e = Some "ERR_BAD_RESPONSE") then
    log Debug (MsgBadResponse (status e));;
    mret false
  else if bool_decide (code e = Some "ERR_BAD_REQUEST") then
    log Debug (MsgBadRequest (status e));;
    mret false
  else if bool_decide (code e = Some "EAI_AGAIN") then
    log Debug MsgDnsExpired;;
    mret false
  else
    Eff.throw (Raised (mkICPSError UNKNOWN_SYNC [] (Some e))).

Definition prepareRetry : EM unit :=
  log Debug MsgPreparingRetry;;
  q ← Eff.gets (λ s, downloadQueue C (world s));
  (if q is Some q then
     (if bool_decide (size q > 0)%Z then
        log Info (MsgClearingQueue (size q));;
        onWorld (downloadQueue_clear C)
      else mret tt);;
     q' ← Eff.gets (λ s, downloadQueue C (world s));
     (if q' is Some q' then
        if bool_decide (pending q' > 0)%Z then
          log Info (MsgWaitingForQueue (pending q'));;
          onWorld (downloadQueue_onIdle C);;
          log Debug MsgQueueSettled
        else mret tt
      else mret tt)
   else mret tt);;
  log Debug MsgRefreshingConnection;;
  onWorld (icloud_setupAccount C);;
  lift (icloud_ready C).

(** The body of [while (this.maxRetry > retryCount)], entered with
    [retryCount] already incremented. *)
Definition syncAttempt (retryCount : Z) : EM (LoopExit (list Asset * list Album)) :=
  log Info (MsgPerformingSync retryCount);;
  '(remoteAssets, remoteAlbums, localAssets, localAlbums) ← lift fetchAndLoadState;
  '(assetQueue, albumQueue) ← lift (diffState remoteAssets remoteAlbums localAssets localAlbums);
  tryCatch
    (writeState assetQueue albumQueue;;
     log Info MsgCompletedSync;;
     emit DONE;;
     mret (Return (remoteAssets, remoteAlbums)))
    (λ e,
       checkFatalError e;;
       log Info (MsgRecoverableError (message e));;
       emit (RETRY retryCount);;
       prepareRetry;;
       mret Continue).

(** The loop of [sync] and the [throw] after it.  [retryCount] only
    grows and the loop stops once it reaches [maxRetry]. *)
Equations? syncLoop (maxRetry retryCount : Z) (s : State)
    : Eff.Res Thrown (list Asset * list Album) * State
    by wf (Z.to_nat (maxRetry - retryCount)) lt :=
  syncLoop maxRetry retryCount s with decide (maxRetry > retryCount)%Z := {
    | left _ with syncAttempt (retryCount + 1) s := {
        | (Eff.Ok (Return v), s') := (Eff.Ok v, s');
        | (Eff.Ok Continue, s') := syncLoop maxRetry (retryCount + 1) s';
        | (Eff.Throw e, s') := (Eff.Throw e, s');
        | (Eff.OutOfFuel, s') := (Eff.OutOfFuel, s') };
    | right _ :=
        Eff.throw (Raised (mkICPSError MAX_RETRY [pretty retryCount] None)) s }.
Proof. lia. Qed.

(** [sync()], for an engine constructed with [maxRetry]. *)
Definition sync (maxRetry : Z) : EM (list Asset * list Album) :=
  log Info MsgStartingSync;;
  emit START;;
  syncLoop maxRetry 0.

(** The state in which attempt [retryCount] starts its first phase: the
    line "Performing sync, try #..." has been logged. *)
Definition attemptStarted (retryCount : Z) (s : State) : State :=
  observed [Logged Info (MsgPerformingSync retryCount)] s.

(** [n] attempts in a row, the first one numbered [retryCount + 1], each
    ending in the [catch] block with an error that [checkFatalError] lets
    pass and with the retry prepared: from [s] they lead to [s']. *)
Inductive Retries : nat → Z → State → State → Prop :=
| Retries_O retryCount s : Retries 0 retryCount s s
| Retries_S n retryCount s s1 s' :
    syncAttempt (retryCount + 1) s = (Eff.Ok Continue, s1) →
    Retries n (retryCount + 1) s1 s' →
    Retries (S n) retryCount s s'.

(** The codes [checkFatalError] lets pass. *)
Definition recoverableCode (e : JSError) : Prop :=
  code e = Some "ERR_BAD_RESPONSE" ∨ code e = Some "ERR_BAD_REQUEST" ∨ code e = Some "EAI_AGAIN".

(** The preparation of a retry as the specification words it: "drain and
    cancel the download pool (clear pending, await in-flight), refresh the
    remote session".  [spec_cleared]: the waiting jobs of the download queue
    are dropped, if there is a queue and it has any; [spec_settled]: the
    running jobs have been awaited, if there is a queue and it has any;
    [spec_retryPrepared]: both, in this order, and then the refresh of the
    session is started. *)
Definition spec_cleared (w : W) : W :=
  match downloadQueue C w with
  | Some q => if bool_decide (size q > 0)%Z then downloadQueue_clear C w else w
  | None => w
  end.

Definition spec_settled (w : W) : W :=
  match downloadQueue C w with
  | Some q => if bool_decide (pending q > 0)%Z then downloadQueue_onIdle C w else w
  | None => w
  end.

Definition spec_retryPrepared (w : W) : W :=
  icloud_setupAccount C (spec_settled (spec_cleared w)).

(** The lines [prepareRetry] logs before it awaits the session, for the
    world it starts in. *)
Definition prepareRetry_lines (w : W) : list Obs :=
  [Logged Debug MsgPreparingRetry]
  ++ match downloadQueue C w with
     | Some q =>
         (if bool_decide (size q > 0)%Z then [Logged Info (MsgClearingQueue (size q))] else [])
         ++ match downloadQueue C (spec_cleared w) with
            | Some q' =>
                if bool_decide (pending q' > 0)%Z
                then [Logged Info (MsgWaitingForQueue (pending q')); Logged Debug MsgQueueSettled]
                else []
            | None => []
            end
     | None => []
     end
  ++ [Logged Debug MsgRefreshingConnection].

(** The state in which attempt [retryCount], whose write has thrown the
    recoverable error [e], awaits the refreshed session: the error and the
    retry have been announced and the retry is prepared.  [s] is the state
    [checkFatalError] has left. *)
Definition awaitingSession (retryCount : Z) (e : JSError) (s : State) : State :=
  mkState (spec_retryPrepared (world s))
          (trace s ++ [Logged Info (MsgRecoverableError (message e)); Emitted (RETRY retryCount)]
                   ++ prepareRetry_lines (world s)).

(** [n] attempts in a row, the first one numbered [retryCount + 1], each
    of which fetched, loaded and diffed, threw an error with a recoverable
    code from its write phase, prepared the retry and saw the session
    refreshed: from [s] they lead to [s']. *)
Inductive RecoverableFailures : nat → Z → State → State → Prop :=
| RecoverableFailures_O retryCount s : RecoverableFailures 0 retryCount s s
| RecoverableFailures_S n retryCount s ra ral la lal s1 aq alq s2 e s3 s4 s5 s' :
    fetchAndLoadState (attemptStarted (retryCount + 1) s) = (Eff.Ok (ra, ral, la, lal), s1) →
    diffState ra ral la lal s1 = (Eff.Ok (aq, alq), s2) →
    writeState aq alq s2 = (Eff.Throw e, s3) →
    recoverableCode e →
    checkFatalError e s3 = (Eff.Ok false, s4) →
    icloud_ready C (awaitingSession (retryCount + 1) e s4) = (Eff.Ok (), s5) →
    RecoverableFailures n (retryCount + 1) s5 s' →
    RecoverableFailures (S n) retryCount s s'.

End Engine.
Arguments State : clear implicits.
Arguments Collaborators : clear implicits.

End SyncEngine.

(** ** Sample libraries

    Concrete inputs, used to run the definitions above. *)

Module Samples.
Import PhotosLibrary.

(** An album that is the same on both sides. *)
Definition summer : Album := newAlbum "A1" ALBUM "Summer" "" "/photos/.A1".

(** A folder of the remote library whose local directory was filled with
    regular files, and is therefore loaded as ARCHIVED. *)
Definition trip_remote : Album := newAlbum "F1" FOLDER "Trip" "" "/photos/.F1".
Definition trip_local : Album := newAlbum "F1" ARCHIVED "Trip" "" "/photos/.F1".

(** An album renamed on the remote side. *)
Definition winter_remote : Album := newAlbum "A2" ALBUM "Winter 2020" "" "/photos/.A2".
Definition winter_local : Album := newAlbum "A2" ALBUM "Winter" "" "/photos/.A2".

(** An album that only exists locally. *)
Definition stale_local : Album := newAlbum "A3" ALBUM "Old" "" "/photos/.A3".

Definition remoteAlbums : list Album := [summer; trip_remote; winter_remote].

(** A local library of a single album. *)
Definition onlySummer : gmap string Album := {["A1" := summer]}.
Definition localAlbums : gmap string Album :=
  <["A1" := summer]> (<["F1" := trip_local]> (<["A2" := winter_local]> (<["A3" := stale_local]> ∅))).

(** A library on disk.  An album directory is named by a leading [.] and
    what follows it; next to it, a symbolic link named by the album's display
    name points to it.  An album's photos are links into the asset
    directory. *)
Definition dir (n : string) : Dirent := mkDirent n DtDirectory.
Definition file (n : string) : Dirent := mkDirent n DtFile.
Definition link (n : string) : Dirent := mkDirent n DtSymbolicLink.

Definition rootEntries : list Dirent :=
  [dir "_All-Photos"; dir ".F1"; link "Trip"; dir ".A1"; link "Summer";
   dir ".F2"; link "Scans"; dir ".abc-My Album"; link "My Album"].
Definition tripEntries : list Dirent := [dir ".A4"; link "Beach"; file "notes.txt"].

Definition directories : gmap string (list Dirent) :=
  list_to_map [
    ("/photos", rootEntries);
    ("/photos/_All-Photos", [file "U1.jpg"; file "U2.jpg"; file "U3.jpg"]);
    ("/photos/.F1", tripEntries);
    ("/photos/.F1/.A4", [link "IMG_1.jpg"]);
    ("/photos/.A1", [link "IMG_2.jpg"; link "IMG_3.jpg"]);
    ("/photos/.F2", [file "scan1.png"; file "scan2.png"]);
    ("/photos/.abc-My Album", [])
  ].

Definition linkTargets : gmap string string :=
  list_to_map [
    ("/photos/Trip", ".F1");
    ("/photos/Summer", ".A1");
    ("/photos/Scans", ".F2");
    ("/photos/My Album", ".abc-My Album");
    ("/photos/.F1/Beach", ".A4");
    ("/photos/.F1/.A4/IMG_1.jpg", "../../_All-Photos/U1.jpg");
    ("/photos/.A1/IMG_2.jpg", "../_All-Photos/U2.jpg");
    ("/photos/.A1/IMG_3.jpg", "../_All-Photos/U3.jpg")
  ].

Definition disk : FileSystem :=
  mkFileSystem (λ path, directories !! path) (λ path, linkTargets !! path).

(** What loading [disk] from ["/photos"] returns: the albums in the order
    they are collected, and the log. *)
Definition loadedTrip : Album := mkAlbum "F1" FOLDER "Trip" "" "/photos/.F1" ∅.
Definition loadedBeach : Album :=
  mkAlbum "A4" ALBUM "Beach" "F1" "/photos/.F1/.A4" {["U1" := "IMG_1.jpg"]}.
Definition loadedSummer : Album :=
  mkAlbum "A1" ALBUM "Summer" "" "/photos/.A1" (<["U2" := "IMG_2.jpg"]> {["U3" := "IMG_3.jpg"]}).
Definition loadedScans : Album := mkAlbum "F2" ARCHIVED "Scans" "" "/photos/.F2" ∅.
Definition loadedMyAlbum : Album :=
  mkAlbum "abc-My Album" ALBUM "My Album" "" "/photos/.abc-My Album" ∅.

Definition loadedList : list Album :=
  [loadedTrip; loadedBeach; loadedSummer; loadedScans; loadedMyAlbum].

Definition loadedAlbums : gmap string Album :=
  list_to_map ((λ a, (uuid a, a)) <$> loadedList).

Definition loadLog : Log :=
  [(Info, MsgLoadingAlbum ""); (Debug, MsgFoundLinks 4 "");
   (Warn, MsgExtraneousFile "/photos/.F1");
   (Info, MsgLoadingAlbum "Trip"); (Debug, MsgFoundLinks 1 "Trip");
   (Info, MsgLoadingAlbum "Beach"); (Debug, MsgFoundLinks 1 "Beach");
   (Info, MsgLoadingAlbum "Summer"); (Debug, MsgFoundLinks 2 "Summer");
   (Info, MsgLoadingAlbum "Scans"); (Debug, MsgFoundLinks 0 "Scans");
   (Info, MsgLoadingAlbum "My Album"); (Debug, MsgFoundLinks 0 "My Album")].

(** A directory with a link to itself, under which [loadAlbum] descends
    without end. *)
Definition loop_disk : FileSystem :=
  mkFileSystem (λ path, if bool_decide (path = "/loop") then Some [dir ".x"; link "Again"] else None)
               (λ path, if bool_decide (path = "/loop/Again") then Some "." else None).

End Samples.

(** A scripted world for the engine: each call of a collaborator that can
    fail consumes the head of its script, and throws it if it is an error. *)
Module SyncSamples.
Import SyncEngine.

Record World := mkWorld {
  fetchScript : list (option JSError);
  diffScript : list (option JSError);
  writeScript : list (option JSError);
  downloads : option PQueue;
  refreshes : nat;
}.

Definition badResponse : JSError := mkJSError (Some "ERR_BAD_RESPONSE") "Request failed with status code 503" (Some 503%Z).
Definition badRequest : JSError := mkJSError (Some "ERR_BAD_REQUEST") "Request failed with status code 421" (Some 421%Z).
Definition dnsAgain : JSError := mkJSError (Some "EAI_AGAIN") "getaddrinfo EAI_AGAIN" None.
Definition diskFull : JSError := mkJSError (Some "ENOSPC") "no space left on device" None.

Definition scripted {A} (script : World → list (option JSError)) (rest : World → list (option JSError) → World)
    (a : A) : Eff.M (State World) JSError A :=
  λ s, match script (world s) with
       | Some e :: script' => (Eff.Throw e, mkState (rest (world s) script') (trace s))
       | None :: script' => (Eff.Ok a, mkState (rest (world s) script') (trace s))
       | [] => (Eff.Ok a, s)
       end.

Definition collaborators : Collaborators World string string unit unit unit := {|
  fetchAllCPLAssetsMasters :=
    scripted fetchScript
      (λ w l, mkWorld l (diffScript w) (writeScript w) (downloads w) (refreshes w)) ([tt], [tt]);
  fetchAllCPLAlbums := mret [tt];
  loadAssets := mret ∅;
  loadAlbums := mret ∅;
  convertCPLAssets := λ _ _, mret ["a1"; "a2"];
  convertCPLAlbums := λ _, mret ["F1"];
  getProcessingQueues_assets := λ remote _,
    scripted diffScript
      (λ w l, mkWorld (fetchScript w) l (writeScript w) (downloads w) (refreshes w)) ([], remote, []);
  getProcessingQueues_albums := λ remote _, mret ([], remote, []);
  resolveHierarchicalDependencies := λ queue _, mret queue;
  writeAssets := λ queue,
    Eff.modify (λ s, mkState (mkWorld (fetchScript (world s)) (diffScript (world s)) (writeScript (world s))
                                      (Some (mkPQueue 1 1)) (refreshes (world s))) (trace s));;
    scripted writeScript
      (λ w l, mkWorld (fetchScript w) (diffScript w) l (downloads w) (refreshes w)) tt;
  writeAlbums := λ _, mret tt;
  downloadQueue := downloads;
  downloadQueue_clear := λ w,
    mkWorld (fetchScript w) (diffScript w) (writeScript w)
            ((λ q, mkPQueue 0 (pending q)) <$> downloads w) (refreshes w);
  downloadQueue_onIdle := λ w,
    mkWorld (fetchScript w) (diffScript w) (writeScript w)
            ((λ q, mkPQueue (size q) 0) <$> downloads w) (refreshes w);
  icloud_setupAccount := λ w,
    mkWorld (fetchScript w) (diffScript w) (writeScript w) (downloads w) (S (refreshes w));
  icloud_ready := mret tt;
|}.

Definition start (fetch diff write : list (option JSError)) : State World :=
  mkState (mkWorld fetch diff write None 0) [].


(** The events of a trace, without the log lines. *)
Definition events (s : State World) : list Event :=
  omap (λ o, match o with Emitted e => Some e | Logged _ _ => None end) (trace s).

(** The counts the RETRY events of a trace were emitted with. *)
Definition retries (s : State World) : list Z :=
  omap (λ ev, match ev with RETRY n => Some n | _ => None end) (events s).

(** The first attempt of a run whose first write fails with a bad response,
    state by state: after the log line, after fetch & load, after diff,
    after the failed write, after [checkFatalError], after [prepareRetry]. *)
Definition run0 : State World := start [] [] [Some badResponse; None].
Definition run1 : State World := attemptStarted (0 + 1) run0.
Definition run2 : State World := (fetchAndLoadState collaborators run1).2.
Definition run3 : State World := (diffState collaborators ["a1"; "a2"] ["F1"] ∅ ∅ run2).2.
Definition run4 : State World := (writeState collaborators ([], ["a1"; "a2"], []) ([], ["F1"], []) run3).2.
Definition run5 : State World := (checkFatalError badResponse run4).2.
Definition run6 : State World :=
  (prepareRetry collaborators
     (observed [Logged Info (MsgRecoverableError (message badResponse)); Emitted (RETRY (0 + 1))] run5)).2.

End SyncSamples.

(** Disks for the edges of the loader. *)
Module EdgeDisks.
Import PhotosLibrary Samples.

(** An archived album that still holds a link next to its regular files. *)
Definition scansEntries : list Dirent := [file "scan1.png"; link "IMG_9.jpg"; file "scan2.png"].
Definition archive_disk : FileSystem :=
  mkFileSystem
    (λ path, if bool_decide (path = "/photos/.F2") then Some scansEntries else None)
    (λ path, if bool_decide (path = "/photos/.F2/IMG_9.jpg") then Some "../_All-Photos/U9.jpg" else None).
Definition scans : Album := newAlbum "F2" ARCHIVED "Scans" "" "/photos/.F2".

Definition scansLog : Log :=
  [(Info, MsgLoadingAlbum "Scans"); (Debug, MsgFoundLinks 1 "Scans");
   (Info, MsgTreatingAsArchived ARCHIVED)].

(** A folder with a link whose target directory is gone. *)
Definition brokenEntries : list Dirent := [dir ".A1"; link "Summer"; link "Gone"].
Definition broken_disk : FileSystem :=
  mkFileSystem
    (λ path, if bool_decide (path = "/photos") then Some brokenEntries
             else if bool_decide (path = "/photos/.A1") then Some []
             else None)
    (λ path, if bool_decide (path = "/photos/Summer") then Some ".A1"
             else if bool_decide (path = "/photos/Gone") then Some ".A7"
             else None).

(** A folder with a link named "Odd" to the directory "x": the album found
    there gets the empty UUID; it holds one photo. *)
Definition oddEntries : list Dirent := [link "IMG_1.jpg"].
Definition nameless_disk : FileSystem :=
  mkFileSystem
    (λ path, if bool_decide (path = "/photos") then Some [dir "x"; link "Odd"]
             else if bool_decide (path = "/photos/x") then Some oddEntries
             else None)
    (λ path, if bool_decide (path = "/photos/Odd") then Some "x"
             else if bool_decide (path = "/photos/x/IMG_1.jpg") then Some "../_All-Photos/U1.jpg"
             else None).
Definition odd : Album := newAlbum "" ALBUM "Odd" "" "/photos/x".

(** The album "Summer" of [disk], before and after it is loaded. *)
Definition summerEntries : list Dirent := [link "IMG_2.jpg"; link "IMG_3.jpg"].
Definition summerAlbum : Album := newAlbum "A1" ALBUM "Summer" "" "/photos/.A1".
Definition summerLog : Log :=
  [(Info, MsgLoadingAlbum "Summer"); (Debug, MsgFoundLinks 2 "Summer")].

(** Two links of one folder to the same directory: the album is collected
    twice, under the two names. *)
Definition twice_disk : FileSystem :=
  mkFileSystem
    (λ path, if bool_decide (path = "/photos") then Some [dir ".A1"; link "Summer"; link "Sommer"]
             else if bool_decide (path = "/photos/.A1") then Some []
             else None)
    (λ path, if bool_decide (path = "/photos/Summer") then Some ".A1"
             else if bool_decide (path = "/photos/Sommer") then Some ".A1"
             else None).
Definition twiceSummer : Album := newAlbum "A1" ALBUM "Summer" "" "/photos/.A1".
Definition twiceSommer : Album := newAlbum "A1" ALBUM "Sommer" "" "/photos/.A1".
Definition twiceLog : Log :=
  [(Info, MsgLoadingAlbum ""); (Debug, MsgFoundLinks 2 "");
   (Info, MsgLoadingAlbum "Summer"); (Debug, MsgFoundLinks 0 "Summer");
   (Info, MsgLoadingAlbum "Sommer"); (Debug, MsgFoundLinks 0 "Sommer")].

Definition twiceLibrary : gmap string Album := {["A1" := twiceSommer]}.

End EdgeDisks.

(** ** [loadAssets] of lib/photos-library/photos-library.ts *)

Module AssetLoader.

Inductive LogMsg :=
| MsgLoadedAsset (displayName : string).

Definition Log := list (Level * LogMsg).

(** What [loadAssets] can throw: a rejected [readdir], a throwing
    [statSync], or what [Asset.fromFile] throws for a file. *)
Inductive Exn :=
| FsError (syscall path : string)
| FromFileError (fileName : string).

Abbreviation AM := (Eff.M Log Exn).

Definition log (lvl : Level) (msg : LogMsg) : AM unit :=
  Eff.modify (λ lg, lg ++ [(lvl, msg)]).

(** [path.format({dir, base})]: without a [root], the directory and the
    base joined by a separator, or the base alone if there is no
    directory.  Nothing is normalized. *)
Definition format (dir base : string) : string :=
  if bool_decide (dir = "") then base else dir +:+ "/" +:+ base.

Section Assets.
(** [Asset] (model/asset.ts) and [fs.Stats] are not part of the sources:
    the loader is embedded for any asset type with the methods of
    [PEntity], any [Asset.fromFile] ([None]: it throws) and any [statSync]
    ([None]: it throws). *)
Context {Asset Stats : Type} `{PhotosLibrary.PEntity Asset Asset}.
Context (fromFile : string → Stats → option Asset).
Context (fs : PhotosLibrary.FileSystem) (statSync : string → option Stats).

(** [fs.readdir(dir)], without file types: the names of the entries. *)
Definition fs_readdir (path : string) : AM (list string) :=
  match PhotosLibrary.readdir fs path with
  | Some entries => mret (PhotosLibrary.name <$> entries)
  | None => Eff.throw (FsError "scandir" path)
  end.

Definition fs_statSync (path : string) : AM Stats :=
  match statSync path with
  | Some fileStat => mret fileStat
  | None => Eff.throw (FsError "stat" path)
  end.

Definition Asset_fromFile (fileName : string) (fileStat : Stats) : AM Asset :=
  match fromFile fileName fileStat with
  | Some asset => mret asset
  | None => Eff.throw (FromFileError fileName)
  end.

(** The body of the [forEach] of [loadAssets]. *)
Definition forEachFile (assetDir : string) (libAssets : gmap string Asset) (fileName : string)
  : AM (gmap string Asset) :=
  fileStat ← fs_statSync (format assetDir fileName);
  asset ← Asset_fromFile fileName fileStat;
  log Debug (MsgLoadedAsset (PhotosLibrary.getDisplayName asset));;
  mret (<[PhotosLibrary.getUUID asset := asset]> libAssets).

Definition loadAssets (assetDir : string) : AM (gmap string Asset) :=
  fileNames ← fs_readdir assetDir;
  Eff.forOf (forEachFile assetDir) fileNames ∅.

(** The file [fileName] of [assetDir] is read as [asset]. *)
Definition readsAs (assetDir fileName : string) (asset : Asset) : Prop :=
  ∃ fileStat, statSync (format assetDir fileName) = Some fileStat
              ∧ fromFile fileName fileStat = Some asset.

(** The file [fileName] of [assetDir] cannot be read: [t] is thrown. *)
Definition failsWith (assetDir fileName : string) (t : Exn) : Prop :=
  (statSync (format assetDir fileName) = None
   ∧ t = FsError "stat" (format assetDir fileName))
  ∨ (∃ fileStat, statSync (format assetDir fileName) = Some fileStat
                 ∧ fromFile fileName fileStat = None
                 ∧ t = FromFileError fileName).

Definition loadedLine (asset : Asset) : Level * LogMsg :=
  (Debug, MsgLoadedAsset (PhotosLibrary.getDisplayName asset)).

(** The assets stored one after the other, each under its UUID. *)
Definition store (lib : gmap string Asset) (assets : list Asset) : gmap string Asset :=
  foldl (λ m a, <[PhotosLibrary.getUUID a := a]> m) lib assets.

End Assets.

End AssetLoader.

(** An asset directory with two files of one base name, a directory and a
    link whose target is gone.  The sample asset takes its UUID from the
    file name without its extension. *)
Module AssetSamples.
Import PhotosLibrary.

Record Stats := mkStats { size : Z; mtimeMs : Z }.

Record Asset := mkAsset {
  assetUUID : string;
  assetFile : string;
  assetSize : Z;
}.

#[export] Instance Asset_PEntity : PEntity Asset Asset := {|
  getUUID := assetUUID;
  getDisplayName := assetFile;
  equal := λ a b, bool_decide (assetUUID a = assetUUID b) && bool_decide (assetSize a = assetSize b);
  unpack := id;
|}.

Definition fromFile (fileName : string) (fileStat : Stats) : option Asset :=
  Some (mkAsset (Path.parse_name fileName) fileName (size fileStat)).

Definition assetEntries : list Dirent :=
  [mkDirent "Aa1.jpeg" DtFile; mkDirent "Bb2.mov" DtFile; mkDirent "Aa1.heic" DtFile;
   mkDirent "old" DtDirectory].

Definition asset_disk : FileSystem :=
  mkFileSystem (λ p, if bool_decide (p = "/data/all") then Some assetEntries
                     else if bool_decide (p = "/data/gone") then Some [mkDirent "Cc3.jpeg" DtFile; mkDirent "lost.jpeg" DtSymbolicLink; mkDirent "Dd4.jpeg" DtFile]
                     else None)
               (λ _, None).

Definition statSync (p : string) : option Stats :=
  if bool_decide (p = "/data/all/Aa1.jpeg") then Some (mkStats 100 1)
  else if bool_decide (p = "/data/all/Bb2.mov") then Some (mkStats 200 2)
  else if bool_decide (p = "/data/all/Aa1.heic") then Some (mkStats 300 3)
  else if bool_decide (p = "/data/all/old") then Some (mkStats 4096 4)
  else if bool_decide (p = "/data/gone/Cc3.jpeg") then Some (mkStats 500 5)
  else if bool_decide (p = "/data/gone/Dd4.jpeg") then Some (mkStats 600 6)
  else None.

Definition loadedAssets : list Asset :=
  [mkAsset "Aa1" "Aa1.jpeg" 100; mkAsset "Bb2" "Bb2.mov" 200; mkAsset "Aa1" "Aa1.heic" 300;
   mkAsset "old" "old" 4096].

Definition assetLibrary : gmap string Asset :=
  <["old" := mkAsset "old" "old" 4096]>
    (<["Aa1" := mkAsset "Aa1" "Aa1.heic" 300]>
       (<["Bb2" := mkAsset "Bb2" "Bb2.mov" 200]> ∅)).

Definition assetLog : AssetLoader.Log :=
  AssetLoader.loadedLine <$> loadedAssets.

End AssetSamples.

(** ** The indexing check of the class iCloudPhotos

    [checkingIndexingStatus] and [performQuery].  A promise chain
    [p.then(f).catch(g)] is run to its end: [f] on the value [p] resolves
    with, [g] on what [p] rejects with or [f] throws. *)

Module ICloudPhotos.

(** *** The values a response carries *)

(** A number is a double; a string is read character by character, which
    agrees with JavaScript on ASCII. *)
#[warnings="-register-all"]
Inductive JSVal :=
| JUndefined
| JNull
| JBool (b : bool)
| JNum (x : PrimFloat.float)
| JStr (s : string)
| JArr (items : list JSVal)
| JObj (props : gmap string JSVal).

(** [if (v)]: false for [undefined], [null], [false], [0], [-0], [NaN] and
    the empty string. *)
Definition truthy (v : JSVal) : bool :=
  match v with
  | JUndefined | JNull => false
  | JBool b => b
  | JNum x => negb (PrimFloat.eqb x 0%float || negb (PrimFloat.eqb x x))
  | JStr s => negb (bool_decide (s = ""))
  | JArr _ | JObj _ => true
  end.

(** [v === s] for a string literal [s]. *)
Definition strictEqualsString (v : JSVal) (s : string) : bool :=
  match v with
  | JStr t => bool_decide (t = s)
  | _ => false
  end.

(** [v.k], for a name [k] that no prototype defines (as are [records],
    [fields], [state], [progress] and [value]); [None] is the [TypeError]
    of reading a property of [undefined] or [null]. *)
Definition get (k : string) (v : JSVal) : option JSVal :=
  match v with
  | JUndefined | JNull => None
  | JObj props => Some (default JUndefined (props !! k))
  | _ => Some JUndefined
  end.

(** [v[0]]. *)
Definition get0 (v : JSVal) : option JSVal :=
  match v with
  | JUndefined | JNull => None
  | JObj props => Some (default JUndefined (props !! "0"))
  | JArr items => Some (default JUndefined (head items))
  | JStr (String c _) => Some (JStr (String c ""))
  | _ => Some JUndefined
  end.

(** [data.records[0].fields.<field>.value]. *)
Definition fieldValue (field : string) (data : JSVal) : option JSVal :=
  records ← get "records" data;
  record ← get0 records;
  fields ← get "fields" record;
  entry ← get field fields;
  get "value" entry.

(** *** Events and log lines *)

Inductive JSError :=
| TypeError
| OtherError (reason : string).

(** The payload of an ERROR event, by the template it is built from. *)
Inductive ErrorMsg :=
| MsgUnableToGetIndexingState (data : JSVal)
| MsgUnknownState (state data : JSVal)
| MsgUnexpectedQueryError (recordType : string) (err : JSError)
| MsgValidationFailed.

Inductive Event :=
| SETUP_COMPLETE
| READY
| INDEX_IN_PROGRESS (progress : JSVal)
| ERROR (msg : ErrorMsg).

Inductive LogMsg :=
| MsgCheckingIndexingStatus
| MsgIndexingFinished.

Inductive Obs :=
| Emitted (ev : Event)
| Logged (lvl : Level) (msg : LogMsg).

(** How a call that starts a promise chain can fail: it throws while it
    runs, or the chain ends in a rejection that nothing handles. *)
Inductive Failure :=
| Synchronous (e : JSError)
| UnhandledRejection (e : JSError).

Section Photos.
Context {W : Type}.

Record State := mkState {
  world : W;
  trace : list Obs;
}.

(** What the class calls and is not part of the sources, on a world [W]:
    [iCloudAuth.validatePhotosAccount]; [axios.post] of the query for a
    record type, with the headers, endpoint and zone of the account
    ([inr data]: it resolves with a response of that [data]; [inl err]: it
    rejects); and the listeners others have registered for an event
    ([Some e]: one of them throws [e], which [emit] lets through). *)
Record Collaborators := mkCollaborators {
  validatePhotosAccount : W → bool * W;
  axios_post : string → W → (JSError + JSVal) * W;
  listeners : Event → W → option JSError * W;
}.

Context (C : Collaborators).

Abbreviation PM := (Eff.M State JSError).

Definition observed (obs : list Obs) (s : State) : State :=
  mkState (world s) (trace s ++ obs).

Definition log (lvl : Level) (msg : LogMsg) : PM unit :=
  Eff.modify (observed [Logged lvl msg]).

(** [this.emit(ev, ...)]: the listeners run before [emit] returns. *)
Definition emit (ev : Event) : PM unit :=
  λ s, let s1 := observed [Emitted ev] s in
       match listeners C ev (world s1) with
       | (None, w) => (Eff.Ok tt, mkState w (trace s1))
       | (Some e, w) => (Eff.Throw e, mkState w (trace s1))
       end.

Definition validate : PM bool :=
  λ s, let '(valid, w) := validatePhotosAccount C (world s) in
       (Eff.Ok valid, mkState w (trace s)).

Definition post (recordType : string) : PM JSVal :=
  λ s, match axios_post C recordType (world s) with
       | (inr data, w) => (Eff.Ok data, mkState w (trace s))
       | (inl err, w) => (Eff.Throw err, mkState w (trace s))
       end.

Definition read (v : option JSVal) : PM JSVal :=
  match v with
  | Some v => mret v
  | None => Eff.throw TypeError
  end.

(** [p.catch(handler)]. *)
Definition catch {A} (p : PM A) (handler : JSError → PM A) : PM A :=
  λ s, match p s with
       | (Eff.Throw err, s') => handler err s'
       | r => r
       end.

Definition failing {A} (how : JSError → Failure) (m : PM A) : Eff.M State Failure A :=
  λ s, match m s with
       | (Eff.Ok a, s') => (Eff.Ok a, s')
       | (Eff.Throw e, s') => (Eff.Throw (how e), s')
       | (Eff.OutOfFuel, s') => (Eff.OutOfFuel, s')
       end.

Definition performQuery (recordType : string) (callback : JSVal → PM unit)
  : Eff.M State Failure unit :=
  valid ← failing Synchronous validate;
  if (valid : bool) then
    failing UnhandledRejection
      (catch (post recordType ≫= callback)
             (λ err, emit (ERROR (MsgUnexpectedQueryError recordType err))))
  else
    failing Synchronous (emit (ERROR MsgValidationFailed)).

(** The callback [checkingIndexingStatus] hands to [performQuery], on the
    [data] of the response. *)
Definition indexingCallback (data : JSVal) : PM unit :=
  state ← read (fieldValue "state" data);
  if negb (truthy state) then
    emit (ERROR (MsgUnableToGetIndexingState data))
  else if strictEqualsString state "FINISHED" then
    log Info MsgIndexingFinished;;
    emit READY
  else
    progress ← read (fieldValue "progress" data);
    if truthy progress then emit (INDEX_IN_PROGRESS progress)
    else emit (ERROR (MsgUnknownState state data)).

Definition checkingIndexingStatus : Eff.M State Failure unit :=
  failing Synchronous (log Debug MsgCheckingIndexingStatus);;
  performQuery "CheckIndexingState" indexingCallback.

(** The event the callback reports a response with, branch by branch
    ([None]: it throws the [TypeError] before it emits). *)
Definition indexingEvent (data : JSVal) : option Event :=
  state ← fieldValue "state" data;
  if negb (truthy state) then Some (ERROR (MsgUnableToGetIndexingState data))
  else if strictEqualsString state "FINISHED" then Some READY
  else
    progress ← fieldValue "progress" data;
    if truthy progress then Some (INDEX_IN_PROGRESS progress)
    else Some (ERROR (MsgUnknownState state data)).

(** The events of a trace, and the events a call adds to it. *)
Definition events (obs : list Obs) : list Event :=
  omap (λ o, match o with Emitted ev => Some ev | Logged _ _ => None end) obs.

Definition emittedBy {E A} (m : Eff.M State E A) (s : State) : list Event :=
  events (drop (length (trace s)) (trace (m s).2)).

End Photos.

Arguments State : clear implicits.
Arguments Collaborators : clear implicits.

End ICloudPhotos.

(** Responses to the indexing query, and an account whose world says what
    the collaborators answer. *)
Module IndexingSamples.
Import ICloudPhotos.

Definition record (fields : gmap string JSVal) : JSVal :=
  JObj {["records" := JArr [JObj {["fields" := JObj fields]}]]}.
Definition valueOf (v : JSVal) : JSVal := JObj {["value" := v]}.

Definition finishedData : JSVal :=
  record {["state" := valueOf (JStr "FINISHED")]}.
Definition runningData : JSVal :=
  record (<["progress" := valueOf (JNum 42%float)]> {["state" := valueOf (JStr "RUNNING")]}).
Definition stalledData : JSVal :=
  record (<["progress" := valueOf (JNum 0%float)]> {["state" := valueOf (JStr "RUNNING")]}).
Definition noProgressData : JSVal :=
  record {["state" := valueOf (JStr "RUNNING")]}.
Definition noRecordsData : JSVal :=
  JObj {["records" := JArr []]}.

Record World := mkWorld {
  accountValid : bool;
  response : JSError + JSVal;
}.

(** No listener throws. *)
Definition collaborators : Collaborators World := {|
  validatePhotosAccount := λ w, (accountValid w, w);
  axios_post := λ _ w, (response w, w);
  listeners := λ _ w, (None, w);
|}.

(** The listener for READY throws. *)
Definition throwing : Collaborators World := {|
  validatePhotosAccount := λ w, (accountValid w, w);
  axios_post := λ _ w, (response w, w);
  listeners := λ ev w,
    match ev with
    | READY => (Some (OtherError "listener"), w)
    | _ => (None, w)
    end;
|}.

Definition answering (data : JSVal) : State World :=
  mkState (mkWorld true (inr data)) [].

Definition invalidAccount : State World :=
  mkState (mkWorld false (inr finishedData)) [].

End IndexingSamples.

(** A run of the scripted world in which the first write fails with a bad
    response and the second attempt completes, and a run that ends on a
    full disk. *)
Module SyncRuns.
Import SyncEngine SyncSamples.

Definition started : State World :=
  observed [Logged Info MsgStartingSync; Emitted START] run0.
Definition retried : State World := (syncAttempt collaborators (0 + 1) started).2.
Definition fetched : State World := (fetchAndLoadState collaborators (attemptStarted (1 + 1) retried)).2.
Definition diffed : State World := (diffState collaborators ["a1"; "a2"] ["F1"] ∅ ∅ fetched).2.
Definition written : State World :=
  (writeState collaborators ([], ["a1"; "a2"], []) ([], ["F1"], []) diffed).2.
Definition finished : State World :=
  observed [Logged Info MsgCompletedSync; Emitted DONE] written.

Definition fullDisk : State World := start [] [] [Some badRequest; Some diskFull].
Definition fullDiskEnd : State World := (sync collaborators 5 fullDisk).2.

End SyncRuns.

(** * Properties *)

(** ** The differ *)

Section DifferFacts.
Import PhotosLibrary.
Context {E T : Type} `{PEntity E T}.
Implicit Types (R : list E) (L : gmap string T) (st : DiffState T) (r : E) (l : T) (k : string).

Lemma matched_true R k l :
  matched R k l = true ↔ ∃ r, r ∈ R ∧ getUUID r = k ∧ equal r l = true.
Proof.
  unfold matched. rewrite existsb_exists. split.
  - intros (r & Hin & Hm). exists r. apply list_elem_of_In in Hin.
    unfold matches in Hm. apply andb_true_iff in Hm as [Hk ?].
    apply bool_decide_eq_true in Hk. done.
  - intros (r & Hin & Hk & Heq). exists r. split; [by apply list_elem_of_In|].
    unfold matches. rewrite Heq, andb_true_r. by apply bool_decide_eq_true.
Qed.

Lemma matched_false R k l :
  matched R k l = false ↔ ∀ r, r ∈ R → getUUID r = k → equal r l = false.
Proof.
  rewrite <- not_true_iff_false, matched_true. split.
  - intros Hno r Hin Hk. destruct (equal r l) eqn:Heq; [|done].
    exfalso. apply Hno. eauto.
  - intros Hall (r & Hin & Hk & Heq). rewrite (Hall r Hin Hk) in Heq. done.
Qed.

(** One step of the loop either deletes the entry under the entity's UUID
    (when it is there and equal) or leaves the dictionary as it is. *)
Lemma forEachRemote_local st r k :
  localEntities (forEachRemote st r) !! k =
    match localEntities st !! k with
    | Some l => if matches k l r then None else Some l
    | None => None
    end.
Proof.
  unfold forEachRemote, matches.
  destruct (localEntities st !! getUUID r) as [l0|] eqn:Hl0.
  - destruct (equal r l0) eqn:Heq; simpl.
    + destruct (decide (getUUID r = k)) as [<-|Hne].
      * rewrite lookup_delete_eq, Hl0, bool_decide_eq_true_2, Heq by done. done.
      * rewrite lookup_delete_ne by done.
        destruct (localEntities st !! k); [|done].
        by rewrite bool_decide_eq_false_2.
    + destruct (localEntities st !! k) as [l|] eqn:Hl; [|done].
      case_bool_decide as Hk; [|done]. subst k.
      rewrite Hl0 in Hl. injection Hl as <-. by rewrite Heq.
  - simpl. destruct (localEntities st !! k) as [l|] eqn:Hl; [|done].
    case_bool_decide as Hk; [|done]. subst k. congruence.
Qed.

(** The dictionary after the whole loop: an entry survives exactly when no
    remote entity matched it. *)
Lemma foldl_forEachRemote_local R st k :
  localEntities (foldl forEachRemote st R) !! k =
    match localEntities st !! k with
    | Some l => if matched R k l then None else Some l
    | None => None
    end.
Proof.
  revert st. induction R as [|r R IH]; intros st; simpl.
  - by destruct (localEntities st !! k).
  - rewrite IH, forEachRemote_local.
    destruct (localEntities st !! k) as [l|]; [|done].
    unfold matched. simpl. by destruct (matches k l r).
Qed.

Lemma localAfter_lookup R L lg k :
  localAfter (getProcessingQueues R L lg) !! k =
    match L !! k with
    | Some l => if matched R k l then None else Some l
    | None => None
    end.
Proof. unfold getProcessingQueues. simpl. by rewrite foldl_forEachRemote_local. Qed.

Lemma localAfter_filter R L lg :
  localAfter (getProcessingQueues R L lg) = filter (λ kl, matched R kl.1 kl.2 = false) L.
Proof.
  apply map_eq. intros k. rewrite localAfter_lookup, map_lookup_filter.
  destruct (L !! k) as [l|]; [|done]. simpl.
  destruct (matched R k l) eqn:Hm.
  - by rewrite option_guard_False.
  - by rewrite option_guard_True.
Qed.

Lemma toDelete_values R L lg :
  toDelete (getProcessingQueues R L lg) = Object_values (localAfter (getProcessingQueues R L lg)).
Proof. reflexivity. Qed.

Lemma elem_of_Object_values (o : gmap string T) l :
  l ∈ Object_values o ↔ ∃ k, o !! k = Some l.
Proof.
  unfold Object_values. rewrite list_elem_of_fmap. split.
  - intros ([k l'] & -> & Hin). exists k. by apply elem_of_map_to_list in Hin.
  - intros (k & Hk). exists (k, l). split; [done|]. by apply elem_of_map_to_list.
Qed.

Lemma elem_of_toDelete R L lg l :
  l ∈ toDelete (getProcessingQueues R L lg) ↔
  ∃ k, L !! k = Some l ∧ matched R k l = false.
Proof.
  rewrite toDelete_values, elem_of_Object_values. split.
  - intros (k & Hk). exists k. rewrite localAfter_lookup in Hk.
    destruct (L !! k) as [l'|]; [|done].
    destruct (matched R k l') eqn:Hm; [done|]. by injection Hk as ->.
  - intros (k & Hk & Hm). exists k. by rewrite localAfter_lookup, Hk, Hm.
Qed.

Lemma filter_ext_elem {A} (P Q : A → Prop) `{!∀ x, Decision (P x)} `{!∀ x, Decision (Q x)}
    (xs : list A) :
  (∀ x, x ∈ xs → P x ↔ Q x) → filter P xs = filter Q xs.
Proof.
  induction xs as [|x xs IH]; intros Hext; [done|].
  rewrite !filter_cons.
  rewrite IH by (intros y Hy; apply Hext; by right).
  destruct (decide (P x)) as [HP|HP], (decide (Q x)) as [HQ|HQ]; try done.
  - exfalso. apply HQ, Hext; [by left|done].
  - exfalso. apply HP, Hext; [by left|done].
Qed.

(** The additions.  An entity is added when it finds no equal entry under
    its UUID in the dictionary as the loop has left it so far. *)
Lemma forEachRemote_toBeAdded st r :
  toBeAdded (forEachRemote st r) =
    toBeAdded st ++ (if unmatchedIn (localEntities st) r then [unpack r] else []).
Proof.
  unfold forEachRemote, unmatchedIn.
  destruct (localEntities st !! getUUID r) as [l|]; simpl.
  - destruct (equal r l); simpl; [by rewrite app_nil_r | done].
  - done.
Qed.

Lemma forEachRemote_lookup_ne st r k :
  getUUID r ≠ k → localEntities (forEachRemote st r) !! k = localEntities st !! k.
Proof.
  intros Hne. rewrite forEachRemote_local.
  destruct (localEntities st !! k); [|done].
  unfold matches. by rewrite bool_decide_eq_false_2.
Qed.

Lemma foldl_forEachRemote_toBeAdded R st :
  NoDup (getUUID <$> R) →
  toBeAdded (foldl forEachRemote st R) =
    toBeAdded st ++ (unpack <$> filter (λ r, unmatchedIn (localEntities st) r = true) R).
Proof.
  revert st. induction R as [|r R IH]; intros st Hnd; simpl.
  - by rewrite app_nil_r.
  - rewrite fmap_cons in Hnd. apply NoDup_cons in Hnd as [Hr Hnd].
    rewrite IH, forEachRemote_toBeAdded by done.
    rewrite <- app_assoc. f_equal.
    rewrite filter_cons.
    assert (filter (λ r0, unmatchedIn (localEntities (forEachRemote st r)) r0 = true) R
            = filter (λ r0, unmatchedIn (localEntities st) r0 = true) R) as ->.
    { apply filter_ext_elem. intros r0 Hr0. unfold unmatchedIn.
      rewrite forEachRemote_lookup_ne; [done|].
      intros Heq. apply Hr. rewrite Heq. by apply list_elem_of_fmap_2. }
    destruct (unmatchedIn (localEntities st) r) eqn:Hu.
    + by rewrite decide_True.
    + by rewrite decide_False.
Qed.

End DifferFacts.

(** ** The claims about the differ *)

Section DifferClaims.
Import PhotosLibrary.
Context {E T : Type} `{PEntity E T}.
Implicit Types (R : list E) (L : gmap string T) (r : E) (l : T) (k : string).

Lemma NoDup_fmap_elem_inj {A B} (f : A → B) (xs : list A) (x y : A) :
  NoDup (f <$> xs) → x ∈ xs → y ∈ xs → f x = f y → x = y.
Proof.
  induction xs as [|a xs IH]; [by inversion 2|].
  rewrite fmap_cons. intros [Ha Hnd]%NoDup_cons Hx Hy Hf.
  apply elem_of_cons in Hx as [->|Hx]; apply elem_of_cons in Hy as [->|Hy]; try done.
  - exfalso. apply Ha. rewrite Hf. by apply list_elem_of_fmap_2.
  - exfalso. apply Ha. rewrite <- Hf. by apply list_elem_of_fmap_2.
  - by apply IH.
Qed.

Lemma toAdd_NoDup R L lg :
  NoDup (getUUID <$> R) →
  toAdd (getProcessingQueues R L lg) = spec_toAdd R L.
Proof.
  intros Hnd. unfold toAdd, getProcessingQueues, spec_toAdd. simpl.
  by rewrite foldl_forEachRemote_toBeAdded.
Qed.

Lemma changed_in_both R L lg r l :
  NoDup (getUUID <$> R) → r ∈ R → L !! getUUID r = Some l → equal r l = false →
  unpack r ∈ toAdd (getProcessingQueues R L lg) ∧ l ∈ toDelete (getProcessingQueues R L lg).
Proof.
  intros Hnd Hr Hl Heq. split.
  - rewrite toAdd_NoDup by done. unfold spec_toAdd.
    apply list_elem_of_fmap_2, list_elem_of_filter. split; [|done].
    unfold unmatchedIn. by rewrite Hl, Heq.
  - apply elem_of_toDelete. exists (getUUID r). split; [done|].
    apply matched_false. intros r' Hr' Hk.
    by rewrite (NoDup_fmap_elem_inj getUUID R r' r Hnd Hr' Hr Hk).
Qed.

(** C1 (amended).  For a remote list with pairwise distinct UUIDs, the
    differ returns the pair (toDelete, toAdd) where toAdd holds, in the
    order of the remote list, exactly the remote entities that find no
    equal entry under their UUID in the local dictionary; toDelete holds
    exactly the local entries that no remote entity of the same UUID
    equals; an entry that is matched is removed from the dictionary and
    put in no queue (there is no toKeep); and a changed entity (same UUID,
    unequal) is in both toAdd and toDelete. *)
Theorem getProcessingQueues_queues R L lg :
  NoDup (getUUID <$> R) →
  toAdd (getProcessingQueues R L lg) = unpack <$> filter (λ r, unmatchedIn L r = true) R
  ∧ (∀ l, l ∈ toDelete (getProcessingQueues R L lg) ↔
          ∃ k, L !! k = Some l ∧ ∀ r, r ∈ R → getUUID r = k → equal r l = false)
  ∧ (∀ r l, r ∈ R → L !! getUUID r = Some l → equal r l = true →
            localAfter (getProcessingQueues R L lg) !! getUUID r = None)
  ∧ (∀ r l, r ∈ R → L !! getUUID r = Some l → equal r l = false →
            unpack r ∈ toAdd (getProcessingQueues R L lg)
            ∧ l ∈ toDelete (getProcessingQueues R L lg)).
Proof.
  intros Hnd. split; [|split; [|split]].
  - by apply toAdd_NoDup.
  - intros l. rewrite elem_of_toDelete. split.
    + intros (k & Hk & Hm). exists k. split; [done|]. by apply matched_false.
    + intros (k & Hk & Hm). exists k. split; [done|]. by apply matched_false.
  - intros r l Hr Hl Heq. rewrite localAfter_lookup, Hl.
    assert (matched R (getUUID r) l = true) as ->; [|done].
    apply matched_true. eauto.
  - intros r l Hr Hl Heq. by apply changed_in_both.
Qed.

(** The queues and the dictionary left behind do not depend on the log. *)
Lemma foldl_forEachRemote_log_irrelevant R (st st' : DiffState T) :
  localEntities st = localEntities st' → toBeAdded st = toBeAdded st' →
  localEntities (foldl forEachRemote st R) = localEntities (foldl forEachRemote st' R)
  ∧ toBeAdded (foldl forEachRemote st R) = toBeAdded (foldl forEachRemote st' R).
Proof.
  revert st st'. induction R as [|r R IH]; intros st st' HL HA; [done|].
  simpl. apply IH.
  - unfold forEachRemote. rewrite HL.
    by destruct (localEntities st' !! getUUID r) as [l|]; [destruct (equal r l)|].
  - unfold forEachRemote. rewrite HL, HA.
    by destruct (localEntities st' !! getUUID r) as [l|]; [destruct (equal r l)|].
Qed.

Lemma getProcessingQueues_log_irrelevant R L lg lg' :
  queues (getProcessingQueues R L lg) = queues (getProcessingQueues R L lg')
  ∧ localAfter (getProcessingQueues R L lg) = localAfter (getProcessingQueues R L lg').
Proof.
  unfold getProcessingQueues. simpl.
  destruct (foldl_forEachRemote_log_irrelevant R
              (mkDiffState L [] (lg ++ [(Debug, MsgGettingQueues)]))
              (mkDiffState L [] (lg' ++ [(Debug, MsgGettingQueues)])) eq_refl eq_refl)
    as [-> ->].
  done.
Qed.

(** When no remote entity equals the entry under its UUID, the loop deletes
    nothing and adds every remote entity. *)
Lemma foldl_forEachRemote_all_added R (st : DiffState T) :
  (∀ r l, r ∈ R → localEntities st !! getUUID r = Some l → equal r l = false) →
  localEntities (foldl forEachRemote st R) = localEntities st
  ∧ toBeAdded (foldl forEachRemote st R) = toBeAdded st ++ (unpack <$> R).
Proof.
  revert st. induction R as [|r R IH]; intros st Hne; simpl.
  - by rewrite app_nil_r.
  - assert (forEachRemote st r =
            mkDiffState (localEntities st) (toBeAdded st ++ [unpack r])
              (logger st ++ [(Debug, MsgAddingEntity (getDisplayName r))])) as ->.
    { unfold forEachRemote.
      destruct (localEntities st !! getUUID r) as [l|] eqn:Hl; [|done].
      by rewrite (Hne r l) by (done || by left). }
    destruct (IH (mkDiffState (localEntities st) (toBeAdded st ++ [unpack r])
                    (logger st ++ [(Debug, MsgAddingEntity (getDisplayName r))]))) as [-> ->].
    + intros r' l Hr'. apply Hne. by right.
    + simpl. by rewrite <- app_assoc.
Qed.

(** C2 (amended).  The differ works on the dictionary it is given, not on
    a copy: when it returns, every entry that some remote entity matched
    has been deleted from the argument and all other entries are as they
    were, so that the argument holds exactly the entries returned as
    toDelete.  The queues and the dictionary left behind are determined by
    the remote list and the dictionary as they were at the call (the log
    plays no part).  A second call with the same dictionary object
    therefore sees the reduced dictionary: it deletes nothing more, returns
    the same toDelete, and adds every remote entity. *)
Theorem getProcessingQueues_mutates_argument R L lg :
  localAfter (getProcessingQueues R L lg) = filter (λ kl, matched R kl.1 kl.2 = false) L
  ∧ toDelete (getProcessingQueues R L lg) = Object_values (localAfter (getProcessingQueues R L lg))
  ∧ (∀ lg', queues (getProcessingQueues R L lg') = queues (getProcessingQueues R L lg)
            ∧ localAfter (getProcessingQueues R L lg') = localAfter (getProcessingQueues R L lg))
  ∧ (∀ lg', localAfter (getProcessingQueues R (localAfter (getProcessingQueues R L lg)) lg')
            = localAfter (getProcessingQueues R L lg)
            ∧ toDelete (getProcessingQueues R (localAfter (getProcessingQueues R L lg)) lg')
              = toDelete (getProcessingQueues R L lg)
            ∧ toAdd (getProcessingQueues R (localAfter (getProcessingQueues R L lg)) lg')
              = unpack <$> R).
Proof.
  split; [|split; [|split]].
  - apply localAfter_filter.
  - apply toDelete_values.
  - intros lg'. apply getProcessingQueues_log_irrelevant.
  - intros lg'.
    destruct (foldl_forEachRemote_all_added R
                (mkDiffState (localAfter (getProcessingQueues R L lg)) []
                   (lg' ++ [(Debug, MsgGettingQueues)]))) as [HL HA].
    { intros r l Hr Hl.
      change (localAfter (getProcessingQueues R L lg) !! getUUID r = Some l) in Hl.
      rewrite localAfter_lookup in Hl.
      destruct (L !! getUUID r) as [l'|]; [|done].
      destruct (matched R (getUUID r) l') eqn:Hm; [done|].
      injection Hl as ->. by apply (proj1 (matched_false R (getUUID r) l) Hm). }
    assert (localAfter (getProcessingQueues R (localAfter (getProcessingQueues R L lg)) lg')
            = localAfter (getProcessingQueues R L lg)) as Hsame by exact HL.
    split; [done|]. split.
    + by rewrite !toDelete_values, Hsame.
    + exact HA.
Qed.

(** The differ's share of idempotence: against a local dictionary that
    mirrors the remote list (an equal entry under the UUID of each remote
    entity, and no other entry), nothing is to be added or deleted. *)
Lemma getProcessingQueues_in_sync R L lg :
  NoDup (getUUID <$> R) →
  (∀ r, r ∈ R → ∃ l, L !! getUUID r = Some l ∧ equal r l = true) →
  (∀ k l, L !! k = Some l → ∃ r, r ∈ R ∧ getUUID r = k) →
  queues (getProcessingQueues R L lg) = ([], []).
Proof.
  intros Hnd Hmirror Honly.
  assert (toAdd (getProcessingQueues R L lg) = []) as Hadd.
  { rewrite toAdd_NoDup by done. unfold spec_toAdd.
    assert (filter (λ r, unmatchedIn L r = true) R = []) as ->; [|done].
    apply elem_of_nil_inv. intros r [Hun Hr]%list_elem_of_filter.
    destruct (Hmirror r Hr) as (l & Hl & Heq).
    unfold unmatchedIn in Hun. by rewrite Hl, Heq in Hun. }
  assert (localAfter (getProcessingQueues R L lg) = ∅) as Hempty.
  { apply map_eq. intros k. rewrite localAfter_lookup, lookup_empty.
    destruct (L !! k) as [l|] eqn:Hk; [|done].
    destruct (Honly k l Hk) as (r & Hr & <-).
    destruct (Hmirror r Hr) as (l' & Hl' & Heq).
    rewrite Hk in Hl'. injection Hl' as <-.
    assert (matched R (getUUID r) l = true) as ->; [|done].
    apply matched_true. eauto. }
  assert (toDelete (getProcessingQueues R L lg) = []) as Hdel.
  { rewrite toDelete_values, Hempty. unfold Object_values. by rewrite map_to_list_empty. }
  unfold toAdd in Hadd. unfold toDelete in Hdel.
  destruct (queues (getProcessingQueues R L lg)) as [d a]. simpl in *. by subst.
Qed.

End DifferClaims.

(** ** The differ on the sample library *)

Section DifferSamples.
Import PhotosLibrary Samples.

Example sample_queues :
  toAdd (getProcessingQueues remoteAlbums localAlbums []) = [trip_remote; winter_remote]
  ∧ toDelete (getProcessingQueues remoteAlbums localAlbums [])
    ≡ₚ [trip_local; winter_local; stale_local].
Proof.
  split; [by vm_compute|].
  assert (toDelete (getProcessingQueues remoteAlbums localAlbums [])
          = [stale_local; winter_local; trip_local]) as -> by (by vm_compute).
  etrans; [apply Permutation_swap|]. symmetry.
  exact (Permutation_cons_append [winter_local; stale_local] trip_local).
Qed.

Lemma remoteAlbums_NoDup : NoDup (getUUID <$> remoteAlbums).
Proof. apply (bool_decide_unpack _). vm_compute. exact I. Defined.

(** The sample library is an instance of the statement on the queues. *)
Lemma getProcessingQueues_queues_witness :
  NoDup (getUUID <$> remoteAlbums)
  ∧ toAdd (getProcessingQueues remoteAlbums localAlbums [])
    = unpack <$> filter (λ r, unmatchedIn localAlbums r = true) remoteAlbums
  ∧ (∀ l, l ∈ toDelete (getProcessingQueues remoteAlbums localAlbums []) ↔
          ∃ k, localAlbums !! k = Some l
               ∧ ∀ r, r ∈ remoteAlbums → getUUID r = k → equal r l = false)
  ∧ (∀ r l, r ∈ remoteAlbums → localAlbums !! getUUID r = Some l → equal r l = true →
            localAfter (getProcessingQueues remoteAlbums localAlbums []) !! getUUID r = None)
  ∧ (∀ r l, r ∈ remoteAlbums → localAlbums !! getUUID r = Some l → equal r l = false →
            unpack r ∈ toAdd (getProcessingQueues remoteAlbums localAlbums [])
            ∧ l ∈ toDelete (getProcessingQueues remoteAlbums localAlbums [])).
Proof.
  split; [exact remoteAlbums_NoDup|].
  exact (getProcessingQueues_queues remoteAlbums localAlbums [] remoteAlbums_NoDup).
Defined.

(** C1, as stated, fails when two remote entities carry the same UUID: the
    first one is matched and its local entry deleted, so the second one
    finds no entry and is added, although the dictionary the differ was
    given holds an equal entry under its UUID.  (Any entity that equals
    itself will do for [summer].) *)
Lemma getProcessingQueues_duplicate_uuid :
  toAdd (getProcessingQueues [summer; summer] onlySummer []) = [summer]
  ∧ spec_toAdd [summer; summer] onlySummer = []
  ∧ toAdd (getProcessingQueues [summer; summer] onlySummer [])
    ≠ spec_toAdd [summer; summer] onlySummer.
Proof. vm_compute. repeat split. discriminate. Qed.

(** C2, as stated, fails: the argument dictionary is not left unchanged,
    and a second call on the same dictionary does not return the queues of
    the first. *)
Lemma getProcessingQueues_changes_argument :
  localAfter (getProcessingQueues [summer] onlySummer []) ≠ onlySummer
  ∧ queues (getProcessingQueues [summer] onlySummer []) = ([], [])
  ∧ queues (getProcessingQueues [summer]
              (localAfter (getProcessingQueues [summer] onlySummer [])) []) = ([], [summer]).
Proof.
  split; [|by vm_compute].
  intros Heq. apply (f_equal (λ m : gmap string Album, m !! "A1")) in Heq.
  vm_compute in Heq. discriminate.
Qed.

Lemma Album_equal_kind (a b : Album) :
  albumType a ≠ albumType b → Album_equal a b = false.
Proof. intros Hne. unfold Album_equal. by rewrite bool_decide_eq_false_2. Qed.

End DifferSamples.

(** ** Reasoning about effectful code *)

Section EffFacts.
Context {S E : Type}.

Lemma bind_unfold {A B} (m : Eff.M S E A) (k : A → Eff.M S E B) (s : S) :
  (m ≫= k) s = match m s with
               | (Eff.Ok a, s') => k a s'
               | (Eff.Throw e, s') => (Eff.Throw e, s')
               | (Eff.OutOfFuel, s') => (Eff.OutOfFuel, s')
               end.
Proof. reflexivity. Qed.

Lemma bind_Ok {A B} (m : Eff.M S E A) (k : A → Eff.M S E B) (s s' : S) (b : B) :
  (m ≫= k) s = (Eff.Ok b, s') ↔ ∃ a s1, m s = (Eff.Ok a, s1) ∧ k a s1 = (Eff.Ok b, s').
Proof.
  rewrite bind_unfold. split.
  - destruct (m s) as [[a|e|] s1]; [eauto | done | done].
  - intros (a & s1 & -> & Hk). done.
Qed.

(** An invariant of the accumulator of a loop holds when the loop ends
    normally, if every pass that ends normally preserves it. *)
Lemma forOf_invariant {A B} (I : B → Prop) (body : B → A → Eff.M S E B) (xs : list A) :
  (∀ acc x s acc' s', x ∈ xs → I acc → body acc x s = (Eff.Ok acc', s') → I acc') →
  ∀ acc s res s', I acc → Eff.forOf body xs acc s = (Eff.Ok res, s') → I res.
Proof.
  induction xs as [|x xs IH]; intros Hbody acc s res s' Hacc Hrun; simpl in Hrun.
  - by injection Hrun as <- _.
  - unfold Eff.bind in Hrun.
    destruct (body acc x s) as [[acc1|e|] s1] eqn:Hstep; [|done|done].
    eapply IH; [| |exact Hrun].
    + intros ??????. apply Hbody. by right.
    + eapply Hbody; [by left|done|done].
Qed.

(** Every pass of a loop that ends normally ended normally. *)
Lemma forOf_pass {A B} (body : B → A → Eff.M S E B) (xs : list A) (x : A) :
  x ∈ xs →
  ∀ acc s res s', Eff.forOf body xs acc s = (Eff.Ok res, s') →
  ∃ pre post acc1 s1 acc2 s2,
    xs = pre ++ x :: post
    ∧ Eff.forOf body pre acc s = (Eff.Ok acc1, s1)
    ∧ body acc1 x s1 = (Eff.Ok acc2, s2)
    ∧ Eff.forOf body post acc2 s2 = (Eff.Ok res, s').
Proof.
  induction xs as [|y xs IH]; [by inversion 1|].
  intros Hx acc s res s' Hrun. simpl in Hrun. unfold Eff.bind in Hrun.
  destruct (body acc y s) as [[acc1|e|] s1] eqn:Hstep; [|done|done].
  apply elem_of_cons in Hx as [->|Hx].
  - exists [], xs, acc, s, acc1, s1. done.
  - destruct (IH Hx _ _ _ _ Hrun) as (pre & post & a1 & t1 & a2 & t2 & -> & Hpre & Hb & Hpost).
    exists (y :: pre), post, a1, t1, a2, t2. repeat split; try done.
    simpl. unfold Eff.bind. by rewrite Hstep.
Qed.

End EffFacts.

(** ** The loader *)

Section LoaderFacts.
Import PhotosLibrary.
Implicit Types (fs : FileSystem) (album : Album) (lg : Log) (entries : list Dirent).

Lemma existsb_isDirectory entries : existsb isDirectory entries = true ↔ hasDirectory entries.
Proof.
  rewrite existsb_exists. unfold hasDirectory, isDirectory.
  split; intros (d & Hd & Ht); exists d.
  - apply list_elem_of_In in Hd. by apply bool_decide_eq_true in Ht.
  - split; [by apply list_elem_of_In | by apply bool_decide_eq_true].
Qed.

Lemma existsb_isFile entries : existsb isFile entries = true ↔ hasFile entries.
Proof.
  rewrite existsb_exists. unfold hasFile, isFile.
  split; intros (d & Hd & Ht); exists d.
  - apply list_elem_of_In in Hd. by apply bool_decide_eq_true in Ht.
  - split; [by apply list_elem_of_In | by apply bool_decide_eq_true].
Qed.

Lemma readAlbumTypeFromPath_run fs path entries lg :
  readdir fs path = Some entries →
  readAlbumTypeFromPath fs path lg =
    (Eff.Ok (if existsb isDirectory entries then FOLDER
             else if existsb isFile entries then ARCHIVED else ALBUM),
     if existsb isDirectory entries && existsb isFile entries
     then lg ++ [(Warn, MsgExtraneousFile path)] else lg).
Proof.
  intros Hdir. unfold readAlbumTypeFromPath, fs_readdir, log. rewrite Hdir.
  eff_unfold. by destruct (existsb isDirectory entries), (existsb isFile entries).
Qed.

(** C6.  A directory that can be listed is classified as FOLDER exactly
    when it has a subdirectory (with a warning logged exactly when it also
    has a regular file), as ARCHIVED exactly when it has no subdirectory
    but a regular file, and as ALBUM exactly when it has neither. *)
Theorem readAlbumTypeFromPath_classifies fs path entries lg :
  readdir fs path = Some entries →
  ∃ t lg',
    readAlbumTypeFromPath fs path lg = (Eff.Ok t, lg')
    ∧ (t = FOLDER ↔ hasDirectory entries)
    ∧ (t = ARCHIVED ↔ ¬ hasDirectory entries ∧ hasFile entries)
    ∧ (t = ALBUM ↔ ¬ hasDirectory entries ∧ ¬ hasFile entries)
    ∧ (hasDirectory entries ∧ hasFile entries → lg' = lg ++ [(Warn, MsgExtraneousFile path)])
    ∧ (¬ (hasDirectory entries ∧ hasFile entries) → lg' = lg).
Proof.
  intros Hdir. eexists _, _. split; [by apply readAlbumTypeFromPath_run|].
  rewrite <- existsb_isDirectory, <- existsb_isFile.
  destruct (existsb isDirectory entries), (existsb isFile entries); simpl;
    repeat split; try done; try (intros []; done); try (intros Hno; exfalso; by apply Hno).
Qed.

(** *** What [loadAlbum] collects *)

Lemma fs_readdir_Ok fs path lg entries lg' :
  fs_readdir fs path lg = (Eff.Ok entries, lg') ↔ readdir fs path = Some entries ∧ lg' = lg.
Proof.
  unfold fs_readdir. destruct (readdir fs path) as [es|]; eff_unfold; split.
  - by intros [= -> ->].
  - by intros [[= ->] ->].
  - done.
  - by intros [? _].
Qed.

Lemma fs_readlink_Ok fs path lg target lg' :
  fs_readlink fs path lg = (Eff.Ok target, lg') ↔ readlink fs path = Some target ∧ lg' = lg.
Proof.
  unfold fs_readlink. destruct (readlink fs path) as [t|]; eff_unfold; split.
  - by intros [= -> ->].
  - by intros [[= ->] ->].
  - done.
  - by intros [? _].
Qed.

Lemma sameAlbum_setAsset a b assetUUID fileName :
  sameAlbum a b → sameAlbum (setAsset a assetUUID fileName) b.
Proof. by intros (? & ? & ? & ? & ?). Qed.

(** What one pass over a link does to the array, case by case. *)
Lemma loadLink_Ok fs recurse album albums link lg res lg' :
  loadLink fs recurse album albums link lg = (Eff.Ok res, lg') →
  ∃ target, readlink fs (Path.join (albumPath album) (name link)) = Some target ∧
    match albumType album with
    | FOLDER =>
        ∃ folderType lg1 loaded,
          readAlbumTypeFromPath fs (Path.join (albumPath album) target) lg = (Eff.Ok folderType, lg1)
          ∧ recurse (newAlbum (Path.substring1 (Path.basename target)) folderType (name link)
                              (uuid album) (Path.join (albumPath album) target)) lg1
            = (Eff.Ok loaded, lg')
          ∧ res = albums ++ loaded
    | ALBUM =>
        ∃ first others,
          albums = first :: others
          ∧ res = setAsset first (Path.parse_name target) (name link) :: others
    | ARCHIVED => res = albums
    end.
Proof.
  unfold loadLink. intros Hrun.
  apply bind_Ok in Hrun as (target & lg0 & [Htarget ->]%fs_readlink_Ok & Hrun).
  exists target. split; [done|].
  destruct (albumType album).
  - apply bind_Ok in Hrun as (folderType & lg1 & Htype & Hrun).
    apply bind_Ok in Hrun as (loaded & lg2 & Hrec & Hrun).
    injection Hrun as <- <-. by exists folderType, lg1, loaded.
  - destruct albums as [|first others]; [done|].
    injection Hrun as <- <-. by exists first, others.
  - apply bind_Ok in Hrun as ([] & lg1 & _ & Hrun). by injection Hrun as <- _.
Qed.

Lemma loadLink_hasUUID fs recurse album albums link lg res lg' :
  (∀ a lg1 loaded lg2, recurse a lg1 = (Eff.Ok loaded, lg2) → Forall hasUUID loaded) →
  Forall hasUUID albums →
  loadLink fs recurse album albums link lg = (Eff.Ok res, lg') →
  Forall hasUUID res.
Proof.
  intros Hrec Halbums (target & _ & Hcase)%loadLink_Ok.
  destruct (albumType album).
  - destruct Hcase as (folderType & lg1 & loaded & _ & Hloaded & ->).
    apply Forall_app. split; [done|]. by eapply Hrec.
  - destruct Hcase as (first & others & -> & ->).
    apply Forall_cons in Halbums as [Hfirst Hothers]. by apply Forall_cons.
  - by subst res.
Qed.

Lemma loadAlbum_Ok fuel fs album lg res lg' :
  loadAlbum (S fuel) fs album lg = (Eff.Ok res, lg') →
  ∃ entries,
    readdir fs (albumPath album) = Some entries
    ∧ Eff.forOf (loadLink fs (loadAlbum fuel fs) album)
        (filter (λ file, isSymbolicLink file = true) entries)
        (if 0 <? String.length (uuid album) then [album] else [])
        (lg ++ [(Info, MsgLoadingAlbum (albumName album))]
            ++ [(Debug, MsgFoundLinks (length (filter (λ file, isSymbolicLink file = true) entries))
                                      (albumName album))])
      = (Eff.Ok res, lg').
Proof.
  simpl. intros Hrun.
  apply bind_Ok in Hrun as ([] & lg1 & [= <-] & Hrun).
  apply bind_Ok in Hrun as (entries & lg2 & [Hentries ->]%fs_readdir_Ok & Hrun).
  apply bind_Ok in Hrun as ([] & lg3 & [= <-] & Hrun).
  exists entries. split; [done|]. by rewrite <- app_assoc in Hrun.
Qed.

(** Every album [loadAlbum] returns has a UUID that is not empty. *)
Lemma loadAlbum_hasUUID fuel fs album lg res lg' :
  loadAlbum fuel fs album lg = (Eff.Ok res, lg') → Forall hasUUID res.
Proof.
  revert album lg res lg'. induction fuel as [|fuel IH]; intros album lg res lg' Hrun; [done|].
  apply loadAlbum_Ok in Hrun as (entries & _ & Hloop).
  eapply (forOf_invariant (Forall hasUUID)); [| |exact Hloop].
  - intros acc x s acc' s' _ Hacc Hpass. eapply loadLink_hasUUID; [|done|done].
    intros a lg1 loaded lg2. apply IH.
  - destruct (uuid album) as [|c u] eqn:Huuid; simpl; [done|].
    apply Forall_singleton. unfold hasUUID. by rewrite Huuid.
Qed.

Lemma foldl_insert_lookup (albums : list Album) (lib : gmap string Album) k a :
  foldl (λ libAlbums album, <[uuid album := album]> libAlbums) lib albums !! k = Some a →
  lib !! k = Some a ∨ (a ∈ albums ∧ uuid a = k).
Proof.
  revert lib. induction albums as [|b albums IH]; intros lib Hk; simpl in Hk; [by left|].
  apply IH in Hk as [Hk|[Hin Hu]].
  - destruct (decide (uuid b = k)) as [<-|Hne].
    + rewrite lookup_insert_eq in Hk. injection Hk as <-. right. split; [by left|done].
    + rewrite lookup_insert_ne in Hk by done. by left.
  - right. split; [by right|done].
Qed.

(** C10.  The dictionary [loadAlbums] returns holds nothing under the root
    album's UUID, and every album in it is stored under its own UUID, which
    is not empty. *)
Theorem loadAlbums_excludes_root fuel fs photoDataDir lg libAlbums lg' :
  loadAlbums fuel fs photoDataDir lg = (Eff.Ok libAlbums, lg') →
  libAlbums !! uuid (getRootAlbum photoDataDir) = None
  ∧ ∀ k album, libAlbums !! k = Some album → uuid album = k ∧ uuid album ≠ "".
Proof.
  unfold loadAlbums. intros Hrun.
  apply bind_Ok in Hrun as (albums & lg1 & Hload & Hrun). injection Hrun as <- <-.
  apply loadAlbum_hasUUID in Hload.
  assert (∀ k album,
            foldl (λ libAlbums album, <[uuid album := album]> libAlbums)
                  (∅ : gmap string Album) albums !! k = Some album →
            uuid album = k ∧ uuid album ≠ "") as Hall.
  { intros k album [Hk|[Hin Hk]]%foldl_insert_lookup; [done|].
    split; [done|]. by apply (proj1 (Forall_forall _ _) Hload). }
  split; [|done].
  destruct (foldl _ ∅ albums !! uuid (getRootAlbum photoDataDir)) as [a|] eqn:Hroot; [|done].
  apply Hall in Hroot as [Hk Hne]. by rewrite Hk in Hne.
Qed.

(** *** The UUID of a loaded album *)

(** An album with a UUID is the first one of what loading it returns. *)
Lemma loadAlbum_first fuel fs album lg res lg' :
  loadAlbum fuel fs album lg = (Eff.Ok res, lg') → hasUUID album →
  ∃ first others, res = first :: others ∧ sameAlbum first album.
Proof.
  destruct fuel as [|fuel]; [done|]. intros (entries & _ & Hloop)%loadAlbum_Ok Huuid.
  eapply (forOf_invariant (λ acc, ∃ first others, acc = first :: others ∧ sameAlbum first album));
    [| |exact Hloop].
  - intros acc link s acc' s' _ (first & others & -> & Hsame) (target & _ & Hcase)%loadLink_Ok.
    destruct (albumType album).
    + destruct Hcase as (folderType & lg1 & loaded & _ & _ & ->).
      by exists first, (others ++ loaded).
    + destruct Hcase as (first' & others' & [= <- <-] & ->).
      eexists _, _. split; [done|]. by apply sameAlbum_setAsset.
    + subst acc'. by exists first, others.
  - unfold hasUUID in Huuid. destruct (uuid album) as [|c u] eqn:Hu; [done|]. simpl.
    exists album, []. done.
Qed.

(** While a folder is loaded, an album once collected stays collected. *)
Lemma loadLink_folder_keeps fs recurse album links (a : Album) acc lg res lg' :
  albumType album = FOLDER →
  Eff.forOf (loadLink fs recurse album) links acc lg = (Eff.Ok res, lg') →
  a ∈ acc → a ∈ res.
Proof.
  intros Hfolder Hloop Ha.
  eapply (forOf_invariant (λ acc, a ∈ acc)); [| exact Ha | exact Hloop].
  intros acc0 link s acc' s' _ Hin (target & _ & Hcase)%loadLink_Ok.
  rewrite Hfolder in Hcase. destruct Hcase as (folderType & lg1 & loaded & _ & _ & ->).
  apply elem_of_app. by left.
Qed.

(** C7 (amended).  The UUID of an album found in a folder is the whole base
    name of its link's target without the first character: whatever follows
    a [-] in the name is part of it.  The album is collected under that
    UUID, with the link's name as display name. *)
Theorem loadAlbum_child_uuid fuel fs album lg albums lg' entries link target :
  loadAlbum fuel fs album lg = (Eff.Ok albums, lg') →
  albumType album = FOLDER →
  readdir fs (albumPath album) = Some entries →
  link ∈ entries → isSymbolicLink link = true →
  readlink fs (Path.join (albumPath album) (name link)) = Some target →
  Path.substring1 (Path.basename target) ≠ "" →
  ∃ child, child ∈ albums
    ∧ uuid child = Path.substring1 (Path.basename target)
    ∧ albumName child = name link
    ∧ parentAlbumUUID child = uuid album
    ∧ albumPath child = Path.join (albumPath album) target.
Proof.
  intros Hrun Hfolder Hentries Hlink Hsym Htarget Hne.
  destruct fuel as [|fuel]; [done|].
  apply loadAlbum_Ok in Hrun as (entries' & Hentries' & Hloop).
  rewrite Hentries in Hentries'. injection Hentries' as <-.
  assert (link ∈ filter (λ file, isSymbolicLink file = true) entries) as Hin
    by (by apply list_elem_of_filter).
  destruct (forOf_pass _ _ _ Hin _ _ _ _ Hloop)
    as (pre & post & acc1 & lg1 & acc2 & lg2 & _ & _ & Hpass & Hpost).
  apply loadLink_Ok in Hpass as (target' & Htarget' & Hcase).
  rewrite Htarget in Htarget'. injection Htarget' as <-.
  rewrite Hfolder in Hcase. destruct Hcase as (folderType & lg3 & loaded & _ & Hchild & ->).
  apply loadAlbum_first in Hchild as (child & others & -> & Hsame); [|done].
  exists child. split.
  - eapply loadLink_folder_keeps; [done|exact Hpost|].
    apply elem_of_app. right. by left.
  - by destruct Hsame as (-> & _ & -> & -> & ->).
Qed.

(** The UUID the loader recovers and the one the specification describes
    agree on a name whose remainder holds no [-]. *)
Lemma spec_uuidOfDirName_agrees dirName :
  Path.contains (λ c, bool_decide (c = "-"%char)) (Path.substring1 dirName) = false →
  spec_uuidOfDirName dirName = Path.substring1 dirName.
Proof.
  unfold spec_uuidOfDirName. generalize (Path.substring1 dirName) as rest.
  induction rest as [|c rest IH]; simpl; [done|].
  intros [Hc Hrest]%orb_false_iff. rewrite Hc. simpl. by rewrite IH.
Qed.

(** *** Fuel *)

(** More fuel does not change an outcome that less fuel has reached. *)
Lemma forOf_settled {S E A B} (body body' : B → A → Eff.M S E B) (xs : list A) :
  (∀ acc x s r s', body acc x s = (r, s') → r ≠ Eff.OutOfFuel → body' acc x s = (r, s')) →
  ∀ acc s r s', Eff.forOf body xs acc s = (r, s') → r ≠ Eff.OutOfFuel →
                Eff.forOf body' xs acc s = (r, s').
Proof.
  intros Hbody. induction xs as [|x xs IH]; intros acc s r s' Hrun Hr; simpl in *; [done|].
  unfold Eff.bind in *.
  destruct (body acc x s) as [[acc1|e|] s1] eqn:Hstep.
  - rewrite (Hbody _ _ _ _ _ Hstep) by done. by apply IH.
  - rewrite (Hbody _ _ _ _ _ Hstep) by done. done.
  - by injection Hrun as <- _.
Qed.

Lemma loadLink_settled fs (recurse recurse' : Album → Eff.M Log Exn (list Album)) album :
  (∀ a lg r lg', recurse a lg = (r, lg') → r ≠ Eff.OutOfFuel → recurse' a lg = (r, lg')) →
  ∀ albums link lg r lg',
    loadLink fs recurse album albums link lg = (r, lg') → r ≠ Eff.OutOfFuel →
    loadLink fs recurse' album albums link lg = (r, lg').
Proof.
  intros Hrec albums link lg r lg'. unfold loadLink. rewrite !bind_unfold.
  destruct (fs_readlink fs _ lg) as [[target|e|] lg0]; [|done|done].
  destruct (albumType album); [|done|done].
  rewrite !bind_unfold.
  destruct (readAlbumTypeFromPath fs _ lg0) as [[folderType|e|] lg1]; [|done|done].
  rewrite !bind_unfold.
  destruct (recurse _ lg1) as [[loaded|e|] lg2] eqn:Hload; intros Hrun Hr.
  - by rewrite (Hrec _ _ _ _ Hload).
  - by rewrite (Hrec _ _ _ _ Hload).
  - by injection Hrun as <- _.
Qed.

Lemma loadAlbum_fuel_S fuel fs album lg r lg' :
  loadAlbum fuel fs album lg = (r, lg') → r ≠ Eff.OutOfFuel →
  loadAlbum (S fuel) fs album lg = (r, lg').
Proof.
  revert album lg r lg'. induction fuel as [|fuel IH]; intros album lg r lg' Hrun Hr.
  { by injection Hrun as <- _. }
  revert Hrun. simpl. rewrite !bind_unfold.
  destruct (log Info _ lg) as [[[]|e|] lg0]; [|done|done].
  rewrite !bind_unfold.
  destruct (fs_readdir fs _ lg0) as [[entries|e|] lg1]; [|done|done].
  rewrite !bind_unfold.
  destruct (log Debug _ lg1) as [[[]|e|] lg2]; [|done|done].
  intros Hrun. eapply forOf_settled; [|exact Hrun|done].
  intros acc x s r0 s0. apply loadLink_settled. intros a lg3 r1 lg4. apply IH.
Qed.

Lemma loadAlbum_fuel_le fuel fuel' fs album lg r lg' :
  fuel ≤ fuel' →
  loadAlbum fuel fs album lg = (r, lg') → r ≠ Eff.OutOfFuel →
  loadAlbum fuel' fs album lg = (r, lg').
Proof.
  induction 1 as [|fuel' Hle IH]; [done|].
  intros Hrun Hr. apply loadAlbum_fuel_S; [by apply IH|done].
Qed.

End LoaderFacts.

(** ** The loader on the sample disk *)

Section LoaderSamples.
Import PhotosLibrary Samples.

Example loadAlbum_disk :
  loadAlbum 5 disk (getRootAlbum "/photos") [] = (Eff.Ok loadedList, loadLog).
Proof. vm_compute. reflexivity. Qed.

Lemma loadAlbums_disk :
  loadAlbums 5 disk "/photos" [] = (Eff.Ok loadedAlbums, loadLog).
Proof. vm_compute. reflexivity. Defined.

(** The loader need not return: on [loop_disk] it runs out of any fuel. *)
Example loadAlbum_loop_disk fuel displayName lg :
  (loadAlbum fuel loop_disk (newAlbum "" FOLDER displayName "" "/loop") lg).1 = Eff.OutOfFuel.
Proof.
  revert displayName lg. induction fuel as [|fuel IH]; intros displayName lg; [done|].
  simpl. eff_unfold. simpl. unfold loadLink at 1. simpl. eff_unfold. simpl.
  change (Path.join "/loop" ".") with "/loop".
  match goal with |- context [loadAlbum fuel loop_disk (newAlbum "" FOLDER ?n "" "/loop") ?l] =>
    specialize (IH n l);
    destruct (loadAlbum fuel loop_disk (newAlbum "" FOLDER n "" "/loop") l) as [[?|?|] ?]
  end; done.
Qed.

(** The folder "Trip" of the sample disk holds an album and a stray file. *)
Lemma readAlbumTypeFromPath_classifies_witness :
  readdir disk "/photos/.F1" = Some tripEntries
  ∧ ∃ t lg',
      readAlbumTypeFromPath disk "/photos/.F1" [] = (Eff.Ok t, lg')
      ∧ (t = FOLDER ↔ hasDirectory tripEntries)
      ∧ (t = ARCHIVED ↔ ¬ hasDirectory tripEntries ∧ hasFile tripEntries)
      ∧ (t = ALBUM ↔ ¬ hasDirectory tripEntries ∧ ¬ hasFile tripEntries)
      ∧ (hasDirectory tripEntries ∧ hasFile tripEntries
         → lg' = [] ++ [(Warn, MsgExtraneousFile "/photos/.F1")])
      ∧ (¬ (hasDirectory tripEntries ∧ hasFile tripEntries) → lg' = []).
Proof.
  assert (readdir disk "/photos/.F1" = Some tripEntries) as Hdir by (vm_compute; reflexivity).
  split; [exact Hdir|].
  exact (readAlbumTypeFromPath_classifies disk "/photos/.F1" tripEntries [] Hdir).
Defined.

Example readAlbumTypeFromPath_samples :
  readAlbumTypeFromPath disk "/photos/.F1" [] = (Eff.Ok FOLDER, [(Warn, MsgExtraneousFile "/photos/.F1")])
  ∧ readAlbumTypeFromPath disk "/photos/.F2" [] = (Eff.Ok ARCHIVED, [])
  ∧ readAlbumTypeFromPath disk "/photos/.A1" [] = (Eff.Ok ALBUM, [])
  ∧ readAlbumTypeFromPath disk "/photos/.abc-My Album" [] = (Eff.Ok ALBUM, [])
  ∧ readAlbumTypeFromPath disk "/photos/missing" [] = (Eff.Throw (FsError "scandir" "/photos/missing"), []).
Proof. vm_compute. done. Qed.

(** The sample disk loads five albums; none is stored under the empty UUID. *)
Lemma loadAlbums_excludes_root_witness :
  loadAlbums 5 disk "/photos" [] = (Eff.Ok loadedAlbums, loadLog)
  ∧ loadedAlbums !! uuid (getRootAlbum "/photos") = None
  ∧ ∀ k album, loadedAlbums !! k = Some album → uuid album = k ∧ uuid album ≠ "".
Proof.
  split; [exact loadAlbums_disk|].
  exact (loadAlbums_excludes_root 5 disk "/photos" [] loadedAlbums loadLog loadAlbums_disk).
Defined.

(** The link "My Album" of the sample disk and the album it leads to. *)
Lemma loadAlbum_child_uuid_witness :
  loadAlbum 5 disk (getRootAlbum "/photos") [] = (Eff.Ok loadedList, loadLog)
  ∧ albumType (getRootAlbum "/photos") = FOLDER
  ∧ readdir disk (albumPath (getRootAlbum "/photos")) = Some rootEntries
  ∧ link "My Album" ∈ rootEntries
  ∧ isSymbolicLink (link "My Album") = true
  ∧ readlink disk (Path.join (albumPath (getRootAlbum "/photos")) (name (link "My Album")))
    = Some ".abc-My Album"
  ∧ Path.substring1 (Path.basename ".abc-My Album") ≠ ""
  ∧ ∃ child, child ∈ loadedList
      ∧ uuid child = Path.substring1 (Path.basename ".abc-My Album")
      ∧ albumName child = name (link "My Album")
      ∧ parentAlbumUUID child = uuid (getRootAlbum "/photos")
      ∧ albumPath child = Path.join (albumPath (getRootAlbum "/photos")) ".abc-My Album".
Proof.
  assert (loadAlbum 5 disk (getRootAlbum "/photos") [] = (Eff.Ok loadedList, loadLog)) as Hrun
    by (vm_compute; reflexivity).
  assert (readdir disk (albumPath (getRootAlbum "/photos")) = Some rootEntries) as Hdir
    by (vm_compute; reflexivity).
  assert (link "My Album" ∈ rootEntries) as Hin by (do 8 right; left).
  assert (readlink disk (Path.join (albumPath (getRootAlbum "/photos")) (name (link "My Album")))
          = Some ".abc-My Album") as Hlink by (vm_compute; reflexivity).
  assert (Path.substring1 (Path.basename ".abc-My Album") ≠ "") as Hne
    by (vm_compute; discriminate).
  split; [exact Hrun|]. split; [reflexivity|]. split; [exact Hdir|]. split; [exact Hin|].
  split; [reflexivity|]. split; [exact Hlink|]. split; [exact Hne|].
  exact (loadAlbum_child_uuid 5 disk (getRootAlbum "/photos") [] loadedList loadLog rootEntries
           (link "My Album") ".abc-My Album" Hrun eq_refl Hdir Hin eq_refl Hlink Hne).
Defined.

(** C7, as stated, fails: the directory [.abc-My Album] has the form
    [.{UUID}-{safeName}] with UUID [abc], but the album is loaded under the
    UUID [abc-My Album]; nothing is loaded under [abc]. *)
Lemma loadAlbums_uuid_counterexample :
  spec_uuidOfDirName ".abc-My Album" = "abc"
  ∧ ∃ libAlbums lg',
      loadAlbums 5 disk "/photos" [] = (Eff.Ok libAlbums, lg')
      ∧ libAlbums !! spec_uuidOfDirName ".abc-My Album" = None
      ∧ ∃ album, libAlbums !! "abc-My Album" = Some album
                 ∧ albumPath album = "/photos/.abc-My Album"
                 ∧ uuid album ≠ spec_uuidOfDirName (Path.basename (albumPath album)).
Proof.
  split; [reflexivity|]. exists loadedAlbums, loadLog.
  split; [exact loadAlbums_disk|]. split; [by vm_compute|].
  exists loadedMyAlbum. split; [by vm_compute|]. split; [reflexivity|].
  vm_compute. discriminate.
Qed.

End LoaderSamples.

(** ** Loading and diffing together *)

Section ReloadFacts.
Import PhotosLibrary.

(** A remote FOLDER whose local directory holds no subdirectory is not
    loaded as a FOLDER; with the kind in the fingerprint of albums, the
    differ then queues it both for deletion and for addition. *)
Lemma childless_folder_is_readded fs (R : list Album) (L : gmap string Album) lg lg0 lg1
    (r l : Album) entries :
  NoDup (getUUID <$> R) → r ∈ R → L !! getUUID r = Some l →
  albumType r = FOLDER →
  readdir fs (albumPath l) = Some entries → ¬ hasDirectory entries →
  readAlbumTypeFromPath fs (albumPath l) lg0 = (Eff.Ok (albumType l), lg1) →
  r ∈ toAdd (getProcessingQueues R L lg) ∧ l ∈ toDelete (getProcessingQueues R L lg).
Proof.
  intros Hnd Hr Hl Hfolder Hdir Hnone Htype.
  rewrite (readAlbumTypeFromPath_run fs _ entries lg0 Hdir) in Htype.
  destruct (existsb isDirectory entries) eqn:Hd.
  { exfalso. by apply Hnone, existsb_isDirectory. }
  apply (changed_in_both R L lg r l Hnd Hr Hl).
  apply Album_equal_kind. rewrite Hfolder.
  injection Htype as Ht _. rewrite <- Ht. by destruct (existsb isFile entries).
Qed.

End ReloadFacts.

(** ** The sync engine *)

Section SyncFacts.
Import SyncEngine.
Context {W Asset Album CPLAsset CPLMaster CPLAlbum : Type}.
Context (C : Collaborators W Asset Album CPLAsset CPLMaster CPLAlbum).
Implicit Types (s : State W) (e : JSError) (maxRetry retryCount : Z).

(** One test of the loop condition and, if it holds, one pass through the
    body. *)
Lemma syncLoop_step maxRetry retryCount s :
  syncLoop C maxRetry retryCount s =
    if decide (maxRetry > retryCount)%Z then
      match syncAttempt C (retryCount + 1) s with
      | (Eff.Ok (Return v), s') => (Eff.Ok v, s')
      | (Eff.Ok Continue, s') => syncLoop C maxRetry (retryCount + 1) s'
      | (Eff.Throw t, s') => (Eff.Throw t, s')
      | (Eff.OutOfFuel, s') => (Eff.OutOfFuel, s')
      end
    else (Eff.Throw (Raised (mkICPSError MAX_RETRY [pretty retryCount] None)), s).
Proof.
  rewrite syncLoop_equation_1.
  destruct (decide (maxRetry > retryCount)%Z) as [Hgt|Hle]; simpl; [|done].
  by destruct (syncAttempt C (retryCount + 1) s) as [[[v|]|t|] s'].
Qed.

Lemma syncLoop_exhausted maxRetry retryCount s :
  (maxRetry ≤ retryCount)%Z →
  syncLoop C maxRetry retryCount s
  = (Eff.Throw (Raised (mkICPSError MAX_RETRY [pretty retryCount] None)), s).
Proof. intros Hle. rewrite syncLoop_step. by rewrite decide_False by lia. Qed.

Lemma syncLoop_retries n maxRetry retryCount s s' :
  Retries C n retryCount s s' → (retryCount + Z.of_nat n ≤ maxRetry)%Z →
  syncLoop C maxRetry retryCount s = syncLoop C maxRetry (retryCount + Z.of_nat n) s'.
Proof.
  induction 1 as [retryCount s|n retryCount s s1 s' Hattempt Hrest IH]; intros Hle.
  - by rewrite Z.add_0_r.
  - rewrite syncLoop_step, decide_True, Hattempt by lia.
    rewrite IH by lia. f_equal. lia.
Qed.

(** *** [checkFatalError] *)

Lemma checkFatalError_run e s :
  checkFatalError e s =
    if bool_decide (code e = Some "ERR_BAD_RESPONSE") then
      (Eff.Ok false, observed [Logged Debug (MsgBadResponse (status e))] s)
    else if bool_decide (code e = Some "ERR_BAD_REQUEST") then
      (Eff.Ok false, observed [Logged Debug (MsgBadRequest (status e))] s)
    else if bool_decide (code e = Some "EAI_AGAIN") then
      (Eff.Ok false, observed [Logged Debug MsgDnsExpired] s)
    else (Eff.Throw (Raised (mkICPSError UNKNOWN_SYNC [] (Some e))), s).
Proof. unfold checkFatalError, log. by repeat case_bool_decide. Qed.

(** C5.  [checkFatalError] returns exactly for the errors whose code is
    ERR_BAD_RESPONSE, ERR_BAD_REQUEST or EAI_AGAIN; what it returns is
    [false], never [true]; for every other error it throws the unknown-sync
    error with that error as its cause. *)
Theorem checkFatalError_recoverable e s :
  ((∃ b s', checkFatalError e s = (Eff.Ok b, s')) ↔ recoverableCode e)
  ∧ (∀ b s', checkFatalError e s = (Eff.Ok b, s') → b = false)
  ∧ (¬ recoverableCode e →
     checkFatalError e s = (Eff.Throw (Raised (mkICPSError UNKNOWN_SYNC [] (Some e))), s)).
Proof.
  rewrite checkFatalError_run. unfold recoverableCode.
  repeat case_bool_decide.
  4: { split; [split|split].
       - by intros (b & s' & [=]).
       - intros [|[|]]; done.
       - by intros b s' [=].
       - done. }
  all: split; [split; [intros _; tauto | intros _; eauto]|].
  all: split; [by intros b s' [= <- _] | intros Hno; exfalso; apply Hno; tauto].
Qed.

(** *** One attempt, phase by phase *)



Lemma syncAttempt_write_throws retryCount s ra ral la lal s1 aq alq s2 e s3 s4 s5 :
  fetchAndLoadState C (observed [Logged Info (MsgPerformingSync retryCount)] s)
  = (Eff.Ok (ra, ral, la, lal), s1) →
  diffState C ra ral la lal s1 = (Eff.Ok (aq, alq), s2) →
  writeState C aq alq s2 = (Eff.Throw e, s3) →
  checkFatalError e s3 = (Eff.Ok false, s4) →
  prepareRetry C (observed [Logged Info (MsgRecoverableError (message e)); Emitted (RETRY retryCount)] s4)
  = (Eff.Ok (), s5) →
  syncAttempt C retryCount s = (Eff.Ok Continue, s5).
Proof.
  intros Hfetch Hdiff Hwrite Hcheck Hprepare.
  unfold syncAttempt, tryCatch, log, emit, lift. eff_unfold.
  rewrite Hfetch, Hdiff, Hwrite, Hcheck.
  assert (observed [Emitted (RETRY retryCount)] (observed [Logged Info (MsgRecoverableError (message e))] s4)
          = observed [Logged Info (MsgRecoverableError (message e)); Emitted (RETRY retryCount)] s4) as ->.
  { unfold observed. simpl. by rewrite <- app_assoc. }
  by rewrite Hprepare.
Qed.

(** [prepareRetry] does to the world what the specification asks for,
    logs its lines, and awaits the session. *)
Lemma prepareRetry_refines s :
  prepareRetry C s
  = lift (icloud_ready C)
         (mkState (spec_retryPrepared C (world s)) (trace s ++ prepareRetry_lines C (world s))).
Proof.
  unfold prepareRetry, prepareRetry_lines, spec_retryPrepared, spec_settled, spec_cleared,
    log, onWorld, observed.
  eff_unfold. simpl.
  destruct (downloadQueue C (world s)) as [q|] eqn:Hq; simpl.
  - destruct (bool_decide (size q > 0)%Z); simpl.
    + destruct (downloadQueue C (downloadQueue_clear C (world s))) as [q'|]; simpl.
      * destruct (bool_decide (pending q' > 0)%Z); simpl; by rewrite <- ?app_assoc.
      * by rewrite <- ?app_assoc.
    + rewrite Hq. simpl.
      destruct (bool_decide (pending q > 0)%Z); simpl; by rewrite <- ?app_assoc.
  - rewrite Hq. by rewrite <- ?app_assoc.
Qed.

(** An attempt whose write throws a recoverable error announces the retry,
    prepares it, and ends as awaiting the session ends. *)
Lemma syncAttempt_write_recoverable retryCount s ra ral la lal s1 aq alq s2 e s3 s4 :
  fetchAndLoadState C (attemptStarted retryCount s) = (Eff.Ok (ra, ral, la, lal), s1) →
  diffState C ra ral la lal s1 = (Eff.Ok (aq, alq), s2) →
  writeState C aq alq s2 = (Eff.Throw e, s3) →
  checkFatalError e s3 = (Eff.Ok false, s4) →
  syncAttempt C retryCount s
  = match icloud_ready C (awaitingSession C retryCount e s4) with
    | (Eff.Ok _, s5) => (Eff.Ok Continue, s5)
    | (Eff.Throw e', s5) => (Eff.Throw (Foreign e'), s5)
    | (Eff.OutOfFuel, s5) => (Eff.OutOfFuel, s5)
    end.
Proof.
  intros Hfetch Hdiff Hwrite Hcheck.
  unfold syncAttempt, tryCatch, log, emit. eff_unfold.
  unfold attemptStarted in Hfetch. unfold lift at 1 2. rewrite Hfetch, Hdiff, Hwrite, Hcheck.
  rewrite prepareRetry_refines. unfold lift, awaitingSession, observed. simpl.
  rewrite <- !app_assoc. simpl.
  by destruct (icloud_ready C _) as [[[]|e'|] s5].
Qed.


(** *** The retry budget *)

(** The second half of C3: with a budget of [N >= 1], [N] attempts in a row
    that each end in a recoverable error make [sync] raise the
    max-retry-exceeded error, carrying [N]. *)
Lemma sync_gives_up_after_maxRetry (N : nat) s s' :
  Retries C N 0 (observed [Logged Info MsgStartingSync; Emitted START] s) s' →
  sync C (Z.of_nat N) s
  = (Eff.Throw (Raised (mkICPSError MAX_RETRY [pretty (Z.of_nat N)] None)), s').
Proof.
  intros Hretries. unfold sync, log, emit. eff_unfold.
  assert (observed [Emitted START] (observed [Logged Info MsgStartingSync] s)
          = observed [Logged Info MsgStartingSync; Emitted START] s) as ->.
  { unfold observed. simpl. by rewrite <- app_assoc. }
  rewrite (syncLoop_retries N (Z.of_nat N) 0 _ s' Hretries) by lia.
  by rewrite syncLoop_exhausted by lia.
Qed.

(** Preparing a retry throws only what awaiting the session throws. *)
Lemma prepareRetry_throws s t s' :
  prepareRetry C s = (Eff.Throw t, s') → ∃ e, t = Foreign e.
Proof.
  unfold prepareRetry, lift, log, onWorld. eff_unfold. intros Hrun.
  repeat match type of Hrun with
         | context [match downloadQueue C ?w with _ => _ end] => destruct (downloadQueue C w)
         | context [bool_decide ?P] => destruct (bool_decide P)
         end.
  all: match type of Hrun with
       | context [icloud_ready C ?s0] => destruct (icloud_ready C s0) as [[[]|e|] s1]
       end.
  all: try discriminate.
  all: injection Hrun as <- _; by eauto.
Qed.

(** An attempt throws what a collaborator threw, or the unknown-sync error
    of [checkFatalError]; never the max-retry-exceeded error. *)
Lemma syncAttempt_throws retryCount s t s' :
  syncAttempt C retryCount s = (Eff.Throw t, s') →
  (∃ e, t = Foreign e) ∨ (∃ e, t = Raised (mkICPSError UNKNOWN_SYNC [] (Some e))).
Proof.
  unfold syncAttempt, tryCatch, lift, log, emit. eff_unfold. intros Hrun.
  destruct (fetchAndLoadState C _) as [[[[[ra ral] la] lal]|e|] s1];
    [|injection Hrun as <- _; by eauto|done].
  destruct (diffState C ra ral la lal s1) as [[[aq alq]|e|] s2];
    [|injection Hrun as <- _; by eauto|done].
  destruct (writeState C aq alq s2) as [[[]|e|] s3]; [done| |done].
  rewrite checkFatalError_run in Hrun.
  repeat case_bool_decide.
  4: { injection Hrun as <- _. by eauto. }
  all: match type of Hrun with
       | context [prepareRetry C ?s0] =>
           destruct (prepareRetry C s0) as [[[]|t'|] s4] eqn:Hprepare
       end; try done.
  all: injection Hrun as <- _; left; by eapply prepareRetry_throws.
Qed.

(** The converse: when the loop ends with the max-retry-exceeded error,
    every attempt the budget allowed was made and ended in a recoverable
    error. *)
Lemma syncLoop_gave_up maxRetry retryCount s msgs cause s' :
  syncLoop C maxRetry retryCount s = (Eff.Throw (Raised (mkICPSError MAX_RETRY msgs cause)), s') →
  Retries C (Z.to_nat (maxRetry - retryCount)) retryCount s s'.
Proof.
  remember (Z.to_nat (maxRetry - retryCount)) as n eqn:Hn.
  revert retryCount s Hn. induction n as [|n IH]; intros retryCount s Hn Hrun.
  - rewrite syncLoop_exhausted in Hrun by lia. injection Hrun as _ _ <-. constructor.
  - rewrite syncLoop_step, decide_True in Hrun by lia.
    destruct (syncAttempt C (retryCount + 1) s) as [[[v|]|t|] s1] eqn:Hattempt; try done.
    + econstructor; [exact Hattempt|]. apply IH; [lia|done].
    + injection Hrun as -> ->.
      apply syncAttempt_throws in Hattempt as [[e [=]]|[e [=]]].
Qed.

(** Together: with a budget of [N], [sync] raises the max-retry-exceeded
    error exactly when [N] attempts in a row each ended in a recoverable
    error; the error carries [N]. *)
Lemma sync_gives_up_iff (N : nat) s msgs cause s' :
  sync C (Z.of_nat N) s = (Eff.Throw (Raised (mkICPSError MAX_RETRY msgs cause)), s')
  ↔ Retries C N 0 (observed [Logged Info MsgStartingSync; Emitted START] s) s'
    ∧ msgs = [pretty (Z.of_nat N)] ∧ cause = None.
Proof.
  split.
  - intros Hrun.
    assert (Retries C N 0 (observed [Logged Info MsgStartingSync; Emitted START] s) s') as Hretries.
    { revert Hrun. unfold sync, log, emit. eff_unfold.
      assert (observed [Emitted START] (observed [Logged Info MsgStartingSync] s)
              = observed [Logged Info MsgStartingSync; Emitted START] s) as ->.
      { unfold observed. simpl. by rewrite <- app_assoc. }
      intros Hrun%syncLoop_gave_up. by replace (Z.to_nat (Z.of_nat N - 0)) with N in Hrun by lia. }
    split; [done|].
    rewrite (sync_gives_up_after_maxRetry N s s' Hretries) in Hrun. by injection Hrun as <- <-.
  - intros (Hretries & -> & ->). by apply sync_gives_up_after_maxRetry.
Qed.

(** A budget that is not positive allows no attempt. *)
Lemma sync_no_budget maxRetry s :
  (maxRetry ≤ 0)%Z →
  sync C maxRetry s
  = (Eff.Throw (Raised (mkICPSError MAX_RETRY ["0"] None)),
     observed [Logged Info MsgStartingSync; Emitted START] s).
Proof.
  intros Hle. unfold sync, log, emit. eff_unfold.
  rewrite syncLoop_exhausted by lia.
  unfold observed. simpl. by rewrite <- app_assoc.
Qed.

(** C3, at [maxRetry = -1].  The loop condition [maxRetry > retryCount] is
    false before the first attempt: [sync] makes no attempt at all and
    raises the max-retry-exceeded error at once, where the documentation of
    [maxRetry] ("set this to -1 if retry should happen infinitely") and the
    claim say that it retries forever and never raises it. *)
Theorem sync_minus_one_gives_up_at_once s :
  sync C (-1) s
  = (Eff.Throw (Raised (mkICPSError MAX_RETRY ["0"] None)),
     observed [Logged Info MsgStartingSync; Emitted START] s).
Proof.
  unfold sync, log, emit. eff_unfold.
  rewrite syncLoop_exhausted by lia.
  unfold observed. simpl. by rewrite <- app_assoc.
Qed.

End SyncFacts.

(** ** The sync engine on the scripted world *)

Section SyncSamples.
Import SyncEngine SyncSamples.

(** Three bad responses in a row with a budget of five: the fourth attempt
    completes. *)
Example sync_recovers :
  let r := sync collaborators 5 (start [] [] [Some badResponse; Some badResponse; Some badResponse; None]) in
  r.1 = Eff.Ok (["a1"; "a2"], ["F1"])
  ∧ retries r.2 = [1; 2; 3]%Z
  ∧ refreshes (world r.2) = 3%nat.
Proof. by vm_compute. Qed.

(** Two recoverable errors in a row with a budget of two. *)
Example sync_budget_of_two :
  let r := sync collaborators 2 (start [] [] [Some badResponse; Some dnsAgain; None]) in
  r.1 = Eff.Throw (Raised (mkICPSError MAX_RETRY ["2"] None))
  ∧ refreshes (world r.2) = 2%nat.
Proof. by vm_compute. Qed.

(** An error that is not recoverable ends the run at once. *)
Example sync_fatal :
  (sync collaborators 5 (start [] [] [Some diskFull])).1
  = Eff.Throw (Raised (mkICPSError UNKNOWN_SYNC [] (Some diskFull))).
Proof. by vm_compute. Qed.

(** A bad response passes [checkFatalError]; a full disk does not. *)
Lemma checkFatalError_recoverable_witness :
  recoverableCode badResponse ∧ ¬ recoverableCode diskFull
  ∧ (∃ b s', checkFatalError badResponse run4 = (Eff.Ok b, s'))
  ∧ checkFatalError diskFull run4
    = (Eff.Throw (Raised (mkICPSError UNKNOWN_SYNC [] (Some diskFull))), run4).
Proof.
  assert (recoverableCode badResponse) as Hbad by (left; reflexivity).
  assert (¬ recoverableCode diskFull) as Hfull by (intros [|[|]]; discriminate).
  split; [exact Hbad|]. split; [exact Hfull|]. split.
  - exact (proj2 (proj1 (checkFatalError_recoverable badResponse run4)) Hbad).
  - exact (proj2 (proj2 (checkFatalError_recoverable diskFull run4)) Hfull).
Defined.


(** What the retry prepared in that run: the waiting download was dropped,
    the running one awaited, the session refreshed once. *)
Example prepareRetry_run :
  downloads (world run5) = Some (mkPQueue 1 1)
  ∧ downloads (world run6) = Some (mkPQueue 0 0)
  ∧ refreshes (world run6) = 1%nat.
Proof. by vm_compute. Qed.


End SyncSamples.

(** * Further properties *)

(** ** The differ, for every remote list *)

Section DifferMore.
Import PhotosLibrary.
Context {E T : Type} `{PEntity E T}.
Implicit Types (R : list E) (L : gmap string T) (st : DiffState T) (r : E) (l : T) (k : string).

(** One pass either adds the entity or deletes the entry it found. *)
Lemma forEachRemote_cases st r :
  (unmatchedIn (localEntities st) r = true
   ∧ localEntities (forEachRemote st r) = localEntities st
   ∧ toBeAdded (forEachRemote st r) = toBeAdded st ++ [unpack r])
  ∨ (∃ l, localEntities st !! getUUID r = Some l ∧ equal r l = true
          ∧ localEntities (forEachRemote st r) = delete (getUUID r) (localEntities st)
          ∧ toBeAdded (forEachRemote st r) = toBeAdded st).
Proof.
  unfold forEachRemote, unmatchedIn.
  destruct (localEntities st !! getUUID r) as [l|] eqn:Hl; simpl.
  - destruct (equal r l) eqn:Heq; simpl; [right; by exists l | by left].
  - by left.
Qed.

Lemma foldl_forEachRemote_accounting R st :
  length (toBeAdded (foldl forEachRemote st R)) + size (localEntities st)
  = length (toBeAdded st) + length R + size (localEntities (foldl forEachRemote st R)).
Proof.
  revert st. induction R as [|r R IH]; intros st; simpl; [lia|].
  destruct (forEachRemote_cases st r) as [(_ & HL & HA)|(l & Hl & _ & HL & HA)].
  - specialize (IH (forEachRemote st r)). rewrite HL, HA, length_app in IH. simpl in IH. lia.
  - specialize (IH (forEachRemote st r)). rewrite HL, HA in IH.
    rewrite map_size_delete_Some in IH by eauto.
    assert (size (localEntities st) ≠ 0).
    { intros Hz. apply map_size_empty_inv in Hz. by rewrite Hz, lookup_empty in Hl. }
    lia.
Qed.

(** X1.  Every remote entity is accounted for once: it is added, or it
    takes one entry out of the local dictionary.  So the additions and the
    local entries number as many as the remote entities and the deletions,
    whatever the remote list, duplicates of a UUID included. *)
Theorem getProcessingQueues_accounting R L lg :
  length (toAdd (getProcessingQueues R L lg)) + size L
  = length R + length (toDelete (getProcessingQueues R L lg)).
Proof.
  unfold toAdd, toDelete, getProcessingQueues, Object_values. simpl.
  rewrite length_fmap, length_map_to_list.
  pose proof (foldl_forEachRemote_accounting R
                (mkDiffState L [] (lg ++ [(Debug, MsgGettingQueues)]))) as Hacc.
  simpl in Hacc. lia.
Qed.

Lemma foldl_forEachRemote_sublist R st :
  ∃ added, toBeAdded (foldl forEachRemote st R) = toBeAdded st ++ added
           ∧ added `sublist_of` (unpack <$> R).
Proof.
  revert st. induction R as [|r R IH]; intros st; simpl.
  - exists []. by rewrite app_nil_r.
  - destruct (IH (forEachRemote st r)) as (added & -> & Hsub).
    destruct (forEachRemote_cases st r) as [(_ & _ & ->)|(l & _ & _ & _ & ->)].
    + exists (unpack r :: added). rewrite <- app_assoc. split; [done|]. by constructor.
    + exists added. split; [done|]. by constructor.
Qed.

(** X2.  The differ invents nothing: toAdd is a subsequence of the remote
    list (unpacked, in its order), the dictionary it leaves behind is a part
    of the one it was given, and so every entity of toDelete is an entry of
    the local dictionary. *)
Theorem getProcessingQueues_invents_nothing R L lg :
  toAdd (getProcessingQueues R L lg) `sublist_of` (unpack <$> R)
  ∧ localAfter (getProcessingQueues R L lg) ⊆ L
  ∧ ∀ l, l ∈ toDelete (getProcessingQueues R L lg) → ∃ k, L !! k = Some l.
Proof.
  split; [|split].
  - destruct (foldl_forEachRemote_sublist R
                (mkDiffState L [] (lg ++ [(Debug, MsgGettingQueues)]))) as (added & Hadd & Hsub).
    unfold toAdd, getProcessingQueues. simpl. by rewrite Hadd.
  - rewrite localAfter_filter. apply map_filter_subseteq.
  - intros l (k & Hk & _)%elem_of_toDelete. by exists k.
Qed.

(** When nothing was added, every remote entity found an equal entry, and
    no two of them share a UUID. *)
Lemma foldl_forEachRemote_none_added R st :
  toBeAdded (foldl forEachRemote st R) = toBeAdded st →
  NoDup (getUUID <$> R)
  ∧ ∀ r, r ∈ R → ∃ l, localEntities st !! getUUID r = Some l ∧ equal r l = true.
Proof.
  revert st. induction R as [|r R IH]; intros st Hnone; simpl in *.
  - split; [constructor | by inversion 1].
  - destruct (foldl_forEachRemote_sublist R (forEachRemote st r)) as (added & Hadd & _).
    destruct (forEachRemote_cases st r) as [(_ & _ & HA)|(l & Hl & Heq & HL & HA)].
    + exfalso. rewrite Hadd, HA, <- app_assoc in Hnone.
      apply (f_equal length) in Hnone. rewrite !length_app in Hnone. simpl in Hnone. lia.
    + destruct (IH (forEachRemote st r)) as [Hnd Hall]; [by rewrite HA in *|].
      assert (∀ r', r' ∈ R → getUUID r' ≠ getUUID r) as Hfresh.
      { intros r' Hr' Hsame. destruct (Hall r' Hr') as (l' & Hl' & _).
        by rewrite HL, Hsame, lookup_delete_eq in Hl'. }
      split.
      * apply NoDup_cons. split; [|done].
        intros (r' & Hsame & Hr')%list_elem_of_fmap. by apply (Hfresh r' Hr').
      * intros r' [->|Hr']%elem_of_cons; [by exists l|].
        destruct (Hall r' Hr') as (l' & Hl' & Heq'). exists l'. split; [|done].
        by rewrite HL, lookup_delete_ne in Hl' by (apply not_eq_sym; by apply Hfresh).
Qed.

(** X3.  The differ finds nothing to do exactly when the local dictionary
    mirrors the remote list: the remote UUIDs are pairwise distinct, each
    remote entity has an equal entry under its UUID, and there is no other
    entry. *)
Theorem getProcessingQueues_nothing_to_do R L lg :
  queues (getProcessingQueues R L lg) = ([], [])
  ↔ NoDup (getUUID <$> R)
    ∧ (∀ r, r ∈ R → ∃ l, L !! getUUID r = Some l ∧ equal r l = true)
    ∧ (∀ k l, L !! k = Some l → ∃ r, r ∈ R ∧ getUUID r = k).
Proof.
  split.
  - intros Hq.
    assert (toAdd (getProcessingQueues R L lg) = []) as Hadd by (unfold toAdd; by rewrite Hq).
    assert (toDelete (getProcessingQueues R L lg) = []) as Hdel by (unfold toDelete; by rewrite Hq).
    destruct (foldl_forEachRemote_none_added R
                (mkDiffState L [] (lg ++ [(Debug, MsgGettingQueues)]))) as [Hnd Hall]; [exact Hadd|].
    split; [done|]. split; [exact Hall|].
    intros k l Hk. destruct (matched R k l) eqn:Hm.
    + apply matched_true in Hm as (r & Hr & Hu & _). eauto.
    + exfalso. assert (l ∈ toDelete (getProcessingQueues R L lg)) as Hin
        by (apply elem_of_toDelete; eauto).
      rewrite Hdel in Hin. by apply elem_of_nil in Hin.
  - intros (Hnd & Hmirror & Honly). by apply getProcessingQueues_in_sync.
Qed.

(** One remote entity and a local entry under its UUID: the entry keeps
    the entity out of toAdd, and is itself kept from deletion, exactly when
    the entity's [equal] accepts it.  This holds for every implementation
    of [equal]. *)
Lemma same_uuid_entry_suppresses_iff_equal r l L lg :
  L !! getUUID r = Some l →
  toAdd (getProcessingQueues [r] L lg) = (if equal r l then [] else [unpack r])
  ∧ localAfter (getProcessingQueues [r] L lg) !! getUUID r
    = (if equal r l then None else Some l).
Proof.
  intros Hl. split.
  - unfold getProcessingQueues, toAdd. simpl. unfold forEachRemote. simpl.
    rewrite Hl. by destruct (equal r l).
  - rewrite localAfter_lookup, Hl. unfold matched, matches. simpl.
    rewrite bool_decide_eq_true_2 by done. simpl. by rewrite orb_false_r.
Qed.

End DifferMore.

(** ** The loader, album kind by album kind *)

Section LoaderMore.
Import PhotosLibrary.
Implicit Types (fs : FileSystem) (album : Album) (lg : Log) (entries : list Dirent).

(** X4.  An ARCHIVED album is loaded as it is given: whatever links its
    directory holds, what is returned is the album itself, with the photos
    it was given, and nothing below it (nothing at all if its UUID is
    empty). *)
Theorem loadAlbum_archived fuel fs album lg res lg' :
  albumType album = ARCHIVED →
  loadAlbum fuel fs album lg = (Eff.Ok res, lg') →
  res = if 0 <? String.length (uuid album) then [album] else [].
Proof.
  intros Harchived Hrun. destruct fuel as [|fuel]; [done|].
  apply loadAlbum_Ok in Hrun as (entries & _ & Hloop).
  eapply (forOf_invariant (λ acc, acc = if 0 <? String.length (uuid album) then [album] else []));
    [| |exact Hloop]; [|done].
  intros acc link s acc' s' _ -> (target & _ & Hcase)%loadLink_Ok.
  by rewrite Harchived in Hcase.
Qed.

(** X5.  An album of kind ALBUM whose UUID is empty cannot hold a photo:
    at its first link the loader reads [assets] of an album it never
    collected, and throws a TypeError. *)
Theorem loadAlbum_album_without_uuid fuel fs album lg entries link others target :
  albumType album = ALBUM → uuid album = "" →
  readdir fs (albumPath album) = Some entries →
  filter (λ file, isSymbolicLink file = true) entries = link :: others →
  readlink fs (Path.join (albumPath album) (name link)) = Some target →
  loadAlbum (S fuel) fs album lg
  = (Eff.Throw TypeError,
     lg ++ [(Info, MsgLoadingAlbum (albumName album));
            (Debug, MsgFoundLinks (S (length others)) (albumName album))]).
Proof.
  intros Halbum Huuid Hdir Hlinks Htarget.
  cbn [loadAlbum]. unfold fs_readdir, log. eff_unfold. rewrite Hdir, Hlinks, Huuid.
  cbn [Eff.forOf]. unfold loadLink at 1. unfold fs_readlink. eff_unfold.
  rewrite Htarget, Halbum. simpl. by rewrite <- app_assoc.
Qed.

Lemma setAsset_assets a k v : assets (setAsset a k v) = <[k := v]> (assets a).
Proof. done. Qed.

(** X6.  An album of kind ALBUM with a UUID is loaded as one album, itself;
    each link of its directory gives it a photo, stored under the name of
    the link's target without directory and extension, with the link's name
    as file name; it has no other photo than those and the ones it was
    given. *)
Theorem loadAlbum_album_photos fuel fs album lg res lg' entries :
  albumType album = ALBUM → hasUUID album →
  readdir fs (albumPath album) = Some entries →
  loadAlbum fuel fs album lg = (Eff.Ok res, lg') →
  ∃ a, res = [a] ∧ sameAlbum a album
    ∧ (∀ link, link ∈ entries → isSymbolicLink link = true →
         ∃ target, readlink fs (Path.join (albumPath album) (name link)) = Some target
                   ∧ is_Some (assets a !! Path.parse_name target))
    ∧ (∀ k v, assets a !! k = Some v →
         assets album !! k = Some v
         ∨ ∃ link target, link ∈ entries ∧ isSymbolicLink link = true
             ∧ readlink fs (Path.join (albumPath album) (name link)) = Some target
             ∧ k = Path.parse_name target ∧ v = name link).
Proof.
  intros Halbum Huuid Hdir Hrun. destruct fuel as [|fuel]; [done|].
  apply loadAlbum_Ok in Hrun as (entries' & Hdir' & Hloop).
  rewrite Hdir in Hdir'. injection Hdir' as <-.
  assert ((if 0 <? String.length (uuid album) then [album] else []) = [album]) as Hinit.
  { unfold hasUUID in Huuid. by destruct (uuid album). }
  rewrite Hinit in Hloop.
  (* the shape of the result, and where its photos come from *)
  assert (∃ a, res = [a] ∧ sameAlbum a album
            ∧ ∀ k v, assets a !! k = Some v →
                assets album !! k = Some v
                ∨ ∃ link target, link ∈ entries ∧ isSymbolicLink link = true
                    ∧ readlink fs (Path.join (albumPath album) (name link)) = Some target
                    ∧ k = Path.parse_name target ∧ v = name link) as (a & -> & Hsame & Hfrom).
  { eapply (forOf_invariant (λ acc, ∃ a, acc = [a] ∧ sameAlbum a album
              ∧ ∀ k v, assets a !! k = Some v →
                  assets album !! k = Some v
                  ∨ ∃ link target, link ∈ entries ∧ isSymbolicLink link = true
                      ∧ readlink fs (Path.join (albumPath album) (name link)) = Some target
                      ∧ k = Path.parse_name target ∧ v = name link)); [| |exact Hloop].
    - intros acc link s acc' s' [Hsym Hlink]%list_elem_of_filter (a & -> & Hsame & Hfrom)
        (target & Htarget & Hcase)%loadLink_Ok.
      rewrite Halbum in Hcase. destruct Hcase as (first & others & [= <- <-] & ->).
      eexists. split; [done|]. split; [by apply sameAlbum_setAsset|].
      intros k v. rewrite setAsset_assets.
      destruct (decide (Path.parse_name target = k)) as [<-|Hne].
      + rewrite lookup_insert_eq. intros [= <-]. right. by exists link, target.
      + rewrite lookup_insert_ne by done. apply Hfrom.
    - exists album. split; [done|]. split; [done|]. intros k v Hk. by left. }
  exists a. split; [done|]. split; [done|]. split; [|done].
  (* every link left a photo *)
  intros link Hlink Hsym.
  assert (link ∈ filter (λ file, isSymbolicLink file = true) entries) as Hin
    by (by apply list_elem_of_filter).
  destruct (forOf_pass _ _ _ Hin _ _ _ _ Hloop)
    as (pre & post & acc1 & lg1 & acc2 & lg2 & _ & _ & Hpass & Hpost).
  apply loadLink_Ok in Hpass as (target & Htarget & Hcase).
  rewrite Halbum in Hcase. destruct Hcase as (first & others & -> & ->).
  exists target. split; [done|].
  assert (∃ b rest, [a] = b :: rest ∧ is_Some (assets b !! Path.parse_name target))
    as (b & rest & [= <- <-] & Hb); [|done].
  eapply (forOf_invariant (λ acc, ∃ b rest, acc = b :: rest
            ∧ is_Some (assets b !! Path.parse_name target))); [| |exact Hpost].
  - intros acc link' s acc' s' _ (b & rest & -> & Hb) (target' & _ & Hcase)%loadLink_Ok.
    rewrite Halbum in Hcase. destruct Hcase as (first' & others' & [= <- <-] & ->).
    eexists _, _. split; [done|]. rewrite setAsset_assets.
    destruct (decide (Path.parse_name target' = Path.parse_name target)) as [->|Hne].
    + rewrite lookup_insert_eq. eauto.
    + by rewrite lookup_insert_ne.
  - eexists _, _. split; [done|]. rewrite setAsset_assets, lookup_insert_eq. eauto.
Qed.

(** The dictionary built from the array of loaded albums: the last album
    of a UUID is the one stored under it. *)
Lemma foldl_insert_last (albums : list Album) k a :
  foldl (λ libAlbums album, <[uuid album := album]> libAlbums) (∅ : gmap string Album) albums !! k
  = Some a
  ↔ ∃ pre post, albums = pre ++ a :: post ∧ uuid a = k ∧ ∀ b, b ∈ post → uuid b ≠ k.
Proof.
  induction albums as [|b albums IH] using rev_ind.
  - simpl. rewrite lookup_empty. split; [done|].
    intros (pre & post & Heq & _). by destruct pre.
  - rewrite foldl_app. simpl. destruct (decide (uuid b = k)) as [Hk|Hk].
    + rewrite Hk, lookup_insert_eq. split.
      * intros [= <-]. exists albums, []. split; [done|]. split; [done|]. by inversion 1.
      * intros (pre & post & Heq & Ha & Hpost).
        destruct post as [|c post _] using rev_ind.
        { apply app_inj_tail in Heq as [_ ->]. done. }
        rewrite app_comm_cons, app_assoc in Heq. apply app_inj_tail in Heq as [_ <-].
        exfalso. apply (Hpost b); [|done]. apply elem_of_app. right. by left.
    + rewrite lookup_insert_ne by done. rewrite IH. split.
      * intros (pre & post & -> & Ha & Hpost). exists pre, (post ++ [b]).
        split; [by rewrite <- app_assoc|]. split; [done|].
        intros c [Hc|Hc%list_elem_of_singleton]%elem_of_app; [by apply Hpost | by subst].
      * intros (pre & post & Heq & Ha & Hpost).
        destruct post as [|c post _] using rev_ind.
        { apply app_inj_tail in Heq as [_ ->]. done. }
        rewrite app_comm_cons, app_assoc in Heq. apply app_inj_tail in Heq as [-> <-].
        exists pre, post. split; [done|]. split; [done|].
        intros d Hd. apply Hpost. apply elem_of_app. by left.
Qed.

Lemma foldl_insert_is_Some (albums : list Album) (lib : gmap string Album) a :
  a ∈ albums →
  is_Some (foldl (λ libAlbums album, <[uuid album := album]> libAlbums) lib albums !! uuid a).
Proof.
  induction albums as [|b albums IH] using rev_ind; [by inversion 1|].
  rewrite foldl_app. simpl. intros [Ha|Ha%list_elem_of_singleton]%elem_of_app.
  - destruct (decide (uuid b = uuid a)) as [->|Hne].
    + rewrite lookup_insert_eq. eauto.
    + rewrite lookup_insert_ne by done. by apply IH.
  - subst. rewrite lookup_insert_eq. eauto.
Qed.

(** X7.  The library [loadAlbums] returns is the array of [loadAlbum] from
    the root, keyed by UUID: every album collected can be looked up under
    its UUID, and where several albums were collected under one UUID, the
    one collected last is the one that stays. *)
Theorem loadAlbums_last_wins fuel fs photoDataDir lg libAlbums lg' :
  loadAlbums fuel fs photoDataDir lg = (Eff.Ok libAlbums, lg') →
  ∃ albums,
    loadAlbum fuel fs (getRootAlbum photoDataDir) lg = (Eff.Ok albums, lg')
    ∧ (∀ a, a ∈ albums → is_Some (libAlbums !! uuid a))
    ∧ (∀ k a, libAlbums !! k = Some a
              ↔ ∃ pre post, albums = pre ++ a :: post ∧ uuid a = k ∧ ∀ b, b ∈ post → uuid b ≠ k).
Proof.
  unfold loadAlbums. intros Hrun.
  apply bind_Ok in Hrun as (albums & lg1 & Hload & Hrun). injection Hrun as <- <-.
  exists albums. split; [done|]. split.
  - intros a Ha. by apply foldl_insert_is_Some.
  - intros k a. apply foldl_insert_last.
Qed.

Lemma readAlbumTypeFromPath_Ok fs path lg t lg' :
  readAlbumTypeFromPath fs path lg = (Eff.Ok t, lg') → is_Some (readdir fs path).
Proof.
  unfold readAlbumTypeFromPath. intros Hrun.
  apply bind_Ok in Hrun as (entries & lg1 & [Hdir _]%fs_readdir_Ok & _). eauto.
Qed.

(** X8.  One link of a folder to a directory that cannot be listed makes
    loading the folder fail: [loadAlbum] returns no albums at all, whatever
    the other links lead to. *)
Theorem loadAlbum_unreadable_child fuel fs album lg entries link target :
  albumType album = FOLDER →
  readdir fs (albumPath album) = Some entries →
  link ∈ entries → isSymbolicLink link = true →
  readlink fs (Path.join (albumPath album) (name link)) = Some target →
  readdir fs (Path.join (albumPath album) target) = None →
  ∀ res lg', loadAlbum fuel fs album lg ≠ (Eff.Ok res, lg').
Proof.
  intros Hfolder Hdir Hlink Hsym Htarget Hgone res lg' Hrun.
  destruct fuel as [|fuel]; [done|].
  apply loadAlbum_Ok in Hrun as (entries' & Hdir' & Hloop).
  rewrite Hdir in Hdir'. injection Hdir' as <-.
  assert (link ∈ filter (λ file, isSymbolicLink file = true) entries) as Hin
    by (by apply list_elem_of_filter).
  destruct (forOf_pass _ _ _ Hin _ _ _ _ Hloop)
    as (pre & post & acc1 & lg1 & acc2 & lg2 & _ & _ & Hpass & _).
  apply loadLink_Ok in Hpass as (target' & Htarget' & Hcase).
  rewrite Htarget in Htarget'. injection Htarget' as <-.
  rewrite Hfolder in Hcase. destruct Hcase as (folderType & lg3 & loaded & Htype & _).
  apply readAlbumTypeFromPath_Ok in Htype as [? Hsome]. by rewrite Hgone in Hsome.
Qed.

Lemma reached_trans fs a b c :
  reached fs a b → reached fs b c → reached fs a c.
Proof.
  intros Hab Hbc. induction Hbc as [|parent child _ IH Hfound]; [done|].
  by eapply reached_step.
Qed.

Lemma sameAlbum_trans a b c : sameAlbum a b → sameAlbum b c → sameAlbum a c.
Proof.
  intros (? & ? & ? & ? & ?) (? & ? & ? & ? & ?). repeat split; congruence.
Qed.

Lemma foundIn_sameAlbum fs parent child child' :
  sameAlbum child' child → foundIn fs parent child → foundIn fs parent child'.
Proof.
  intros (Hu & Ht & Hn & Hp & Hpath)
         (Hfolder & entries & link & target & lg & lg' & ? & ? & ? & ? & ? & ? & ? & ? & ?).
  split; [done|]. exists entries, link, target, lg, lg'.
  rewrite Hu, Ht, Hn, Hp, Hpath. done.
Qed.

(** X9.  Every album [loadAlbum] returns is the album it was given, or was
    found in a folder: it was built for a symbolic link in the directory
    of a folder the loader came through from the album given, and its
    parent UUID is the UUID of that very folder (its UUID and path are
    those of the link's target, its name the link's).  That folder is
    returned as well, unless its UUID is empty. *)
Theorem loadAlbum_parents fuel fs album lg res lg' :
  loadAlbum fuel fs album lg = (Eff.Ok res, lg') →
  ∀ x, x ∈ res →
    sameAlbum x album
    ∨ ∃ parent,
        reached fs album parent
        ∧ foundIn fs parent x
        ∧ (hasUUID parent → ∃ p, p ∈ res ∧ sameAlbum p parent).
Proof.
  revert album lg res lg'. induction fuel as [|fuel IH]; intros album lg res lg' Hrun; [done|].
  apply loadAlbum_Ok in Hrun as (entries & Hentries & Hloop).
  set (found (acc : list Album) (x : Album) := ∃ parent,
         reached fs album parent ∧ foundIn fs parent x
         ∧ (hasUUID parent → ∃ p, p ∈ acc ∧ sameAlbum p parent)).
  enough ((hasUUID album → ∃ p, p ∈ res ∧ sameAlbum p album)
          ∧ ∀ x, x ∈ res → sameAlbum x album ∨ found res x) as [_ Hres] by exact Hres.
  eapply (forOf_invariant (λ acc,
            (hasUUID album → ∃ p, p ∈ acc ∧ sameAlbum p album)
            ∧ ∀ x, x ∈ acc → sameAlbum x album ∨ found acc x)); [| |exact Hloop].
  - intros acc link lg0 acc' lg1 [Hsym Hlink]%list_elem_of_filter [Hself Hacc]
           (target & Htarget & Hcase)%loadLink_Ok.
    destruct (albumType album) eqn:Htype.
    + destruct Hcase as (folderType & lg2 & loaded & Hkind & Hchild & ->).
      set (child := newAlbum (Path.substring1 (Path.basename target)) folderType
                      (name link) (uuid album) (Path.join (albumPath album) target)) in *.
      assert (foundIn fs album child) as Hfound.
      { split; [done|]. exists entries, link, target, lg0, lg2. by repeat split. }
      assert (hasUUID album → ∃ p, p ∈ acc ++ loaded ∧ sameAlbum p album) as Hself'.
      { intros (p & Hp & Hsame)%Hself. exists p. split; [|done]. apply elem_of_app. by left. }
      split; [done|].
      intros x [Hx|Hx]%elem_of_app.
      * destruct (Hacc x Hx) as [?|(parent & Hreached & Hx' & Hparent)]; [by left|].
        right. exists parent. split; [done|]. split; [done|].
        intros (p & Hp & Hsame)%Hparent. exists p. split; [|done]. apply elem_of_app. by left.
      * right. destruct (IH _ _ _ _ Hchild x Hx) as [Hsame|(parent & Hreached & Hx' & Hparent)].
        -- exists album. split; [constructor|]. split; [by eapply foundIn_sameAlbum|done].
        -- exists parent. split.
           { eapply reached_trans; [|exact Hreached]. by eapply reached_step; [constructor|]. }
           split; [done|].
           intros (p & Hp & Hsame)%Hparent. exists p. split; [|done]. apply elem_of_app. by right.
    + destruct Hcase as (first & others & -> & ->).
      assert (∀ p q, p ∈ first :: others → sameAlbum p q →
                ∃ p', p' ∈ setAsset first (Path.parse_name target) (name link) :: others
                      ∧ sameAlbum p' q) as Hkeep.
      { intros p q [->|Hp]%elem_of_cons Hsame.
        - eexists. split; [by left|]. by apply sameAlbum_setAsset.
        - exists p. split; [by right|done]. }
      assert (∀ x, found (first :: others) x →
                found (setAsset first (Path.parse_name target) (name link) :: others) x) as Hmove.
      { intros x (parent & Hreached & Hx' & Hparent). exists parent.
        split; [done|]. split; [done|].
        intros (p & Hp & Hsame)%Hparent. by eapply Hkeep. }
      split.
      * intros (p & Hp & Hsame)%Hself. by eapply Hkeep.
      * intros x [->|Hx]%elem_of_cons.
        -- destruct (Hacc first) as [Hsame|Hfound]; [by left| |].
           ++ left. by apply sameAlbum_setAsset.
           ++ right. apply Hmove. destruct Hfound as (parent & Hreached & Hx' & Hparent).
              exists parent. split; [done|]. split; [|done].
              eapply foundIn_sameAlbum; [|exact Hx']. by apply sameAlbum_setAsset.
        -- destruct (Hacc x) as [?|Hfound]; [by right|by left|]. right. by apply Hmove.
    + by subst acc'.
  - split.
    + intros Huuid. unfold hasUUID in Huuid.
      destruct (uuid album) as [|c u] eqn:Hu; [done|]. simpl.
      exists album. split; [by left|done].
    + intros x Hx. left.
      destruct (0 <? String.length (uuid album)); [|by apply elem_of_nil in Hx].
      by apply list_elem_of_singleton in Hx as ->.
Qed.

End LoaderMore.

(** ** The loader on the disks for its edges *)

Section LoaderMoreSamples.
Import PhotosLibrary Samples EdgeDisks.

(** The archived album "Scans" holds a link; it is loaded without it. *)
Lemma loadAlbum_archived_witness :
  albumType scans = ARCHIVED
  ∧ loadAlbum 1 archive_disk scans [] = (Eff.Ok [scans], scansLog)
  ∧ [scans] = if 0 <? String.length (uuid scans) then [scans] else [].
Proof.
  assert (loadAlbum 1 archive_disk scans [] = (Eff.Ok [scans], scansLog)) as Hrun
    by (vm_compute; reflexivity).
  split; [reflexivity|]. split; [exact Hrun|].
  exact (loadAlbum_archived 1 archive_disk scans [] [scans] scansLog eq_refl Hrun).
Defined.

(** The album found at "/photos/x" has the empty UUID and one photo. *)
Lemma loadAlbum_album_without_uuid_witness :
  albumType odd = ALBUM ∧ uuid odd = ""
  ∧ readdir nameless_disk (albumPath odd) = Some oddEntries
  ∧ filter (λ file, isSymbolicLink file = true) oddEntries = [link "IMG_1.jpg"]
  ∧ readlink nameless_disk (Path.join (albumPath odd) (name (link "IMG_1.jpg")))
    = Some "../_All-Photos/U1.jpg"
  ∧ loadAlbum 1 nameless_disk odd []
    = (Eff.Throw TypeError,
       [] ++ [(Info, MsgLoadingAlbum (albumName odd));
              (Debug, MsgFoundLinks 1 (albumName odd))]).
Proof.
  assert (readdir nameless_disk (albumPath odd) = Some oddEntries) as Hdir
    by (vm_compute; reflexivity).
  assert (filter (λ file, isSymbolicLink file = true) oddEntries = [link "IMG_1.jpg"]) as Hlinks
    by (vm_compute; reflexivity).
  assert (readlink nameless_disk (Path.join (albumPath odd) (name (link "IMG_1.jpg")))
          = Some "../_All-Photos/U1.jpg") as Htarget by (vm_compute; reflexivity).
  split; [reflexivity|]. split; [reflexivity|]. split; [exact Hdir|]. split; [exact Hlinks|].
  split; [exact Htarget|].
  exact (loadAlbum_album_without_uuid 0 nameless_disk odd [] oddEntries (link "IMG_1.jpg") []
           "../_All-Photos/U1.jpg" eq_refl eq_refl Hdir Hlinks Htarget).
Defined.

(** The album "Summer" of the sample disk and its two photos. *)
Lemma loadAlbum_album_photos_witness :
  albumType summerAlbum = ALBUM ∧ hasUUID summerAlbum
  ∧ readdir disk (albumPath summerAlbum) = Some summerEntries
  ∧ loadAlbum 1 disk summerAlbum [] = (Eff.Ok [loadedSummer], summerLog)
  ∧ ∃ a, [loadedSummer] = [a] ∧ sameAlbum a summerAlbum
    ∧ (∀ link, link ∈ summerEntries → isSymbolicLink link = true →
         ∃ target, readlink disk (Path.join (albumPath summerAlbum) (name link)) = Some target
                   ∧ is_Some (assets a !! Path.parse_name target))
    ∧ (∀ k v, assets a !! k = Some v →
         assets summerAlbum !! k = Some v
         ∨ ∃ link target, link ∈ summerEntries ∧ isSymbolicLink link = true
             ∧ readlink disk (Path.join (albumPath summerAlbum) (name link)) = Some target
             ∧ k = Path.parse_name target ∧ v = name link).
Proof.
  assert (hasUUID summerAlbum) as Huuid by (vm_compute; discriminate).
  assert (readdir disk (albumPath summerAlbum) = Some summerEntries) as Hdir
    by (vm_compute; reflexivity).
  assert (loadAlbum 1 disk summerAlbum [] = (Eff.Ok [loadedSummer], summerLog)) as Hrun
    by (vm_compute; reflexivity).
  split; [reflexivity|]. split; [exact Huuid|]. split; [exact Hdir|]. split; [exact Hrun|].
  exact (loadAlbum_album_photos 1 disk summerAlbum [] [loadedSummer] summerLog summerEntries
           eq_refl Huuid Hdir Hrun).
Defined.

(** Two links to one directory: the album is collected twice, and the
    library keeps the one collected last. *)
Lemma loadAlbums_last_wins_witness :
  loadAlbums 2 twice_disk "/photos" [] = (Eff.Ok twiceLibrary, twiceLog)
  ∧ ∃ albums,
      loadAlbum 2 twice_disk (getRootAlbum "/photos") [] = (Eff.Ok albums, twiceLog)
      ∧ (∀ a, a ∈ albums → is_Some (twiceLibrary !! uuid a))
      ∧ (∀ k a, twiceLibrary !! k = Some a
                ↔ ∃ pre post, albums = pre ++ a :: post ∧ uuid a = k
                              ∧ ∀ b, b ∈ post → uuid b ≠ k).
Proof.
  assert (loadAlbums 2 twice_disk "/photos" [] = (Eff.Ok twiceLibrary, twiceLog)) as Hrun
    by (vm_compute; reflexivity).
  split; [exact Hrun|].
  exact (loadAlbums_last_wins 2 twice_disk "/photos" [] twiceLibrary twiceLog Hrun).
Defined.

Example twice_disk_albums :
  loadAlbum 2 twice_disk (getRootAlbum "/photos") [] = (Eff.Ok [twiceSummer; twiceSommer], twiceLog).
Proof. vm_compute. reflexivity. Qed.

(** The link "Gone" leads to a directory that is not there. *)
Lemma loadAlbum_unreadable_child_witness :
  albumType (getRootAlbum "/photos") = FOLDER
  ∧ readdir broken_disk (albumPath (getRootAlbum "/photos")) = Some brokenEntries
  ∧ link "Gone" ∈ brokenEntries
  ∧ isSymbolicLink (link "Gone") = true
  ∧ readlink broken_disk (Path.join (albumPath (getRootAlbum "/photos")) (name (link "Gone")))
    = Some ".A7"
  ∧ readdir broken_disk (Path.join (albumPath (getRootAlbum "/photos")) ".A7") = None
  ∧ ∀ res lg', loadAlbum 3 broken_disk (getRootAlbum "/photos") [] ≠ (Eff.Ok res, lg').
Proof.
  assert (readdir broken_disk (albumPath (getRootAlbum "/photos")) = Some brokenEntries) as Hdir
    by (vm_compute; reflexivity).
  assert (link "Gone" ∈ brokenEntries) as Hin by (do 2 right; left).
  assert (readlink broken_disk (Path.join (albumPath (getRootAlbum "/photos")) (name (link "Gone")))
          = Some ".A7") as Htarget by (vm_compute; reflexivity).
  assert (readdir broken_disk (Path.join (albumPath (getRootAlbum "/photos")) ".A7") = None)
    as Hgone by (vm_compute; reflexivity).
  split; [reflexivity|]. split; [exact Hdir|]. split; [exact Hin|]. split; [reflexivity|].
  split; [exact Htarget|]. split; [exact Hgone|].
  exact (loadAlbum_unreadable_child 3 broken_disk (getRootAlbum "/photos") [] brokenEntries
           (link "Gone") ".A7" eq_refl Hdir Hin eq_refl Htarget Hgone).
Defined.

(** The albums of the sample disk and the folders they were found in. *)
Lemma loadAlbum_parents_witness :
  loadAlbum 5 disk (getRootAlbum "/photos") [] = (Eff.Ok loadedList, loadLog)
  ∧ ∀ x, x ∈ loadedList →
      sameAlbum x (getRootAlbum "/photos")
      ∨ ∃ parent,
          reached disk (getRootAlbum "/photos") parent
          ∧ foundIn disk parent x
          ∧ (hasUUID parent → ∃ p, p ∈ loadedList ∧ sameAlbum p parent).
Proof.
  assert (loadAlbum 5 disk (getRootAlbum "/photos") [] = (Eff.Ok loadedList, loadLog)) as Hrun
    by (vm_compute; reflexivity).
  split; [exact Hrun|].
  exact (loadAlbum_parents 5 disk (getRootAlbum "/photos") [] loadedList loadLog Hrun).
Defined.

End LoaderMoreSamples.

(** ** The sync engine: how a run ends *)

Section SyncMore.
Import SyncEngine.
Context {W Asset Album CPLAsset CPLMaster CPLAlbum : Type}.
Context (C : Collaborators W Asset Album CPLAsset CPLMaster CPLAlbum).
Implicit Types (s : State W) (e : JSError) (maxRetry retryCount : Z).

(** The loop, as the attempts that fell through followed by the end: the
    budget is used up, or an attempt returned or threw. *)
Lemma syncLoop_outcome maxRetry retryCount s r s' :
  syncLoop C maxRetry retryCount s = (r, s') →
  ∃ (n : nat) s1,
    Retries C n retryCount s s1
    ∧ ((maxRetry ≤ retryCount + Z.of_nat n)%Z ∧ s' = s1
       ∧ r = Eff.Throw (Raised (mkICPSError MAX_RETRY [pretty (retryCount + Z.of_nat n)%Z] None))
       ∧ (n = 0 ∨ (retryCount + Z.of_nat n)%Z = maxRetry)
       ∨ (retryCount + Z.of_nat n < maxRetry)%Z
         ∧ match r with
           | Eff.Ok v => syncAttempt C (retryCount + Z.of_nat n + 1) s1 = (Eff.Ok (Return v), s')
           | Eff.Throw t => syncAttempt C (retryCount + Z.of_nat n + 1) s1 = (Eff.Throw t, s')
           | Eff.OutOfFuel => syncAttempt C (retryCount + Z.of_nat n + 1) s1 = (Eff.OutOfFuel, s')
           end).
Proof.
  remember (Z.to_nat (maxRetry - retryCount)) as budget eqn:Hbudget.
  revert retryCount s Hbudget. induction budget as [|budget IH]; intros retryCount s Hbudget Hrun.
  - rewrite syncLoop_exhausted in Hrun by lia. injection Hrun as <- <-.
    exists 0, s. split; [constructor|]. left. rewrite Z.add_0_r. repeat split; [lia|by left].
  - rewrite syncLoop_step, decide_True in Hrun by lia.
    destruct (syncAttempt C (retryCount + 1) s) as [[[v|]|t|] s1] eqn:Hattempt.
    + injection Hrun as <- <-. exists 0, s. split; [constructor|]. right.
      rewrite Z.add_0_r. split; [lia|done].
    + destruct (IH (retryCount + 1)%Z s1) as (n & s2 & Hretries & Hend); [lia|done|].
      exists (S n), s2. split; [by econstructor|].
      replace (retryCount + Z.of_nat (S n))%Z with (retryCount + 1 + Z.of_nat n)%Z by lia.
      destruct Hend as [(? & ? & ? & ?)|?]; [left|by right].
      repeat split; try done. right. lia.
    + injection Hrun as <- <-. exists 0, s. split; [constructor|]. right.
      rewrite Z.add_0_r. split; [lia|done].
    + injection Hrun as <- <-. exists 0, s. split; [constructor|]. right.
      rewrite Z.add_0_r. split; [lia|done].
Qed.

(** An attempt returns only from the [try] block, after the write. *)
Lemma syncAttempt_returns retryCount s v s' :
  syncAttempt C retryCount s = (Eff.Ok (Return v), s') →
  ∃ la lal s2 aq alq s3 s4,
    fetchAndLoadState C (attemptStarted retryCount s) = (Eff.Ok (v.1, v.2, la, lal), s2)
    ∧ diffState C v.1 v.2 la lal s2 = (Eff.Ok (aq, alq), s3)
    ∧ writeState C aq alq s3 = (Eff.Ok (), s4)
    ∧ s' = observed [Logged Info MsgCompletedSync; Emitted DONE] s4.
Proof.
  unfold syncAttempt, tryCatch, lift, log, emit, attemptStarted. eff_unfold. intros Hrun.
  destruct (fetchAndLoadState C _) as [[[[[ra ral] la] lal]|e|] s2]; [|done|done].
  destruct (diffState C ra ral la lal s2) as [[[aq alq]|e|] s3] eqn:Hdiff; [|done|done].
  destruct (writeState C aq alq s3) as [[[]|e|] s4] eqn:Hwrite; [| |done].
  - injection Hrun as <- <-. exists la, lal, s2, aq, alq, s3, s4.
    repeat split; try done. unfold observed. simpl. by rewrite <- app_assoc.
  - exfalso. rewrite checkFatalError_run in Hrun.
    repeat case_bool_decide; try done.
    all: match type of Hrun with
         | context [prepareRetry C ?s0] => destruct (prepareRetry C s0) as [[[]|t'|] s5]
         end; done.
Qed.

(** X11.  When [sync] returns, it returns the remote assets and albums of
    the attempt whose write phase completed; every attempt before it ended
    in a recoverable error, there are fewer of those than the budget, and
    the last things observed are the line "Completed sync!" and the event
    DONE. *)
Theorem sync_returns_written_state maxRetry s v s' :
  sync C maxRetry s = (Eff.Ok v, s') →
  ∃ (n : nat) s1 la lal s2 aq alq s3 s4,
    (Z.of_nat n < maxRetry)%Z
    ∧ Retries C n 0 (observed [Logged Info MsgStartingSync; Emitted START] s) s1
    ∧ fetchAndLoadState C (attemptStarted (Z.of_nat n + 1) s1) = (Eff.Ok (v.1, v.2, la, lal), s2)
    ∧ diffState C v.1 v.2 la lal s2 = (Eff.Ok (aq, alq), s3)
    ∧ writeState C aq alq s3 = (Eff.Ok (), s4)
    ∧ s' = observed [Logged Info MsgCompletedSync; Emitted DONE] s4.
Proof.
  unfold sync, log, emit. eff_unfold.
  assert (observed [Emitted START] (observed [Logged Info MsgStartingSync] s)
          = observed [Logged Info MsgStartingSync; Emitted START] s) as ->.
  { unfold observed. simpl. by rewrite <- app_assoc. }
  intros (n & s1 & Hretries & [(_ & _ & [=] & _)|[Hlt Hattempt]])%syncLoop_outcome.
  rewrite Z.add_0_l in Hattempt, Hlt.
  apply syncAttempt_returns in Hattempt as (la & lal & s2 & aq & alq & s3 & s4 & ? & ? & ? & ?).
  by exists n, s1, la, lal, s2, aq, alq, s3, s4.
Qed.

(** What an attempt throws, with the cause of the unknown-sync error. *)
Lemma syncAttempt_throws_fatal retryCount s t s' :
  syncAttempt C retryCount s = (Eff.Throw t, s') →
  (∃ e, t = Foreign e)
  ∨ (∃ e, ¬ recoverableCode e ∧ t = Raised (mkICPSError UNKNOWN_SYNC [] (Some e))).
Proof.
  unfold syncAttempt, tryCatch, lift, log, emit. eff_unfold. intros Hrun.
  destruct (fetchAndLoadState C _) as [[[[[ra ral] la] lal]|e|] s1];
    [|injection Hrun as <- _; by eauto|done].
  destruct (diffState C ra ral la lal s1) as [[[aq alq]|e|] s2];
    [|injection Hrun as <- _; by eauto|done].
  destruct (writeState C aq alq s2) as [[[]|e|] s3]; [done| |done].
  rewrite checkFatalError_run in Hrun.
  repeat case_bool_decide.
  4: { injection Hrun as <- _. right. exists e. split; [|done].
       unfold recoverableCode. intros [|[|]]; done. }
  all: match type of Hrun with
       | context [prepareRetry C ?s0] =>
           destruct (prepareRetry C s0) as [[[]|t'|] s4] eqn:Hprepare
       end; try done.
  all: injection Hrun as <- _; left; by eapply prepareRetry_throws.
Qed.

(** X12.  What [sync] throws is one of three things: an error of a
    collaborator, as it was thrown (from fetch & load, diff, or the session
    refresh); the unknown-sync error, whose cause is an error that is not
    recoverable; or the max-retry-exceeded error, whose only message is the
    budget (0 for a negative budget) and which carries no cause. *)
Theorem sync_throws maxRetry s t s' :
  sync C maxRetry s = (Eff.Throw t, s') →
  (∃ e, t = Foreign e)
  ∨ (∃ e, ¬ recoverableCode e ∧ t = Raised (mkICPSError UNKNOWN_SYNC [] (Some e)))
  ∨ t = Raised (mkICPSError MAX_RETRY [pretty (Z.max 0 maxRetry)] None).
Proof.
  unfold sync, log, emit. eff_unfold.
  intros (n & s1 & Hretries & [(Hle & _ & [= ->] & Hn)|[_ Hattempt]])%syncLoop_outcome.
  - right. right. do 3 f_equal. destruct Hn as [->|Hn]; f_equal; lia.
  - apply syncAttempt_throws_fatal in Hattempt as [?|?]; eauto.
Qed.

(** [checkFatalError] returns only for a recoverable code, and then [false]. *)
Lemma checkFatalError_Ok e s b s' :
  checkFatalError e s = (Eff.Ok b, s') → recoverableCode e ∧ b = false.
Proof.
  rewrite checkFatalError_run. unfold recoverableCode.
  repeat case_bool_decide; intros [= <- _]; tauto.
Qed.

(** An attempt falls through to the next test of the loop exactly when it
    fetched, loaded and diffed, its write threw an error with a
    recoverable code, and the session it awaited after preparing the retry
    became ready. *)
Lemma syncAttempt_Continue retryCount s s' :
  syncAttempt C retryCount s = (Eff.Ok Continue, s')
  ↔ ∃ ra ral la lal s1 aq alq s2 e s3 s4,
      fetchAndLoadState C (attemptStarted retryCount s) = (Eff.Ok (ra, ral, la, lal), s1)
      ∧ diffState C ra ral la lal s1 = (Eff.Ok (aq, alq), s2)
      ∧ writeState C aq alq s2 = (Eff.Throw e, s3)
      ∧ recoverableCode e
      ∧ checkFatalError e s3 = (Eff.Ok false, s4)
      ∧ icloud_ready C (awaitingSession C retryCount e s4) = (Eff.Ok (), s').
Proof.
  split.
  - destruct (fetchAndLoadState C (attemptStarted retryCount s))
      as [[[[[ra ral] la] lal]|e|] s1] eqn:Hfetch.
    2, 3: unfold syncAttempt, lift, log; eff_unfold; unfold attemptStarted in Hfetch;
          by rewrite Hfetch.
    destruct (diffState C ra ral la lal s1) as [[[aq alq]|e|] s2] eqn:Hdiff.
    2, 3: unfold syncAttempt, lift, log; eff_unfold; unfold attemptStarted in Hfetch;
          by rewrite Hfetch, Hdiff.
    destruct (writeState C aq alq s2) as [[[]|e|] s3] eqn:Hwrite.
    1, 3: unfold syncAttempt, tryCatch, lift, log, emit; eff_unfold;
          unfold attemptStarted in Hfetch; by rewrite Hfetch, Hdiff, Hwrite.
    destruct (checkFatalError e s3) as [[b|t|] s4] eqn:Hcheck.
    2, 3: unfold syncAttempt, tryCatch, lift, log, emit; eff_unfold;
          unfold attemptStarted in Hfetch; by rewrite Hfetch, Hdiff, Hwrite, Hcheck.
    destruct (checkFatalError_Ok _ _ _ _ Hcheck) as [Hcode ->].
    rewrite (syncAttempt_write_recoverable C _ _ _ _ _ _ _ _ _ _ _ _ _ Hfetch Hdiff Hwrite Hcheck).
    destruct (icloud_ready C _) as [[[]|e'|] s5] eqn:Hready; [|done|done].
    intros [= <-]. by exists ra, ral, la, lal, s1, aq, alq, s2, e, s3, s4.
  - intros (ra & ral & la & lal & s1 & aq & alq & s2 & e & s3 & s4
            & Hfetch & Hdiff & Hwrite & _ & Hcheck & Hready).
    rewrite (syncAttempt_write_recoverable C _ _ _ _ _ _ _ _ _ _ _ _ _ Hfetch Hdiff Hwrite Hcheck).
    by rewrite Hready.
Qed.

Lemma Retries_RecoverableFailures n retryCount s s' :
  Retries C n retryCount s s' ↔ RecoverableFailures C n retryCount s s'.
Proof.
  split.
  - induction 1 as [|n retryCount s s1 s' Hattempt _ IH]; [constructor|].
    apply syncAttempt_Continue in Hattempt
      as (ra & ral & la & lal & s0 & aq & alq & s2 & e & s3 & s4
          & Hfetch & Hdiff & Hwrite & Hcode & Hcheck & Hready).
    by eapply RecoverableFailures_S.
  - induction 1 as [|n retryCount s ra ral la lal s1 aq alq s2 e s3 s4 s5 s'
                      Hfetch Hdiff Hwrite Hcode Hcheck Hready _ IH]; [constructor|].
    eapply Retries_S; [|exact IH].
    apply syncAttempt_Continue. by exists ra, ral, la, lal, s1, aq, alq, s2, e, s3, s4.
Qed.

(** X10.  With a budget of [N], [sync] raises the max-retry-exceeded error
    exactly when [N] attempts in a row each fetched, loaded and diffed,
    threw an error with a recoverable code from the write phase, prepared
    the retry and saw the session become ready; the error carries [N] as
    its only message, and no cause. *)
Theorem sync_gives_up_exactly (N : nat) s msgs cause s' :
  sync C (Z.of_nat N) s = (Eff.Throw (Raised (mkICPSError MAX_RETRY msgs cause)), s')
  ↔ RecoverableFailures C N 0 (observed [Logged Info MsgStartingSync; Emitted START] s) s'
    ∧ msgs = [pretty (Z.of_nat N)] ∧ cause = None.
Proof.
  rewrite sync_gives_up_iff.
  split; intros (Hattempts & Hmsgs & Hcause).
  - split; [|done]. by apply Retries_RecoverableFailures.
  - split; [|done]. by apply Retries_RecoverableFailures.
Qed.

End SyncMore.

Section SyncMoreSamples.
Import SyncEngine SyncSamples SyncRuns.

(** The run [run0]: one retry, then the second attempt completes. *)
Lemma sync_returns_written_state_witness :
  sync collaborators 5 run0 = (Eff.Ok (["a1"; "a2"], ["F1"]), finished)
  ∧ ∃ (n : nat) s1 la lal s2 aq alq s3 s4,
      (Z.of_nat n < 5)%Z
      ∧ Retries collaborators n 0 (observed [Logged Info MsgStartingSync; Emitted START] run0) s1
      ∧ fetchAndLoadState collaborators (attemptStarted (Z.of_nat n + 1) s1)
        = (Eff.Ok ((["a1"; "a2"], ["F1"]).1, (["a1"; "a2"], ["F1"]).2, la, lal), s2)
      ∧ diffState collaborators (["a1"; "a2"], ["F1"]).1 (["a1"; "a2"], ["F1"]).2 la lal s2
        = (Eff.Ok (aq, alq), s3)
      ∧ writeState collaborators aq alq s3 = (Eff.Ok (), s4)
      ∧ finished = observed [Logged Info MsgCompletedSync; Emitted DONE] s4.
Proof.
  assert (sync collaborators 5 run0 = (Eff.Ok (["a1"; "a2"], ["F1"]), finished)) as Hrun
    by (vm_compute; reflexivity).
  split; [exact Hrun|].
  exact (sync_returns_written_state collaborators 5 run0 (["a1"; "a2"], ["F1"]) finished Hrun).
Defined.

(** A bad request is retried; the full disk that follows is fatal. *)
Lemma sync_throws_witness :
  sync collaborators 5 fullDisk
  = (Eff.Throw (Raised (mkICPSError UNKNOWN_SYNC [] (Some diskFull))), fullDiskEnd)
  ∧ ((∃ e, Raised (mkICPSError UNKNOWN_SYNC [] (Some diskFull)) = Foreign e)
     ∨ (∃ e, ¬ recoverableCode e
             ∧ Raised (mkICPSError UNKNOWN_SYNC [] (Some diskFull))
               = Raised (mkICPSError UNKNOWN_SYNC [] (Some e)))
     ∨ Raised (mkICPSError UNKNOWN_SYNC [] (Some diskFull))
       = Raised (mkICPSError MAX_RETRY [pretty (Z.max 0 5)] None)).
Proof.
  assert (sync collaborators 5 fullDisk
          = (Eff.Throw (Raised (mkICPSError UNKNOWN_SYNC [] (Some diskFull))), fullDiskEnd)) as Hrun
    by (vm_compute; reflexivity).
  split; [exact Hrun|].
  exact (sync_throws collaborators 5 fullDisk _ fullDiskEnd Hrun).
Defined.

End SyncMoreSamples.

(** ** The asset loader *)

Section AssetLoaderFacts.
Import AssetLoader.
Context {Asset Stats : Type} `{PhotosLibrary.PEntity Asset Asset}.
Context (fromFile : string → Stats → option Asset).
Context (fs : PhotosLibrary.FileSystem) (statSync : string → option Stats).

Local Abbreviation readsAs := (readsAs fromFile statSync).
Local Abbreviation failsWith := (failsWith fromFile statSync).
Local Abbreviation forEachFile := (forEachFile fromFile statSync).
Local Abbreviation loadAssets := (loadAssets fromFile fs statSync).

(** One pass of the loop: the file is read and stored, or the pass throws. *)
Lemma forEachFile_run assetDir lib fileName lg :
  (∃ asset, readsAs assetDir fileName asset
            ∧ forEachFile assetDir lib fileName lg
              = (Eff.Ok (<[PhotosLibrary.getUUID asset := asset]> lib), lg ++ [loadedLine asset]))
  ∨ (∃ t, failsWith assetDir fileName t
          ∧ forEachFile assetDir lib fileName lg = (Eff.Throw t, lg)).
Proof.
  unfold forEachFile, fs_statSync, Asset_fromFile, log, readsAs, failsWith. eff_unfold.
  destruct (statSync (format assetDir fileName)) as [fileStat|] eqn:Hstat.
  - destruct (fromFile fileName fileStat) as [asset|] eqn:Hfrom.
    + left. exists asset. split; [by exists fileStat|done].
    + right. eexists. split; [right; by exists fileStat|done].
  - right. eexists. split; [by left|done].
Qed.

(** The loop, for every way it can end. *)
Lemma forOf_forEachFile assetDir fileNames lib lg :
  (∃ assets, Forall2 (readsAs assetDir) fileNames assets
             ∧ Eff.forOf (forEachFile assetDir) fileNames lib lg
               = (Eff.Ok (store lib assets), lg ++ (loadedLine <$> assets)))
  ∨ (∃ before fileName after assets t,
        fileNames = before ++ fileName :: after
        ∧ Forall2 (readsAs assetDir) before assets
        ∧ failsWith assetDir fileName t
        ∧ Eff.forOf (forEachFile assetDir) fileNames lib lg
          = (Eff.Throw t, lg ++ (loadedLine <$> assets))).
Proof.
  revert lib lg. induction fileNames as [|fileName fileNames IH]; intros lib lg.
  - left. exists []. split; [constructor|]. simpl. by rewrite app_nil_r.
  - simpl. unfold Eff.bind.
    destruct (forEachFile_run assetDir lib fileName lg) as [(asset & Hreads & ->)|(t & Hfails & ->)].
    + destruct (IH (<[PhotosLibrary.getUUID asset := asset]> lib) (lg ++ [loadedLine asset]))
        as [(assets & Hall & ->)|(before & bad & after & assets & t & -> & Hall & Hfails & ->)].
      * left. exists (asset :: assets). split; [by constructor|].
        simpl. by rewrite <- app_assoc.
      * right. exists (fileName :: before), bad, after, (asset :: assets), t.
        split; [done|]. split; [by constructor|]. split; [done|].
        simpl. by rewrite <- app_assoc.
    + right. exists [], fileName, fileNames, [], t.
      split; [done|]. split; [constructor|]. split; [done|].
      simpl. by rewrite app_nil_r.
Qed.

Lemma store_lookup (assets : list Asset) lib uuid a :
  store lib assets !! uuid = Some a →
  (a ∈ assets ∧ PhotosLibrary.getUUID a = uuid) ∨ lib !! uuid = Some a.
Proof.
  revert lib. induction assets as [|b assets IH]; intros lib; simpl; [by right|].
  intros [[Hin Huuid]|Hlib]%IH.
  - left. split; [by right|done].
  - destruct (decide (PhotosLibrary.getUUID b = uuid)) as [<-|Hne].
    + rewrite lookup_insert_eq in Hlib. injection Hlib as <-. left. split; [by left|done].
    + rewrite lookup_insert_ne in Hlib by done. by right.
Qed.

Lemma store_is_Some (assets : list Asset) lib uuid :
  is_Some (lib !! uuid) ∨ (∃ a, a ∈ assets ∧ PhotosLibrary.getUUID a = uuid) →
  is_Some (store lib assets !! uuid).
Proof.
  revert lib. induction assets as [|b assets IH]; intros lib; simpl.
  - intros [?|(a & Hin & _)]; [done|by inversion Hin].
  - intros [Hlib|(a & Hin & Huuid)]; apply IH.
    + left. destruct (decide (PhotosLibrary.getUUID b = uuid)) as [<-|Hne].
      * by rewrite lookup_insert_eq.
      * by rewrite lookup_insert_ne.
    + apply elem_of_cons in Hin as [->|Hin].
      * left. by rewrite <- Huuid, lookup_insert_eq.
      * right. by exists a.
Qed.

(** X13.  When [loadAssets] returns, every entry of the asset directory,
    whatever its type, has been read with [statSync] and [Asset.fromFile],
    in the order of the listing, with one debug line each; the library
    holds nothing but those assets, each under its own UUID, and holds an
    asset under the UUID of every entry. *)
Theorem loadAssets_returns assetDir lg lib lg' :
  loadAssets assetDir lg = (Eff.Ok lib, lg') →
  ∃ entries assets,
    PhotosLibrary.readdir fs assetDir = Some entries
    ∧ Forall2 (readsAs assetDir) (PhotosLibrary.name <$> entries) assets
    ∧ lg' = lg ++ (loadedLine <$> assets)
    ∧ (∀ uuid a, lib !! uuid = Some a → a ∈ assets ∧ PhotosLibrary.getUUID a = uuid)
    ∧ (∀ a, a ∈ assets → is_Some (lib !! PhotosLibrary.getUUID a)).
Proof.
  unfold AssetLoader.loadAssets, fs_readdir. eff_unfold.
  destruct (PhotosLibrary.readdir fs assetDir) as [entries|]; [|done].
  destruct (forOf_forEachFile assetDir (PhotosLibrary.name <$> entries) ∅ lg)
    as [(assets & Hall & ->)|(? & ? & ? & ? & ? & _ & _ & _ & ->)]; [|done].
  intros [= <- <-]. exists entries, assets. repeat split; try done.
  - by destruct (store_lookup assets ∅ uuid a) as [[??]|?].
  - by destruct (store_lookup assets ∅ uuid a) as [[??]|?].
  - intros a Hin. apply store_is_Some. right. by exists a.
Qed.

(** X14.  [loadAssets] throws exactly when the asset directory cannot be
    listed, or some entry cannot be read: it then throws the error of the
    first such entry, after one debug line for each entry before it, and
    returns no library. *)
Theorem loadAssets_throws assetDir lg t lg' :
  loadAssets assetDir lg = (Eff.Throw t, lg') ↔
  (PhotosLibrary.readdir fs assetDir = None ∧ t = FsError "scandir" assetDir ∧ lg' = lg)
  ∨ (∃ entries before fileName after assets,
        PhotosLibrary.readdir fs assetDir = Some entries
        ∧ PhotosLibrary.name <$> entries = before ++ fileName :: after
        ∧ Forall2 (readsAs assetDir) before assets
        ∧ failsWith assetDir fileName t
        ∧ lg' = lg ++ (loadedLine <$> assets)).
Proof.
  unfold AssetLoader.loadAssets, fs_readdir. eff_unfold.
  destruct (PhotosLibrary.readdir fs assetDir) as [entries|].
  - destruct (forOf_forEachFile assetDir (PhotosLibrary.name <$> entries) ∅ lg)
      as [(assets & Hall & Hrun)|(before & bad & after & assets & t0 & Hsplit & Hall & Hfails & Hrun)].
    + rewrite Hrun. split; [done|].
      intros [[[=] _]|(? & before & bad & after & assets' & [= <-] & Hsplit & Hall' & Hfails & _)].
      exfalso. rewrite Hsplit in Hall.
      apply Forall2_app_inv_l in Hall as (? & ? & _ & Hbad & _).
      apply Forall2_cons_inv_l in Hbad as (a & ? & (st & Hst & Hfrom) & _ & _).
      destruct Hfails as [[Hst' _]|(st' & Hst' & Hfrom' & _)]; simplify_eq.
    + rewrite Hrun. split.
      * intros [= <- <-]. right. by exists entries, before, bad, after, assets.
      * intros [[[=] _]|(? & before' & bad' & after' & assets' & [= <-] & Hsplit' & Hall' & Hfails' & ->)].
        assert (∀ name a t1, readsAs assetDir name a → failsWith assetDir name t1 → False) as Hclash.
        { intros name a t1 (st & Hst & Hfrom) [[Hst' _]|(st' & Hst' & Hfrom' & _)]; simplify_eq. }
        assert (∀ name t1 t2, failsWith assetDir name t1 → failsWith assetDir name t2 → t1 = t2) as Hsame.
        { intros name t1 t2 [[Hst1 ->]|(st1 & Hst1 & Hfrom1 & ->)] [[Hst2 ->]|(st2 & Hst2 & Hfrom2 & ->)];
            simplify_eq; done. }
        assert (∀ name a b, readsAs assetDir name a → readsAs assetDir name b → a = b) as Hfun.
        { intros name a b (st & Hst & Hfrom) (st' & Hst' & Hfrom'). simplify_eq. done. }
        rewrite Hsplit in Hsplit'. clear Hrun Hsplit.
        revert before' assets assets' Hall Hall' Hsplit'.
        induction before as [|x before IH]; intros before' assets assets' Hall Hall' Hsplit'.
        -- destruct before' as [|y before'].
           ++ simpl in Hsplit'. injection Hsplit' as -> ->.
              apply Forall2_nil_inv_l in Hall as ->. apply Forall2_nil_inv_l in Hall' as ->.
              by rewrite (Hsame _ _ _ Hfails Hfails').
           ++ simpl in Hsplit'. injection Hsplit' as -> ->.
              apply Forall2_cons_inv_l in Hall' as (a & ? & Hreads & _ & _).
              destruct (Hclash _ _ _ Hreads Hfails).
        -- destruct before' as [|y before'].
           ++ simpl in Hsplit'. injection Hsplit' as -> <-.
              apply Forall2_cons_inv_l in Hall as (a & ? & Hreads & _ & _).
              destruct (Hclash _ _ _ Hreads Hfails').
           ++ simpl in Hsplit'. injection Hsplit' as -> Hsplit'.
              apply Forall2_cons_inv_l in Hall as (a & assets1 & Hreads & Hall & ->).
              apply Forall2_cons_inv_l in Hall' as (a' & assets1' & Hreads' & Hall' & ->).
              rewrite (Hfun _ _ _ Hreads Hreads').
              specialize (IH before' assets1 assets1' Hall Hall' Hsplit').
              injection IH as -> Hlg. apply app_inv_head in Hlg.
              by rewrite !fmap_cons, Hlg.
  - split.
    + intros [= <- <-]. by left.
    + intros [(_ & -> & ->)|(? & ? & ? & ? & ? & [=] & _)]. done.
Qed.

End AssetLoaderFacts.

(** ** The indexing check *)

Section IndexingFacts.
Import ICloudPhotos.
Context {W : Type} (C : Collaborators W).
Implicit Types (s : State W) (data state progress : JSVal) (ev : Event).

Lemma strictEqualsString_true (v : JSVal) (t : string) :
  strictEqualsString v t = true ↔ v = JStr t.
Proof.
  destruct v; simpl; try (split; [done|by intros [=]]).
  rewrite bool_decide_eq_true. split; [by intros ->|by intros [= ->]].
Qed.

Lemma events_added (before added : list Obs) :
  events (drop (length before) (before ++ added)) = events added.
Proof. by rewrite drop_app_length. Qed.

(** The events of a check, by what the collaborators answer. *)
Lemma checkingIndexingStatus_emitted s :
  emittedBy (checkingIndexingStatus C) s =
  match validatePhotosAccount C (world s) with
  | (false, _) => [ERROR MsgValidationFailed]
  | (true, w1) =>
      match axios_post C "CheckIndexingState" w1 with
      | (inl err, _) => [ERROR (MsgUnexpectedQueryError "CheckIndexingState" err)]
      | (inr data, w2) =>
          match indexingEvent data with
          | None => [ERROR (MsgUnexpectedQueryError "CheckIndexingState" TypeError)]
          | Some ev =>
              match listeners C ev w2 with
              | (None, _) => [ev]
              | (Some e, _) => [ev; ERROR (MsgUnexpectedQueryError "CheckIndexingState" e)]
              end
          end
      end
  end.
Proof.
  unfold emittedBy, checkingIndexingStatus, performQuery, indexingCallback, indexingEvent,
    failing, catch, post, validate, emit, log, read, observed.
  eff_unfold. cbn -[truthy strictEqualsString fieldValue].
  destruct (validatePhotosAccount C (world s)) as [[|] w1]; cbn -[truthy strictEqualsString fieldValue].
  2: { by destruct (listeners C _ w1) as [[e|] w2]; cbn -[truthy strictEqualsString fieldValue]; rewrite <- ?app_assoc, events_added. }
  destruct (axios_post C "CheckIndexingState" w1) as [[err|data] w2]; cbn -[truthy strictEqualsString fieldValue].
  { by destruct (listeners C _ w2) as [[e|] w3]; cbn -[truthy strictEqualsString fieldValue]; rewrite <- ?app_assoc, events_added. }
  destruct (fieldValue "state" data) as [state|]; cbn -[truthy strictEqualsString fieldValue].
  2: { by destruct (listeners C _ w2) as [[e|] w3]; cbn -[truthy strictEqualsString fieldValue]; rewrite <- ?app_assoc, events_added. }
  destruct (truthy state); cbn -[truthy strictEqualsString fieldValue].
  2: { destruct (listeners C _ w2) as [[e|] w3]; cbn -[truthy strictEqualsString fieldValue].
       - by destruct (listeners C _ w3) as [[e'|] w4]; cbn -[truthy strictEqualsString fieldValue]; rewrite <- ?app_assoc, events_added.
       - by rewrite <- ?app_assoc, events_added. }
  destruct (strictEqualsString state "FINISHED"); cbn -[truthy strictEqualsString fieldValue].
  { destruct (listeners C _ w2) as [[e|] w3]; cbn -[truthy strictEqualsString fieldValue].
    - by destruct (listeners C _ w3) as [[e'|] w4]; cbn -[truthy strictEqualsString fieldValue]; rewrite <- ?app_assoc, events_added.
    - by rewrite <- ?app_assoc, events_added. }
  destruct (fieldValue "progress" data) as [progress|]; cbn -[truthy strictEqualsString fieldValue].
  2: { by destruct (listeners C _ w2) as [[e|] w3]; cbn -[truthy strictEqualsString fieldValue]; rewrite <- ?app_assoc, events_added. }
  destruct (truthy progress); cbn -[truthy strictEqualsString fieldValue].
  all: destruct (listeners C _ w2) as [[e|] w3]; cbn -[truthy strictEqualsString fieldValue].
  all: try by rewrite <- ?app_assoc, events_added.
  all: by destruct (listeners C _ w3) as [[e'|] w4]; cbn -[truthy strictEqualsString fieldValue]; rewrite <- ?app_assoc, events_added.
Qed.

Lemma indexingEvent_READY data :
  indexingEvent data = Some READY ↔ fieldValue "state" data = Some (JStr "FINISHED").
Proof.
  unfold indexingEvent. destruct (fieldValue "state" data) as [state|]; cbn -[truthy strictEqualsString fieldValue]; [|done].
  split.
  - destruct (truthy state); cbn -[truthy strictEqualsString fieldValue]; [|done].
    destruct (strictEqualsString state "FINISHED") eqn:Hfinished.
    + apply strictEqualsString_true in Hfinished as ->. done.
    + destruct (fieldValue "progress" data) as [progress|]; cbn -[truthy strictEqualsString fieldValue]; [|done].
      by destruct (truthy progress).
  - by intros [= ->].
Qed.

Lemma indexingEvent_INDEX_IN_PROGRESS data progress :
  indexingEvent data = Some (INDEX_IN_PROGRESS progress) ↔
  ∃ state, fieldValue "state" data = Some state
           ∧ truthy state = true
           ∧ state ≠ JStr "FINISHED"
           ∧ fieldValue "progress" data = Some progress
           ∧ truthy progress = true.
Proof.
  unfold indexingEvent. split.
  - destruct (fieldValue "state" data) as [state|]; cbn -[truthy strictEqualsString fieldValue]; [|done].
    destruct (truthy state) eqn:Hstate; cbn -[truthy strictEqualsString fieldValue]; [|done].
    destruct (strictEqualsString state "FINISHED") eqn:Hfinished; [done|].
    destruct (fieldValue "progress" data) as [p|]; cbn -[truthy strictEqualsString fieldValue]; [|done].
    destruct (truthy p) eqn:Hp; [|done].
    intros [= ->]. exists state. repeat split; try done.
    intros ->. by rewrite (proj2 (strictEqualsString_true _ _)) in Hfinished.
  - intros (state & -> & Hstate & Hne & Hprogress & Hp).
    cbn -[truthy strictEqualsString fieldValue]. rewrite Hstate.
    cbn -[truthy strictEqualsString fieldValue].
    destruct (strictEqualsString state "FINISHED") eqn:Hfinished.
    + by apply strictEqualsString_true in Hfinished.
    + rewrite Hprogress. cbn -[truthy strictEqualsString fieldValue]. by rewrite Hp.
Qed.

Lemma indexingEvent_not_SETUP_COMPLETE data :
  indexingEvent data ≠ Some SETUP_COMPLETE.
Proof.
  unfold indexingEvent. destruct (fieldValue "state" data) as [state|]; cbn -[truthy strictEqualsString fieldValue]; [|done].
  destruct (truthy state); cbn -[truthy strictEqualsString fieldValue]; [|done].
  destruct (strictEqualsString state "FINISHED"); [done|].
  destruct (fieldValue "progress" data) as [p|]; cbn -[truthy strictEqualsString fieldValue]; [|done].
  by destruct (truthy p).
Qed.

(** X15.  The indexing check emits READY exactly when the account is
    valid, the query resolves, and the value of the state field of the
    first record of the response is the string FINISHED. *)
Theorem checkingIndexingStatus_ready s :
  READY ∈ emittedBy (checkingIndexingStatus C) s ↔
  ∃ w1 data w2,
    validatePhotosAccount C (world s) = (true, w1)
    ∧ axios_post C "CheckIndexingState" w1 = (inr data, w2)
    ∧ fieldValue "state" data = Some (JStr "FINISHED").
Proof.
  rewrite checkingIndexingStatus_emitted.
  destruct (validatePhotosAccount C (world s)) as [[|] w1].
  2: { split; [by intros [=]%list_elem_of_singleton|by intros (? & ? & ? & [=] & _)]. }
  destruct (axios_post C "CheckIndexingState" w1) as [[err|data] w2] eqn:Hpost.
  { split; [by intros [=]%list_elem_of_singleton|].
    intros (? & ? & ? & [= <-] & Hpost' & _). congruence. }
  destruct (indexingEvent data) as [ev|] eqn:Hev.
  - assert (ev = READY ↔ ∃ w1' data' w2', (true, w1) = (true, w1')
        ∧ axios_post C "CheckIndexingState" w1' = (inr data', w2')
        ∧ fieldValue "state" data' = Some (JStr "FINISHED")) as Hiff.
    { split.
      - intros ->. exists w1, data, w2. by rewrite <- indexingEvent_READY.
      - intros (? & data' & ? & [= <-] & Hpost' & Hstate).
        rewrite Hpost in Hpost'. injection Hpost' as <- <-.
        apply indexingEvent_READY in Hstate. congruence. }
    rewrite <- Hiff. destruct (listeners C ev w2) as [[e|] w3].
    + rewrite !elem_of_cons. split; [intros [->|[[=]|[]%elem_of_nil]]; done|by left].
    + by rewrite list_elem_of_singleton.
  - split; [by intros [=]%list_elem_of_singleton|].
    intros (? & data' & ? & [= <-] & Hpost' & Hstate).
    rewrite Hpost in Hpost'. injection Hpost' as <- <-.
    apply indexingEvent_READY in Hstate. congruence.
Qed.

(** X16.  The indexing check emits INDEX_IN_PROGRESS, with the progress as
    payload, exactly when the account is valid, the query resolves, the
    state of the first record is truthy and not FINISHED, and its progress
    is truthy: a progress of 0 is not reported as progress. *)
Theorem checkingIndexingStatus_in_progress s progress :
  INDEX_IN_PROGRESS progress ∈ emittedBy (checkingIndexingStatus C) s ↔
  ∃ w1 data w2 state,
    validatePhotosAccount C (world s) = (true, w1)
    ∧ axios_post C "CheckIndexingState" w1 = (inr data, w2)
    ∧ fieldValue "state" data = Some state
    ∧ truthy state = true
    ∧ state ≠ JStr "FINISHED"
    ∧ fieldValue "progress" data = Some progress
    ∧ truthy progress = true.
Proof.
  rewrite checkingIndexingStatus_emitted.
  destruct (validatePhotosAccount C (world s)) as [[|] w1].
  2: { split; [by intros [=]%list_elem_of_singleton|by intros (? & ? & ? & ? & [=] & _)]. }
  destruct (axios_post C "CheckIndexingState" w1) as [[err|data] w2] eqn:Hpost.
  { split; [by intros [=]%list_elem_of_singleton|].
    intros (? & ? & ? & ? & [= <-] & Hpost' & _). congruence. }
  assert (indexingEvent data = Some (INDEX_IN_PROGRESS progress) ↔
          ∃ w1' data' w2' state,
            (true, w1) = (true, w1')
            ∧ axios_post C "CheckIndexingState" w1' = (inr data', w2')
            ∧ fieldValue "state" data' = Some state
            ∧ truthy state = true
            ∧ state ≠ JStr "FINISHED"
            ∧ fieldValue "progress" data' = Some progress
            ∧ truthy progress = true) as <-.
  { rewrite indexingEvent_INDEX_IN_PROGRESS. split.
    - intros (state & ?). by exists w1, data, w2, state.
    - intros (? & data' & ? & state & [= <-] & Hpost' & ?).
      rewrite Hpost in Hpost'. injection Hpost' as <- <-. by exists state. }
  destruct (indexingEvent data) as [ev|].
  - destruct (listeners C ev w2) as [[e|] w3].
    + rewrite !elem_of_cons. split; [intros [->|[[=]|[]%elem_of_nil]]; done|intros [= ->]; by left].
    + rewrite list_elem_of_singleton. split; [by intros ->|by intros [= ->]].
  - split; [by intros [=]%list_elem_of_singleton|done].
Qed.

Lemma emit_quiet ev s :
  (∀ ev' w, (listeners C ev' w).1 = None) →
  ∃ s', emit C ev s = (Eff.Ok tt, s').
Proof.
  intros Hquiet. unfold emit. specialize (Hquiet ev (world (observed [Emitted ev] s))).
  destruct (listeners C ev _) as [[e|] w]; [done|]. by eexists.
Qed.

(** X17.  If no listener throws, the indexing check returns, leaves no
    rejection unhandled and emits exactly one event, which is not
    SETUP_COMPLETE: an invalid account, a rejected query and a response of
    an unexpected shape are all reported by an event. *)
Theorem checkingIndexingStatus_one_event s :
  (∀ ev w, (listeners C ev w).1 = None) →
  (checkingIndexingStatus C s).1 = Eff.Ok ()
  ∧ ∃ ev, ev ≠ SETUP_COMPLETE ∧ emittedBy (checkingIndexingStatus C) s = [ev].
Proof.
  intros Hquiet. split.
  - unfold checkingIndexingStatus, performQuery, indexingCallback, failing, catch,
      post, validate, log, read.
    eff_unfold. cbn -[truthy strictEqualsString fieldValue emit].
    destruct (validatePhotosAccount C (world s)) as [[|] w1];
      cbn -[truthy strictEqualsString fieldValue emit].
    2: { match goal with
         | |- context [emit C ?ev ?s0] => by destruct (emit_quiet ev s0 Hquiet) as [? ->]
         end. }
    destruct (axios_post C "CheckIndexingState" w1) as [[err|data] w2];
      cbn -[truthy strictEqualsString fieldValue emit].
    { match goal with
      | |- context [emit C ?ev ?s0] => by destruct (emit_quiet ev s0 Hquiet) as [? ->]
      end. }
    destruct (fieldValue "state" data) as [state|];
      cbn -[truthy strictEqualsString fieldValue emit].
    2: { match goal with
         | |- context [emit C ?ev ?s0] => by destruct (emit_quiet ev s0 Hquiet) as [? ->]
         end. }
    destruct (truthy state); cbn -[truthy strictEqualsString fieldValue emit].
    2: { match goal with
         | |- context [emit C ?ev ?s0] => by destruct (emit_quiet ev s0 Hquiet) as [? ->]
         end. }
    destruct (strictEqualsString state "FINISHED");
      cbn -[truthy strictEqualsString fieldValue emit].
    { match goal with
      | |- context [emit C ?ev ?s0] => by destruct (emit_quiet ev s0 Hquiet) as [? ->]
      end. }
    destruct (fieldValue "progress" data) as [progress|];
      cbn -[truthy strictEqualsString fieldValue emit].
    2: { match goal with
         | |- context [emit C ?ev ?s0] => by destruct (emit_quiet ev s0 Hquiet) as [? ->]
         end. }
    destruct (truthy progress); cbn -[truthy strictEqualsString fieldValue emit].
    all: match goal with
         | |- context [emit C ?ev ?s0] => by destruct (emit_quiet ev s0 Hquiet) as [? ->]
         end.
  - rewrite checkingIndexingStatus_emitted.
    destruct (validatePhotosAccount C (world s)) as [[|] w1];
      [|eexists; split; [|reflexivity]; done].
    destruct (axios_post C "CheckIndexingState" w1) as [[err|data] w2];
      [eexists; split; [|reflexivity]; done|].
    destruct (indexingEvent data) as [ev|] eqn:Hev;
      [|eexists; split; [|reflexivity]; done].
    specialize (Hquiet ev w2). destruct (listeners C ev w2) as [[e|] w3]; [done|].
    exists ev. split; [|done]. intros ->. by apply indexingEvent_not_SETUP_COMPLETE in Hev.
Qed.

(** X18.  If the listener for READY throws, the check that has emitted
    READY emits ERROR after it, as an unexpected error of the query. *)
Theorem checkingIndexingStatus_ready_then_error s w1 data w2 e w3 :
  validatePhotosAccount C (world s) = (true, w1) →
  axios_post C "CheckIndexingState" w1 = (inr data, w2) →
  fieldValue "state" data = Some (JStr "FINISHED") →
  listeners C READY w2 = (Some e, w3) →
  emittedBy (checkingIndexingStatus C) s
  = [READY; ERROR (MsgUnexpectedQueryError "CheckIndexingState" e)].
Proof.
  intros Hvalid Hpost Hstate%indexingEvent_READY Hlistener.
  by rewrite checkingIndexingStatus_emitted, Hvalid, Hpost, Hstate, Hlistener.
Qed.

(** X19.  A response of an unexpected shape is reported as an unexpected
    error of the query: if reading the state throws a [TypeError] (no first
    record, no fields, no state field), or the state is set and not
    FINISHED and reading the progress throws (no progress field), the only
    event of the check is ERROR with that [TypeError]. *)
Theorem checkingIndexingStatus_unexpected_shape s w1 data w2 :
  validatePhotosAccount C (world s) = (true, w1) →
  axios_post C "CheckIndexingState" w1 = (inr data, w2) →
  fieldValue "state" data = None
  ∨ (∃ state, fieldValue "state" data = Some state
              ∧ truthy state = true
              ∧ state ≠ JStr "FINISHED"
              ∧ fieldValue "progress" data = None) →
  emittedBy (checkingIndexingStatus C) s
  = [ERROR (MsgUnexpectedQueryError "CheckIndexingState" TypeError)].
Proof.
  intros Hvalid Hpost Hshape.
  rewrite checkingIndexingStatus_emitted, Hvalid, Hpost.
  assert (indexingEvent data = None) as ->; [|done].
  unfold indexingEvent.
  destruct Hshape as [->|(state & -> & Hstate & Hne & Hprogress)]; [done|].
  cbn -[truthy strictEqualsString fieldValue]. rewrite Hstate, Hprogress.
  cbn -[truthy strictEqualsString fieldValue].
  destruct (strictEqualsString state "FINISHED") eqn:Hfinished; [|done].
  by apply strictEqualsString_true in Hfinished.
Qed.

End IndexingFacts.

Section IndexingSamples.
Import ICloudPhotos IndexingSamples.

Lemma checkingIndexingStatus_one_event_witness :
  (checkingIndexingStatus collaborators (answering stalledData)).1 = Eff.Ok ()
  ∧ ∃ ev, ev ≠ SETUP_COMPLETE
          ∧ emittedBy (checkingIndexingStatus collaborators) (answering stalledData) = [ev].
Proof.
  apply (checkingIndexingStatus_one_event collaborators (answering stalledData)).
  intros ev w. reflexivity.
Defined.

(** A progress of 0 is reported as an unknown state. *)
Example checkingIndexingStatus_stalled :
  emittedBy (checkingIndexingStatus collaborators) (answering stalledData)
  = [ERROR (MsgUnknownState (JStr "RUNNING") stalledData)].
Proof. vm_compute. reflexivity. Qed.

Lemma checkingIndexingStatus_ready_then_error_witness :
  emittedBy (checkingIndexingStatus throwing) (answering finishedData)
  = [READY; ERROR (MsgUnexpectedQueryError "CheckIndexingState" (OtherError "listener"))].
Proof.
  apply (checkingIndexingStatus_ready_then_error throwing (answering finishedData)
           (mkWorld true (inr finishedData)) finishedData
           (mkWorld true (inr finishedData)) (OtherError "listener")
           (mkWorld true (inr finishedData))).
  - reflexivity.
  - reflexivity.
  - vm_compute. reflexivity.
  - reflexivity.
Defined.

Lemma checkingIndexingStatus_unexpected_shape_witness :
  emittedBy (checkingIndexingStatus collaborators) (answering noProgressData)
  = [ERROR (MsgUnexpectedQueryError "CheckIndexingState" TypeError)].
Proof.
  apply (checkingIndexingStatus_unexpected_shape collaborators (answering noProgressData)
           (mkWorld true (inr noProgressData)) noProgressData
           (mkWorld true (inr noProgressData))).
  - reflexivity.
  - reflexivity.
  - right. exists (JStr "RUNNING"). split; [vm_compute; reflexivity|].
    split; [reflexivity|]. split; [discriminate|]. vm_compute. reflexivity.
Defined.

(** No record at all: reading the state throws. *)
Example checkingIndexingStatus_no_records :
  fieldValue "state" noRecordsData = None
  ∧ emittedBy (checkingIndexingStatus collaborators) (answering noRecordsData)
    = [ERROR (MsgUnexpectedQueryError "CheckIndexingState" TypeError)].
Proof. split; vm_compute; reflexivity. Qed.

Example checkingIndexingStatus_samples :
  emittedBy (checkingIndexingStatus collaborators) (answering finishedData) = [READY]
  ∧ emittedBy (checkingIndexingStatus collaborators) (answering runningData)
    = [INDEX_IN_PROGRESS (JNum 42%float)]
  ∧ emittedBy (checkingIndexingStatus collaborators) invalidAccount
    = [ERROR MsgValidationFailed].
Proof. repeat split; vm_compute; reflexivity. Qed.

End IndexingSamples.

Section AssetLoaderSamples.
Import AssetLoader AssetSamples.

(** Four entries, three assets: the second file of the base name Aa1
    replaces the first, and the directory is loaded as an asset. *)
Lemma loadAssets_returns_witness :
  loadAssets fromFile asset_disk statSync "/data/all" [] = (Eff.Ok assetLibrary, assetLog)
  ∧ ∃ entries assets,
      PhotosLibrary.readdir asset_disk "/data/all" = Some entries
      ∧ Forall2 (readsAs fromFile statSync "/data/all") (PhotosLibrary.name <$> entries) assets
      ∧ assetLog = [] ++ (loadedLine <$> assets)
      ∧ (∀ uuid a, assetLibrary !! uuid = Some a → a ∈ assets ∧ PhotosLibrary.getUUID a = uuid)
      ∧ (∀ a, a ∈ assets → is_Some (assetLibrary !! PhotosLibrary.getUUID a)).
Proof.
  assert (loadAssets fromFile asset_disk statSync "/data/all" [] = (Eff.Ok assetLibrary, assetLog))
    as Hrun by (vm_compute; reflexivity).
  split; [exact Hrun|].
  exact (loadAssets_returns fromFile asset_disk statSync "/data/all" [] assetLibrary assetLog Hrun).
Defined.

(** A link whose target is gone makes the whole load fail, after the file
    before it has been read. *)
Example loadAssets_broken_link :
  loadAssets fromFile asset_disk statSync "/data/gone" []
  = (Eff.Throw (FsError "stat" "/data/gone/lost.jpeg"),
     [loadedLine (mkAsset "Cc3" "Cc3.jpeg" 500)]).
Proof. vm_compute. reflexivity. Qed.

End AssetLoaderSamples.

(** ** The loader on a cycle of links *)

Section LoaderCycles.
Import PhotosLibrary.



End LoaderCycles.
